(** * Workspace assistant backend: guardrails, calendar scan, JSON
    extraction, task analysis, context manager and orchestrator

  A shallow embedding of the pure and state-passing parts of
  [backend/guardrails.py], [backend/utils.py],
  [backend/tools/calendar_tools.py], [backend/agents/task_agent.py],
  [backend/context_manager.py] and [backend/orchestrator_modern.py],
  followed by the properties proved about them.

  Conventions.
  - A Python [str] is a [list ascii]; a character is a code point below
    256, and the character tables below are those of Python 3 on that
    range.
  - [datetime] values are integers counting microseconds.  The test
    [total_seconds() < window] of the rate limit is exact on them
    (rounding to a float is monotone and the window is a float); the
    test [total_seconds() / 60 >= duration] of the calendar scan is
    computed with the two float divisions of the source.
  - [datetime.now()] is an explicit argument of every function that
    reads the clock, one argument per read; the content of an answer of
    the language model is an explicit argument of the function that
    asks for it. *)

From Stdlib Require Import String Ascii List ZArith Bool Arith Lia Permutation Sorted.
From Stdlib Require DecimalString.
Import ListNotations.

Set Implicit Arguments.

Local Open Scope list_scope.

(* ================================================================== *)
(** * Python strings *)
(* ================================================================== *)

Module PyStr.

Definition str := list ascii.

(** String literals of the source are written [py"..."]. *)
Definition lit (s : string) : str := list_ascii_of_string s.

Definition code (c : ascii) : nat := nat_of_ascii c.

Definition between (lo hi : nat) (c : ascii) : bool :=
  (lo <=? code c) && (code c <=? hi).

Definition ascii_eqb (a b : ascii) : bool := Ascii.eqb a b.

Fixpoint str_eqb (a b : str) : bool :=
  match a, b with
  | [], [] => true
  | x :: a', y :: b' => ascii_eqb x y && str_eqb a' b'
  | _, _ => false
  end.

(** [str.isspace] on one character, which is also the class [\s] of
    [re] on [str] patterns. *)
Definition is_space (c : ascii) : bool :=
  between 9 13 c || between 28 32 c || (code c =? 133) || (code c =? 160).

(** The class [\d]. *)
Definition is_digit (c : ascii) : bool := between 48 57 c.

Definition is_upper_ascii (c : ascii) : bool := between 65 90 c.
Definition is_lower_ascii (c : ascii) : bool := between 97 122 c.

(** The class [\w]: alphanumeric characters and the underscore. *)
Definition is_word (c : ascii) : bool :=
  is_digit c || is_upper_ascii c || is_lower_ascii c || (code c =? 95)
  || (code c =? 170) || between 178 179 c || (code c =? 181)
  || between 185 186 c || between 188 190 c
  || between 192 214 c || between 216 246 c || between 248 255 c.

(** [str.lower] on one character. *)
Definition lower (c : ascii) : ascii :=
  if is_upper_ascii c || ((between 192 222 c) && negb (code c =? 215))
  then ascii_of_nat (code c + 32) else c.

Definition lower_str (s : str) : str := map lower s.

(** Case folding used by [re.IGNORECASE]: on this range only the ASCII
    letters have a partner. *)
Definition fold_case (c : ascii) : ascii :=
  if is_upper_ascii c then ascii_of_nat (code c + 32) else c.

Fixpoint lstrip (s : str) : str :=
  match s with
  | c :: s' => if is_space c then lstrip s' else s
  | [] => []
  end.

Definition rstrip (s : str) : str := rev (lstrip (rev s)).

(** [s.strip()] *)
Definition strip (s : str) : str := rstrip (lstrip s).

Fixpoint starts_with (p s : str) : bool :=
  match p, s with
  | [], _ => true
  | x :: p', y :: s' => ascii_eqb x y && starts_with p' s'
  | _ :: _, [] => false
  end.

(** [sub in s] *)
Fixpoint contains (sub s : str) : bool :=
  starts_with sub s ||
  match s with
  | [] => false
  | _ :: s' => contains sub s'
  end.

(** [c in s] for a one-character [c]. *)
Definition has_char (c : ascii) (s : str) : bool := existsb (ascii_eqb c) s.

(** [s.find(c)] for a one-character [c]; [None] stands for [-1]. *)
Fixpoint str_find (c : ascii) (s : str) : option nat :=
  match s with
  | [] => None
  | x :: s' => if ascii_eqb c x then Some 0
               else option_map S (str_find c s')
  end.

(** [s.rfind(c)] for a one-character [c]; [None] stands for [-1]. *)
Fixpoint str_rfind (c : ascii) (s : str) : option nat :=
  match s with
  | [] => None
  | x :: s' => match str_rfind c s' with
               | Some i => Some (S i)
               | None => if ascii_eqb c x then Some 0 else None
               end
  end.

(** [s[a:b]] for [0 <= a], [0 <= b]. *)
Definition slice (a b : nat) (s : str) : str := firstn (b - a) (skipn a s).

(** [str(n)] for an integer. *)
Definition str_of_Z (z : Z) : str :=
  lit (DecimalString.NilZero.string_of_int (Z.to_int z)).

Definition str_of_nat (n : nat) : str := str_of_Z (Z.of_nat n).

End PyStr.

Notation "'py' x" := (PyStr.lit x%string) (at level 10, x at level 9, only parsing).

(* ================================================================== *)
(** * The regular expressions of [re] used by the source *)
(* ================================================================== *)

Module Re.
Import PyStr.

(** Members of a bracketed class. *)
Inductive citem : Type :=
| CChar (c : ascii)
| CRange (lo hi : ascii)
| CDigit
| CSpace
| CWord.

(** Patterns; every repetition is greedy, as in the source. *)
Inductive re : Type :=
| Eps
| Lit (c : ascii)
| Cls (items : list citem)
| Dot
| Cat (r1 r2 : re)
| Opt (r : re)
| Star (r : re)
| Plus (r : re)
| Rep (n : nat) (r : re)
| RepMin (n : nat) (r : re)
| WordB
| Bol
| Eol.

Record flags : Type := Flags {
  ignorecase : bool;
  multiline : bool;
  dotall : bool
}.

Definition no_flags : flags := Flags false false false.
Definition IGNORECASE : flags := Flags true false false.
Definition MULTILINE : flags := Flags false true false.
Definition DOTALL : flags := Flags false false true.

(** A literal string as a pattern. *)
Fixpoint Str (l : str) : re :=
  match l with
  | [] => Eps
  | [c] => Lit c
  | c :: l' => Cat (Lit c) (Str l')
  end.

(** [Seq [r1; ...; rn]] is the concatenation [r1 ... rn]. *)
Fixpoint Seq (rs : list re) : re :=
  match rs with
  | [] => Eps
  | [r] => r
  | r :: rs' => Cat r (Seq rs')
  end.

Definition NL : ascii := ascii_of_nat 10.

Section Matcher.
Variable fl : flags.

Definition lit_matches (c x : ascii) : bool :=
  ascii_eqb c x ||
  (ignorecase fl && ascii_eqb (fold_case c) (fold_case x)).

Definition in_range (lo hi x : ascii) : bool :=
  between (code lo) (code hi) x.

Definition swap_case (x : ascii) : ascii :=
  if is_upper_ascii x then ascii_of_nat (code x + 32)
  else if is_lower_ascii x then ascii_of_nat (code x - 32)
  else x.

Definition item_matches (it : citem) (x : ascii) : bool :=
  match it with
  | CChar c => lit_matches c x
  | CRange lo hi =>
      in_range lo hi x || (ignorecase fl && in_range lo hi (swap_case x))
  | CDigit => is_digit x
  | CSpace => is_space x
  | CWord => is_word x
  end.

Definition cls_matches (items : list citem) (x : ascii) : bool :=
  existsb (fun it => item_matches it x) items.

Definition dot_matches (x : ascii) : bool :=
  dotall fl || negb (ascii_eqb x NL).

Definition word_opt (o : option ascii) : bool :=
  match o with Some c => is_word c | None => false end.

(** [\b]: exactly one of the neighbouring positions holds a word
    character. *)
Definition at_word_boundary (prev : option ascii) (rest : str) : bool :=
  xorb (word_opt prev) (word_opt (hd_error rest)).

(** [^] *)
Definition at_bol (prev : option ascii) : bool :=
  match prev with
  | None => true
  | Some c => multiline fl && ascii_eqb c NL
  end.

(** [$]: at the end, before a final newline and, with [MULTILINE],
    before any newline. *)
Definition at_eol (rest : str) : bool :=
  match rest with
  | [] => true
  | c :: rest' =>
      ascii_eqb c NL &&
      (multiline fl || match rest' with [] => true | _ => false end)
  end.

(** The continuation receives the last character read and the rest of
    the text. *)
Definition cont : Type := option ascii -> str -> option str.
Definition matcher : Type := option ascii -> str -> cont -> option str.

Definition or_else (a : option str) (b : option str) : option str :=
  match a with Some x => Some x | None => b end.

Definition one_char (ok : ascii -> bool) : matcher :=
  fun prev t k =>
    match t with
    | x :: t' => if ok x then k (Some x) t' else None
    | [] => None
    end.

(** Greedy iteration: take one more round when it advances, otherwise
    go on with the continuation. *)
Fixpoint star_loop (step : matcher) (fuel : nat) : matcher :=
  fun prev t k =>
    match fuel with
    | O => k prev t
    | S fuel' =>
        or_else
          (step prev t (fun prev' t' =>
             if length t' <? length t
             then star_loop step fuel' prev' t' k else None))
          (k prev t)
    end.

Fixpoint rep_loop (step : matcher) (n : nat) : matcher :=
  fun prev t k =>
    match n with
    | O => k prev t
    | S n' => step prev t (fun prev' t' => rep_loop step n' prev' t' k)
    end.

Definition star_of (step : matcher) : matcher :=
  fun prev t k => star_loop step (S (length t)) prev t k.

(** Backtracking matcher in the order [re] tries the alternatives. *)
Fixpoint run (r : re) : matcher :=
  fun prev t k =>
    match r with
    | Eps => k prev t
    | Lit c => one_char (lit_matches c) prev t k
    | Cls items => one_char (cls_matches items) prev t k
    | Dot => one_char dot_matches prev t k
    | Cat r1 r2 => run r1 prev t (fun prev' t' => run r2 prev' t' k)
    | Opt r1 => or_else (run r1 prev t k) (k prev t)
    | Star r1 => star_of (run r1) prev t k
    | Plus r1 => run r1 prev t (fun prev' t' => star_of (run r1) prev' t' k)
    | Rep n r1 => rep_loop (run r1) n prev t k
    | RepMin n r1 =>
        rep_loop (run r1) n prev t
          (fun prev' t' => star_of (run r1) prev' t' k)
    | WordB => if at_word_boundary prev t then k prev t else None
    | Bol => if at_bol prev then k prev t else None
    | Eol => if at_eol t then k prev t else None
    end.

(** A match of [r] starting exactly here; the result is the text left
    after the match. *)
Definition match_here (r : re) (prev : option ascii) (t : str)
  : option str :=
  run r prev t (fun _ t' => Some t').

(** [re.match(r, t)] as a truth value. *)
Definition py_match (r : re) (t : str) : bool :=
  match match_here r None t with Some _ => true | None => false end.

(** What a match consumed, given what it left. *)
Definition consumed (t rest : str) : str :=
  firstn (length t - length rest) t.

Definition last_of (prev : option ascii) (l : str) : option ascii :=
  match rev l with c :: _ => Some c | [] => prev end.

(** Leftmost match at or after the current position:
    (skipped text, matched text, text left). *)
Fixpoint find_from (r : re) (prev : option ascii) (t : str)
  : option (str * str * str) :=
  match match_here r prev t with
  | Some rest => Some ([], consumed t rest, rest)
  | None =>
      match t with
      | [] => None
      | c :: t' =>
          match find_from r (Some c) t' with
          | Some (skipped, m, rest) => Some (c :: skipped, m, rest)
          | None => None
          end
      end
  end.

(** [re.search(r, t)]: [group(0)] of the leftmost match. *)
Definition search (r : re) (t : str) : option str :=
  match find_from r None t with
  | Some (_, m, _) => Some m
  | None => None
  end.

(** [re.findall(r, t)] for a pattern without groups.  After an empty
    match the scan moves on by one character. *)
Fixpoint findall_loop (fuel : nat) (r : re) (prev : option ascii)
  (t : str) : list str :=
  match fuel with
  | O => []
  | S fuel' =>
      match find_from r prev t with
      | None => []
      | Some (skipped, m, rest) =>
          m ::
          match m, rest with
          | [], [] => []
          | [], c :: rest' => findall_loop fuel' r (Some c) rest'
          | _ :: _, _ =>
              findall_loop fuel' r (last_of prev (skipped ++ m)) rest
          end
      end
  end.

Definition findall (r : re) (t : str) : list str :=
  findall_loop (S (length t)) r None t.

(** [re.sub(r, '', t)].  After an empty match the scan copies one
    character and moves on. *)
Fixpoint sub_loop (fuel : nat) (r : re) (prev : option ascii)
  (t : str) : str :=
  match fuel with
  | O => t
  | S fuel' =>
      match find_from r prev t with
      | None => t
      | Some (skipped, m, rest) =>
          skipped ++
          match m, rest with
          | [], [] => []
          | [], c :: rest' => c :: sub_loop fuel' r (Some c) rest'
          | _ :: _, _ =>
              sub_loop fuel' r (last_of prev (skipped ++ m)) rest
          end
      end
  end.

Definition sub_empty (r : re) (t : str) : str :=
  sub_loop (S (length t)) r None t.

(** [re.split(r, t)] for a pattern without groups that matches no
    empty string. *)
Fixpoint split_loop (fuel : nat) (r : re) (prev : option ascii)
  (t : str) : list str :=
  match fuel with
  | O => [t]
  | S fuel' =>
      match find_from r prev t with
      | None => [t]
      | Some (skipped, m, rest) =>
          skipped ::
          split_loop fuel' r (last_of prev (skipped ++ m)) rest
      end
  end.

Definition split (r : re) (t : str) : list str :=
  split_loop (S (length t)) r None t.

End Matcher.

End Re.

(* ================================================================== *)
(** * Python values that cross function boundaries *)
(* ================================================================== *)

Module Py.
Import PyStr.

(** One entry of the [patterns] list of [check_sensitive_content]:
    [{"type": name, "count": n}]. *)
Definition pattern_hit : Type := (string * nat)%type.

(** The f-strings of the source, one constructor per template, holding
    the interpolated values. *)
Inductive message : Type :=
| Plain (text : str)
| SensitiveDetected (patterns : list pattern_hit)
    (* f"(warning sign) Sensitive content detected: {patterns}" *)
| Blocked (reason : str)
    (* f"(no entry sign) {reason}" *)
| InvalidEmail (to : str)
    (* f"(cross mark) Invalid email address: {to}" *)
| MassEmail (n : nat)
    (* f"(warning sign) Mass email to {n} recipients" *)
| SensitiveContent (patterns : list pattern_hit)
    (* f"Sensitive content: {patterns}" *).

Inductive pyval : Type :=
| VNone
| VBool (b : bool)
| VInt (z : Z)
| VStr (m : message)
| VTime (t : Z)
| VHits (hits : list pattern_hit)
| VList (l : list (option message)).
(* [VList]: a list whose members are strings ([Some]) or [None]. *)

(** A dict literal, keys in the order written. *)
Definition dict : Type := list (string * pyval).

Fixpoint get (k : string) (d : dict) : option pyval :=
  match d with
  | [] => None
  | (k', v) :: d' => if String.eqb k k' then Some v else get k d'
  end.

(** [d[k]] for a key the dict holds. *)
Definition item (k : string) (d : dict) : pyval :=
  match get k d with Some v => v | None => VNone end.

(** [d.get(k, default)] *)
Definition get_default (k : string) (default : pyval) (d : dict) : pyval :=
  match get k d with Some v => v | None => default end.

Definition nonempty {A : Type} (l : list A) : bool :=
  match l with [] => false | _ :: _ => true end.

(** Truth value of a Python value in a condition. *)
Definition truthy (v : pyval) : bool :=
  match v with
  | VNone => false
  | VBool b => b
  | VInt z => negb (z =? 0)%Z
  | VStr (Plain s) => nonempty s
  | VStr _ => true
  | VTime _ => true
  | VHits l => nonempty l
  | VList l => nonempty l
  end.

Definition text (s : str) : pyval := VStr (Plain s).

Definition as_str (v : pyval) : str :=
  match v with VStr (Plain s) => s | _ => [] end.

Definition as_hits (v : pyval) : list pattern_hit :=
  match v with VHits l => l | _ => [] end.

(** Arguments of an action: a dict with string values. *)
Definition args_dict : Type := list (string * str).

Fixpoint lookup (k : string) (d : args_dict) : option str :=
  match d with
  | [] => None
  | (k', v) :: d' => if String.eqb k k' then Some v else lookup k d'
  end.

(** [d.get(k, "")] *)
Definition get_or_empty (k : string) (d : args_dict) : str :=
  match lookup k d with Some v => v | None => [] end.

(** [k in d] *)
Definition has_key (k : string) (d : args_dict) : bool :=
  match lookup k d with Some _ => true | None => false end.

Definition hex_digit (n : nat) : ascii :=
  if n <? 10 then ascii_of_nat (48 + n) else ascii_of_nat (87 + n).

Definition QUOTE : ascii := ascii_of_nat 39.
Definition DQUOTE : ascii := ascii_of_nat 34.
Definition BACKSLASH : ascii := ascii_of_nat 92.

(** [repr] of one character inside quotes [q]. *)
Definition repr_char (q : ascii) (c : ascii) : str :=
  let n := code c in
  if ascii_eqb c q || ascii_eqb c BACKSLASH then [BACKSLASH; c]
  else if n =? 9 then BACKSLASH :: py"t"
  else if n =? 10 then BACKSLASH :: py"n"
  else if n =? 13 then BACKSLASH :: py"r"
  else if (n <? 32) || ((127 <=? n) && (n <=? 160)) || (n =? 173)
  then BACKSLASH :: py"x" ++ [hex_digit (n / 16); hex_digit (n mod 16)]
  else [c].

(** [repr(s)] for a string. *)
Definition repr_str (t : str) : str :=
  let q := if has_char QUOTE t && negb (has_char DQUOTE t)
           then DQUOTE else QUOTE in
  q :: flat_map (repr_char q) t ++ [q].

Fixpoint repr_items (d : args_dict) : str :=
  match d with
  | [] => []
  | [(k, v)] => repr_str (lit k) ++ py": " ++ repr_str v
  | (k, v) :: d' =>
      repr_str (lit k) ++ py": " ++ repr_str v ++ py", " ++ repr_items d'
  end.

(** [str(args)] for a dict. *)
Definition str_of_args (d : args_dict) : str :=
  py"{" ++ repr_items d ++ py"}".

End Py.

(* ================================================================== *)
(** * [backend/guardrails.py] *)
(* ================================================================== *)

Module Guardrails.
Import PyStr Re Py.
Local Open Scope string_scope.
Local Open Scope list_scope.
Local Open Scope nat_scope.

Definition digit : re := Cls [CDigit].
Definition chr (c : string) : citem :=
  match lit c with x :: _ => CChar x | [] => CChar zero end.
Definition range (lo hi : string) : citem :=
  match lit lo, lit hi with
  | a :: _, b :: _ => CRange a b
  | _, _ => CChar zero
  end.
Definition one (c : string) : re :=
  match lit c with x :: _ => Lit x | [] => Eps end.

(** [\b\d{4}[\s-]?\d{4}[\s-]?\d{4}[\s-]?\d{4}\b] *)
Definition credit_card_re : re :=
  Seq [WordB; Rep 4 digit; Opt (Cls [CSpace; chr "-"]);
       Rep 4 digit; Opt (Cls [CSpace; chr "-"]);
       Rep 4 digit; Opt (Cls [CSpace; chr "-"]);
       Rep 4 digit; WordB].

(** [\b\d{3}-\d{2}-\d{4}\b] *)
Definition ssn_re : re :=
  Seq [WordB; Rep 3 digit; one "-"; Rep 2 digit; one "-"; Rep 4 digit;
       WordB].

(** [password[\s:=]+[\w@#$%]+] *)
Definition password_re : re :=
  Seq [Str (py"password"); Plus (Cls [CSpace; chr ":"; chr "="]);
       Plus (Cls [CWord; chr "@"; chr "#"; chr "$"; chr "%"])].

(** [[Aa][Pp][Ii]_?[Kk][Ee][Yy][\s:=]+[\w-]+] *)
Definition api_key_re : re :=
  Seq [Cls [chr "A"; chr "a"]; Cls [chr "P"; chr "p"];
       Cls [chr "I"; chr "i"]; Opt (one "_");
       Cls [chr "K"; chr "k"]; Cls [chr "E"; chr "e"];
       Cls [chr "Y"; chr "y"];
       Plus (Cls [CSpace; chr ":"; chr "="]);
       Plus (Cls [CWord; chr "-"])].

(** [\b[A-Za-z0-9._%+-]+@[A-Za-z0-9.-]+\.[A-Z|a-z]{2,}\b] *)
Definition email_re : re :=
  Seq [WordB;
       Plus (Cls [range "A" "Z"; range "a" "z"; range "0" "9";
                  chr "."; chr "_"; chr "%"; chr "+"; chr "-"]);
       one "@";
       Plus (Cls [range "A" "Z"; range "a" "z"; range "0" "9";
                  chr "."; chr "-"]);
       one ".";
       RepMin 2 (Cls [range "A" "Z"; chr "|"; range "a" "z"]);
       WordB].

Definition SENSITIVE_PATTERNS : list (string * re) :=
  [("credit_card", credit_card_re);
   ("ssn", ssn_re);
   ("password", password_re);
   ("api_key", api_key_re);
   ("email", email_re)].

Definition DANGEROUS_KEYWORDS : list str :=
  [py"delete all"; py"remove all"; py"drop table"; py"truncate";
   py"format drive"].

(** Operation type to (count, window in seconds). *)
Definition RATE_LIMITS : list (string * (Z * Z)) :=
  [("email_send", (10, 3600));
   ("calendar_create", (20, 3600));
   ("api_calls", (100, 60))]%Z.

Fixpoint assoc {A : Type} (k : string) (l : list (string * A)) : option A :=
  match l with
  | [] => None
  | (k', v) :: l' => if String.eqb k k' then Some v else assoc k l'
  end.

(** An entry of [action_history]:
    [{"type": ..., "timestamp": ..., "to": ...}], the last key present
    for e-mail entries only. *)
Record action : Type := Action {
  a_type : string;
  a_timestamp : Z;
  a_to : option str
}.

Record GuardrailsSystem : Type := MkGuardrails {
  triggered_guardrails : list dict;
  action_history : list action
}.

(** [GuardrailsSystem()] *)
Definition init : GuardrailsSystem := MkGuardrails [] [].

Definition log (a : action) (gs : GuardrailsSystem) : GuardrailsSystem :=
  MkGuardrails (triggered_guardrails gs) (action_history gs ++ [a]).

Definition check_sensitive_content (txt : str) : dict :=
  let detected_patterns :=
    flat_map
      (fun entry : string * re =>
         let (pattern_name, pattern) := entry in
         let matches := findall IGNORECASE pattern txt in
         if nonempty matches then [(pattern_name, length matches)] else [])
      SENSITIVE_PATTERNS in
  [("detected", VBool (0 <? length detected_patterns));
   ("patterns", VHits detected_patterns)].

Definition check_dangerous_action (action : string) (args : args_dict)
  : dict :=
  let action_text :=
    lower_str (lit action ++ py" " ++ str_of_args args) in
  match List.find (fun keyword => contains keyword action_text)
             DANGEROUS_KEYWORDS with
  | Some keyword =>
      [("dangerous", VBool true);
       ("reason", text (py"Contains dangerous keyword: '" ++ keyword
                        ++ py"'"));
       ("severity", text (py"high"))]
  | None =>
      if contains (py"delete") (lit action) &&
         existsb (fun k => has_key k args)
                 ["all"; "multiple"; "batch"]
      then
        [("dangerous", VBool true);
         ("reason", text (py"Bulk delete operation detected"));
         ("severity", text (py"medium"))]
      else if existsb (String.eqb action)
                      ["file_delete"; "file_write"] &&
              contains (py"..") (str_of_args args)
      then
        [("dangerous", VBool true);
         ("reason", text (py"Potential directory traversal attack"));
         ("severity", text (py"high"))]
      else
        [("dangerous", VBool false);
         ("reason", VNone);
         ("severity", text (py"none"))]
  end.

Definition MICRO : Z := 1000000.

(** [now] is the clock read by [datetime.now()]. *)
Definition check_rate_limit (gs : GuardrailsSystem) (now : Z)
  (operation_type : string) : dict :=
  match assoc operation_type RATE_LIMITS with
  | None =>
      [("allowed", VBool true);
       ("reason", text (py"No limit defined"))]
  | Some (max_count, window) =>
      let recent_actions :=
        filter (fun a => String.eqb (a_type a) operation_type &&
                         (now - a_timestamp a <? window * MICRO)%Z)
               (action_history gs) in
      if (max_count <=? Z.of_nat (length recent_actions))%Z then
        [("allowed", VBool false);
         ("reason", text (py"Rate limit exceeded: " ++ str_of_Z max_count
                          ++ py" per " ++ str_of_Z window ++ py"s"));
         ("reset_time",
          match recent_actions with
          | a :: _ => VTime (a_timestamp a)
          | [] => VNone
          end)]
      else
        [("allowed", VBool true);
         ("remaining",
          VInt (max_count - Z.of_nat (length recent_actions)))]
  end.

(** [^[a-zA-Z0-9._%+-]+@[a-zA-Z0-9.-]+\.[a-zA-Z]{2,}$] *)
Definition valid_email_re : re :=
  Seq [Bol;
       Plus (Cls [range "a" "z"; range "A" "Z"; range "0" "9";
                  chr "."; chr "_"; chr "%"; chr "+"; chr "-"]);
       one "@";
       Plus (Cls [range "a" "z"; range "A" "Z"; range "0" "9";
                  chr "."; chr "-"]);
       one ".";
       RepMin 2 (Cls [range "a" "z"; range "A" "Z"]);
       Eol].

Definition _is_valid_email (email : str) : bool :=
  py_match no_flags valid_email_re email.

Definition COMMA : ascii := ascii_of_nat 44.
Definition SEMICOLON : ascii := ascii_of_nat 59.

(** [now_rate] is the clock read inside [check_rate_limit], [now_log]
    the one read when the action is logged. *)
Definition check_email_send (gs : GuardrailsSystem) (now_rate now_log : Z)
  (to subject body : str) : dict * GuardrailsSystem :=
  let sensitive_check := check_sensitive_content body in
  let detected := truthy (item "detected" sensitive_check) in
  let warnings :=
    if detected
    then [Some (SensitiveDetected
                  (as_hits (item "patterns" sensitive_check)))]
    else [] in
  let requires_human := detected in
  let rate_check := check_rate_limit gs now_rate "email_send" in
  if negb (truthy (item "allowed" rate_check)) then
    ([("approved", VBool false);
      ("warnings",
       VList (warnings ++
              [Some (Blocked (as_str (item "reason" rate_check)))]));
      ("requires_human", VBool false);
      ("reason", text (py"Rate limit exceeded"))], gs)
  else if negb (_is_valid_email to) then
    ([("approved", VBool false);
      ("warnings", VList (warnings ++ [Some (InvalidEmail to)]));
      ("requires_human", VBool false);
      ("reason", text (py"Invalid recipient"))], gs)
  else
    let mass :=
      if has_char COMMA to || has_char SEMICOLON to then
        let recipients :=
          map strip (split no_flags (Cls [CChar COMMA; CChar SEMICOLON])
                           to) in
        if 5 <? length recipients then Some (length recipients) else None
      else None in
    let warnings :=
      match mass with
      | Some n => warnings ++ [Some (MassEmail n)]
      | None => warnings
      end in
    let requires_human :=
      match mass with Some _ => true | None => requires_human end in
    ([("approved", VBool true);
      ("warnings", VList warnings);
      ("requires_human", VBool requires_human)],
     log (Action "email_send" now_log (Some to)) gs).

Definition check_calendar_operation (gs : GuardrailsSystem)
  (now_rate now_log : Z) (operation : string) (args : args_dict)
  : dict * GuardrailsSystem :=
  let rate_check :=
    if String.eqb operation "create"
    then check_rate_limit gs now_rate "calendar_create"
    else [("allowed", VBool true)] in
  if String.eqb operation "create" &&
     negb (truthy (item "allowed" rate_check))
  then
    ([("approved", VBool false);
      ("warnings",
       VList [Some (Blocked (as_str (item "reason" rate_check)))])],
     gs)
  else
    ([("approved", VBool true);
      ("warnings", VList [])],
     log (Action "calendar_create" now_log None) gs).

Definition has_substring (sub : string) (t : string) : bool :=
  contains (lit sub) (lit t).

(** The module-level [apply_guardrails], acting on the singleton [gs]. *)
Definition apply_guardrails (gs : GuardrailsSystem) (now_rate now_log : Z)
  (action : string) (args : args_dict) : dict * GuardrailsSystem :=
  if String.eqb action "user_request" then
    let text_to_check := get_or_empty "input" args in
    let dangerous := check_dangerous_action action args in
    let critical_patterns :=
      ["credit_card"; "ssn"; "password"; "api_key"] in
    let has_critical :=
      existsb
        (fun pattern_name =>
           match assoc pattern_name SENSITIVE_PATTERNS with
           | Some pattern =>
               match search IGNORECASE pattern text_to_check with
               | Some _ => true
               | None => false
               end
           | None => false
           end)
        critical_patterns in
    let is_dangerous := truthy (item "dangerous" dangerous) in
    ([("approved", VBool (negb is_dangerous && negb has_critical));
      ("reason",
       if is_dangerous || has_critical
       then get_default "reason"
              (text (py"Contains sensitive data like passwords or credit cards"))
              dangerous
       else VNone);
      ("warnings", VList []);
      ("requires_human", VBool false)], gs)
  else
    let text_to_check := str_of_args args in
    let sensitive := check_sensitive_content text_to_check in
    let dangerous := check_dangerous_action action args in
    if String.eqb action "gmail_send_email" then
      check_email_send gs now_rate now_log
        (get_or_empty "to" args)
        (get_or_empty "subject" args)
        (get_or_empty "body" args)
    else if existsb (String.eqb action)
              ["calendar_create_event"; "calendar_delete_event"]
    then
      check_calendar_operation gs now_rate now_log
        (if has_substring "create" action then "create" else "delete")
        args
    else
      let is_dangerous := truthy (item "dangerous" dangerous) in
      let is_sensitive := truthy (item "detected" sensitive) in
      ([("approved", VBool (negb is_dangerous && negb is_sensitive));
        ("warnings",
         VList [ (if is_dangerous
                  then Some (Plain (as_str (item "reason" dangerous)))
                  else None);
                 (if is_sensitive
                  then Some (SensitiveContent
                               (as_hits (item "patterns" sensitive)))
                  else None) ]);
        ("requires_human", VBool (is_dangerous || is_sensitive))],
       gs).

End Guardrails.

(* ================================================================== *)
(** * Python floats *)
(* ================================================================== *)

(** The float operations that the calendar scan performs: the true
    division of two ints, the division of a float by an int and the
    comparison of a float with an int.  A float is a binary64 value;
    results are rounded to 53 significant bits, to nearest with ties to
    even.  The exponent range of the format is not modelled: the
    quotients formed from [timedelta] values, which count at most 10^9
    days, stay far inside it. *)
Module PyFloat.
Local Open Scope Z_scope.

(** The value [mant * 2 ^ expo]. *)
Record float : Type := Float {
  mant : Z;
  expo : Z
}.

(** The fraction [p / q] divided by [2 ^ e], as a fraction. *)
Definition scaled (p q e : Z) : Z * Z :=
  if 0 <=? e then (p, q * 2 ^ e) else (p * 2 ^ (- e), q).

(** The integer part of the binary logarithm of [p / q], for
    [0 < p] and [0 < q]. *)
Definition ilog2 (p q : Z) : Z :=
  let k := Z.log2 p - Z.log2 q in
  let (a, b) := scaled p q k in
  if b <=? a then k else k - 1.

(** [a / b] rounded to the nearest integer, ties to the even one, for
    [0 <= a] and [0 < b]. *)
Definition nearest_even (a b : Z) : Z :=
  let f := a / b in
  let r := a mod b in
  if 2 * r <? b then f
  else if b <? 2 * r then f + 1
  else if Z.even f then f else f + 1.

(** The float nearest to [p / q], for [0 < q]. *)
Definition round64 (p q : Z) : float :=
  if p =? 0 then Float 0 0
  else
    let e := ilog2 (Z.abs p) q - 52 in
    let (a, b) := scaled (Z.abs p) q e in
    Float (Z.sgn p * nearest_even a b) e.

(** [n / d] for ints [n] and [0 < d]. *)
Definition int_truediv (n d : Z) : float := round64 n d.

(** [x / d] for a float [x] and an int [0 < d] that is a float. *)
Definition float_div_int (x : float) (d : Z) : float :=
  if 0 <=? expo x then round64 (mant x * 2 ^ expo x) d
  else round64 (mant x) (d * 2 ^ (- expo x)).

(** [x >= z] for a float [x] and an int [z]: Python compares the two
    values exactly. *)
Definition float_ge_int (x : float) (z : Z) : bool :=
  if 0 <=? expo x then z <=? mant x * 2 ^ expo x
  else z * 2 ^ (- expo x) <=? mant x.

End PyFloat.

(* ================================================================== *)
(** * [backend/tools/calendar_tools.py]: the free-slot scan *)
(* ================================================================== *)

Module Calendar.
Import PyStr PyFloat.
Local Open Scope Z_scope.

(** A [datetime]: wall-clock microseconds, and the UTC offset (also in
    microseconds) when the value is timezone-aware. *)
Record datetime : Type := DateTime {
  wall : Z;
  utcoffset : option Z
}.

Definition naive (w : Z) : datetime := DateTime w None.

Definition HOUR : Z := 3600 * 1000000.
Definition MINUTE : Z := 60 * 1000000.

(** Outcome of an operation that may raise [TypeError] (mixing naive
    and aware values). *)
Inductive result (A : Type) : Type :=
| Ok (a : A)
| TypeError.
Arguments Ok {A} a.
Arguments TypeError {A}.

Definition bind {A B : Type} (m : result A) (f : A -> result B)
  : result B :=
  match m with Ok a => f a | TypeError => TypeError end.

Notation "x <- m ;; k" := (bind m (fun x => k))
  (at level 61, m at next level, right associativity).

(** [a - b], a [timedelta] in microseconds. *)
Definition dt_sub (a b : datetime) : result Z :=
  match utcoffset a, utcoffset b with
  | None, None => Ok (wall a - wall b)
  | Some oa, Some ob => Ok ((wall a - oa) - (wall b - ob))
  | _, _ => TypeError
  end.

(** [max(a, b)]: [b] when [b > a], otherwise [a]. *)
Definition dt_max (a b : datetime) : result datetime :=
  d <- dt_sub b a ;;
  Ok (if 0 <? d then b else a).

Definition two_digits (n : Z) : str :=
  (if n <? 10 then py"0" else []) ++ str_of_Z n.

(** [d.strftime('%H:%M')] *)
Definition strftime_HM (d : datetime) : str :=
  two_digits ((wall d / HOUR) mod 24) ++ py":" ++
  two_digits ((wall d / MINUTE) mod 60).

(** An event of the day, its [start] and [end] already read with
    [datetime.fromisoformat]. *)
Record event : Type := Event {
  ev_start : datetime;
  ev_end : datetime
}.

(** [{'start': ..., 'end': ...}] *)
Record slot : Type := Slot {
  slot_start : str;
  slot_end : str
}.

(** [td.total_seconds()] for a [timedelta] of [td] microseconds: the
    true division of the microseconds by [10**6]. *)
Definition total_seconds (td : Z) : float := int_truediv td 1000000.

(** [(a - b).total_seconds() / 60 >= duration_minutes] *)
Definition gap_fits (a b : datetime) (duration_minutes : Z) : result bool :=
  d <- dt_sub a b ;;
  Ok (float_ge_int (float_div_int (total_seconds d) 60) duration_minutes).

(** The [for event in events] loop: the slots found so far and the
    current time. *)
Fixpoint scan_events (events : list event) (duration_minutes : Z)
  (current_time : datetime) (free_slots : list slot)
  : result (list slot * datetime) :=
  match events with
  | [] => Ok (free_slots, current_time)
  | ev :: events' =>
      let event_start := ev_start ev in
      fits <- gap_fits event_start current_time duration_minutes ;;
      let free_slots :=
        if fits
        then free_slots ++
             [Slot (strftime_HM current_time) (strftime_HM event_start)]
        else free_slots in
      let event_end := ev_end ev in
      current_time <- dt_max current_time event_end ;;
      scan_events events' duration_minutes current_time free_slots
  end.

(** The list [free_slots] at the end of the scan; [start_date] is the
    requested day at midnight. *)
Definition find_free_slots (start_date : Z) (events : list event)
  (duration_minutes : Z) : result (list slot) :=
  let start_time := naive (start_date + 9 * HOUR) in
  let end_time := naive (start_date + 17 * HOUR) in
  st <- scan_events events duration_minutes start_time [] ;;
  let (free_slots, current_time) := st in
  fits <- gap_fits end_time current_time duration_minutes ;;
  Ok (if fits
      then free_slots ++
           [Slot (strftime_HM current_time) (strftime_HM end_time)]
      else free_slots).

Fixpoint render_slots (i : nat) (slots : list slot) : str :=
  match slots with
  | [] => []
  | sl :: slots' =>
      str_of_nat i ++ py". " ++ slot_start sl ++ py" - " ++ slot_end sl
      ++ [Re.NL] ++ render_slots (S i) slots'
  end.

(** The text returned by [calendar_find_free_slots] once the service
    has answered with [events]; [date] is the argument as given. *)
Definition calendar_find_free_slots (date : str) (start_date : Z)
  (events : list event) (duration_minutes : Z) : result str :=
  free_slots <- find_free_slots start_date events duration_minutes ;;
  Ok (match free_slots with
      | [] =>
          py"No free slots of " ++ str_of_Z duration_minutes ++
          py" minutes found on " ++ date ++ py"."
      | _ :: _ =>
          py"Found " ++ str_of_nat (length free_slots) ++
          py" free slots on " ++ date ++ py":" ++ [Re.NL; Re.NL] ++
          render_slots 1 free_slots
      end).

End Calendar.

(* ================================================================== *)
(** * [backend/orchestrator_modern.py]: [AgentRouter.check_loop] *)
(* ================================================================== *)

Module AgentRouter.

(** [l[-1]] *)
Definition last1 (l : list string) : option string := hd_error (rev l).

(** [l[-2]] *)
Definition last2 (l : list string) : option string :=
  nth_error (rev l) 1.

Definition equals (o : option string) (x : string) : bool :=
  match o with Some y => String.eqb y x | None => false end.

(** [l.count(x)] *)
Definition count (x : string) (l : list string) : nat :=
  length (filter (String.eqb x) l).

Definition check_loop (current_agent : string)
  (delegation_history : list string) : bool :=
  match delegation_history with
  | [] => false
  | _ :: _ =>
      if equals (last1 delegation_history) current_agent then true
      else if (2 <=? length delegation_history) &&
              equals (last2 delegation_history) current_agent then true
      else if 2 <=? count current_agent delegation_history then true
      else false
  end.

End AgentRouter.

(* ================================================================== *)
(** * [backend/agents/task_agent.py] *)
(* ================================================================== *)

Module TaskAgent.
Local Open Scope string_scope.
Local Open Scope list_scope.

(** The keys of a task dict that the agent reads. *)
Record task : Type := Task {
  id : string;
  title : string;
  status : string;
  dependencies : list string
}.

(** ** The final ordering of [prioritize_tasks] *)

(** The keys of a [prioritization] dict read by the sort; [None] is a
    missing key. *)
Record prioritization : Type := Prioritization {
  priority : option string;
  urgency_score : option Z
}.

Record prioritized : Type := Prioritized {
  p_task : task;
  p_prioritization : prioritization
}.

Definition priority_order : list (string * Z) :=
  [("urgent", 0); ("high", 1); ("medium", 2); ("low", 3)]%Z.

Definition or_default {A : Type} (o : option A) (d : A) : A :=
  match o with Some a => a | None => d end.

(** [priority_order.get(x["prioritization"].get("priority", "medium"), 2)] *)
Definition bucket (x : prioritized) : Z :=
  or_default
    (Guardrails.assoc (or_default (priority (p_prioritization x)) "medium")
                      priority_order)
    2%Z.

(** [x["prioritization"].get("urgency_score", 5)] *)
Definition urgency (x : prioritized) : Z :=
  or_default (urgency_score (p_prioritization x)) 5%Z.

(** The sort key, a pair compared lexicographically. *)
Definition sort_key (x : prioritized) : Z * Z := (bucket x, (- urgency x)%Z).

Definition key_lt (a b : Z * Z) : bool :=
  ((fst a <? fst b) || ((fst a =? fst b) && (snd a <? snd b)))%Z.

(** [list.sort] is stable: an element goes in front of the first one
    that is not smaller than it. *)
Fixpoint insert (x : prioritized) (l : list prioritized) : list prioritized :=
  match l with
  | [] => [x]
  | y :: l' =>
      if key_lt (sort_key y) (sort_key x) then y :: insert x l'
      else x :: l
  end.

Definition sort (l : list prioritized) : list prioritized :=
  fold_right insert [] l.

(** [analyse] stands for the body of the per-task loop (the model's
    answer, or the default entry when it fails). *)
Definition prioritize_tasks (analyse : task -> prioritized)
  (tasks : list task) : list prioritized :=
  sort (map analyse tasks).

(** ** [identify_blockers] *)

Record blocked_entry : Type := Blocked {
  blocked_task_id : string;
  blocked_task_title : string;
  blocked_by : list string
}.

Record blocking_entry : Type := Blocking {
  blocking_task_id : string;
  blocking_task_title : string;
  blocking_count : nat
}.

Record blocker_analysis : Type := Analysis {
  blocking_tasks : list blocking_entry;
  blocked_tasks : list blocked_entry;
  critical_path : list string
}.

(** [t.get("status") not in ["completed"]] *)
Definition not_completed (t : task) : bool :=
  negb (existsb (String.eqb (status t)) ["completed"]).

Definition incomplete_deps (tasks : list task) (t : task) : list string :=
  filter
    (fun dep =>
       existsb (fun t' => String.eqb (id t') dep && not_completed t') tasks)
    (dependencies t).

Section Blockers.
(** The order in which a [set] built from a list is iterated. *)
Variable set_order : list string -> list string.

Definition identify_blockers (tasks : list task) : blocker_analysis :=
  let blocked :=
    flat_map
      (fun t =>
         match dependencies t with
         | [] => []
         | _ :: _ =>
             match incomplete_deps tasks t with
             | [] => []
             | deps => [Blocked (id t) (title t) deps]
             end
         end)
      tasks in
  let all_deps := set_order (flat_map dependencies tasks) in
  let blocking :=
    flat_map
      (fun dep_id =>
         match find (fun t => String.eqb (id t) dep_id) tasks with
         | Some blocking_task =>
             if not_completed blocking_task then
               [Blocking (id blocking_task) (title blocking_task)
                  (length
                     (filter
                        (fun t => existsb (String.eqb dep_id)
                                          (dependencies t))
                        tasks))]
             else []
         | None => []
         end)
      all_deps in
  Analysis blocking blocked [].
End Blockers.

End TaskAgent.

(* ================================================================== *)
(** * [json.loads] *)
(* ================================================================== *)

(** A model of the decoder of the standard library, used to evaluate
  [extract_json_from_response] on concrete texts.  Integers are exact;
  a number with a fraction or an exponent is kept as written; the
  characters of a string are code points. *)
Module Json.
Import PyStr.

#[warnings="-register-all"]
Inductive json : Type :=
| JNull
| JBool (b : bool)
| JInt (z : Z)
| JFloat (lexeme : str)
| JString (chars : list N)
| JArray (items : list json)
| JObject (members : list (list N * json)).

Inductive outcome (V : Type) : Type :=
| Returned (v : V)
| JSONDecodeError.
Arguments Returned {V} v.
Arguments JSONDecodeError {V}.

Definition is_ws (c : ascii) : bool :=
  let n := code c in (n =? 32) || (n =? 9) || (n =? 10) || (n =? 13).

Fixpoint skip_ws (t : str) : str :=
  match t with
  | c :: t' => if is_ws c then skip_ws t' else t
  | [] => []
  end.

Fixpoint take_digits (t : str) : str * str :=
  match t with
  | c :: t' =>
      if is_digit c then let (d, r) := take_digits t' in (c :: d, r)
      else ([], t)
  | [] => ([], [])
  end.

Definition digits_value (d : str) : Z :=
  fold_left (fun acc c => (acc * 10 + Z.of_nat (code c - 48))%Z) d 0%Z.

Definition is_char (n : nat) (c : ascii) : bool := code c =? n.

(** The integer part, an optional minus sign then [0] or a digit run
    that does not start with [0]: sign, digits, rest. *)
Definition int_part (t : str) : option (bool * str * str) :=
  let (neg, t1) :=
    match t with
    | c :: t' => if is_char 45 c then (true, t') else (false, t)
    | [] => (false, t)
    end in
  match t1 with
  | c :: t2 =>
      if is_char 48 c then Some (neg, [c], t2)
      else if is_digit c then
        let (d, r) := take_digits t1 in Some (neg, d, r)
      else None
  | [] => None
  end.

(** The optional fraction: a dot and at least one digit. *)
Definition frac_part (t : str) : str * str :=
  match t with
  | c :: t' =>
      if is_char 46 c then
        match take_digits t' with
        | ([], _) => ([], t)
        | (d, r) => (c :: d, r)
        end
      else ([], t)
  | [] => ([], t)
  end.

(** The optional exponent: [e] or [E], an optional sign and at least
    one digit. *)
Definition exp_part (t : str) : str * str :=
  match t with
  | c :: t' =>
      if is_char 101 c || is_char 69 c then
        let (sgn, t2) :=
          match t' with
          | x :: t'' =>
              if is_char 45 x || is_char 43 x then ([x], t'') else ([], t')
          | [] => ([], t')
          end in
        match take_digits t2 with
        | ([], _) => ([], t)
        | (d, r) => (c :: sgn ++ d, r)
        end
      else ([], t)
  | [] => ([], t)
  end.

Definition number (t : str) : option (json * str) :=
  match int_part t with
  | None => None
  | Some (neg, d, r) =>
      let (f, r1) := frac_part r in
      let (e, r2) := exp_part r1 in
      match f, e with
      | [], [] =>
          Some (JInt (if neg then - digits_value d else digits_value d)%Z,
                r2)
      | _, _ =>
          Some (JFloat ((if neg then py"-" else []) ++ d ++ f ++ e), r2)
      end
  end.

Definition hex_value (c : ascii) : option N :=
  let n := code c in
  if is_digit c then Some (N.of_nat (n - 48))
  else if between 97 102 c then Some (N.of_nat (n - 87))
  else if between 65 70 c then Some (N.of_nat (n - 55))
  else None.

(** Four hexadecimal digits. *)
Definition hex4 (t : str) : option (N * str) :=
  match t with
  | a :: b :: c :: d :: r =>
      match hex_value a, hex_value b, hex_value c, hex_value d with
      | Some x, Some y, Some z, Some w =>
          Some ((((x * 16 + y) * 16 + z) * 16 + w)%N, r)
      | _, _, _, _ => None
      end
  | _ => None
  end.

Definition escape (c : ascii) : option N :=
  let n := code c in
  if (n =? 34) || (n =? 92) || (n =? 47) then Some (N.of_nat n)
  else if n =? 98 then Some 8%N
  else if n =? 102 then Some 12%N
  else if n =? 110 then Some 10%N
  else if n =? 114 then Some 13%N
  else if n =? 116 then Some 9%N
  else None.

(** The body of a string, after the opening quote. *)
Fixpoint scanstring (fuel : nat) (t : str) (acc : list N)
  : option (list N * str) :=
  match fuel with
  | O => None
  | S fuel' =>
      match t with
      | [] => None
      | c :: t' =>
          if is_char 34 c then Some (rev acc, t')
          else if is_char 92 c then
            match t' with
            | [] => None
            | e :: t'' =>
                if is_char 117 e then
                  match hex4 t'' with
                  | None => None
                  | Some (u, r) =>
                      let plain := scanstring fuel' r (u :: acc) in
                      if ((55296 <=? u) && (u <=? 56319))%N then
                        match r with
                        | b :: v :: r' =>
                            if is_char 92 b && is_char 117 v then
                              match hex4 r' with
                              | Some (u2, r2) =>
                                  if ((56320 <=? u2) && (u2 <=? 57343))%N
                                  then
                                    scanstring fuel' r2
                                      ((65536 + (u - 55296) * 1024
                                        + (u2 - 56320))%N :: acc)
                                  else plain
                              | None => plain
                              end
                            else plain
                        | _ => plain
                        end
                      else plain
                  end
                else
                  match escape e with
                  | Some u => scanstring fuel' t'' (u :: acc)
                  | None => None
                  end
            end
          else if code c <? 32 then None
          else scanstring fuel' t' (N.of_nat (code c) :: acc)
      end
  end.

Fixpoint key_eqb (a b : list N) : bool :=
  match a, b with
  | [], [] => true
  | x :: a', y :: b' => (x =? y)%N && key_eqb a' b'
  | _, _ => false
  end.

(** [d[k] = v] on a dict kept in insertion order. *)
Fixpoint dict_set (k : list N) (v : json) (d : list (list N * json))
  : list (list N * json) :=
  match d with
  | [] => [(k, v)]
  | (k', v') :: d' =>
      if key_eqb k k' then (k, v) :: d' else (k', v') :: dict_set k v d'
  end.

(** [dict(pairs)]: a later pair replaces the value of an earlier one
    with the same key. *)
Definition dict_of (pairs : list (list N * json)) : list (list N * json) :=
  fold_left (fun d kv => dict_set (fst kv) (snd kv) d) pairs [].

Definition after_prefix (p : str) (t : str) : option str :=
  if starts_with p t then Some (skipn (length p) t) else None.

Definition literal (t : str) : option (json * str) :=
  match after_prefix (py"null") t with
  | Some r => Some (JNull, r)
  | None =>
  match after_prefix (py"true") t with
  | Some r => Some (JBool true, r)
  | None =>
  match after_prefix (py"false") t with
  | Some r => Some (JBool false, r)
  | None =>
  match number t with
  | Some res => Some res
  | None =>
  match after_prefix (py"NaN") t with
  | Some r => Some (JFloat (py"NaN"), r)
  | None =>
  match after_prefix (py"Infinity") t with
  | Some r => Some (JFloat (py"Infinity"), r)
  | None =>
  match after_prefix (py"-Infinity") t with
  | Some r => Some (JFloat (py"-Infinity"), r)
  | None => None
  end end end end end end end.

(** [scan_once], with the loops over the items of an array and the
    members of an object. *)
Fixpoint scan_once (fuel : nat) (t : str) {struct fuel}
  : option (json * str) :=
  match fuel with
  | O => None
  | S fuel' =>
      match t with
      | [] => None
      | c :: t' =>
          if is_char 34 c then
            match scanstring (S (length t')) t' [] with
            | Some (chars, r) => Some (JString chars, r)
            | None => None
            end
          else if is_char 123 c then
            match skip_ws t' with
            | x :: r =>
                if is_char 125 x then Some (JObject [], r)
                else members fuel' (x :: r) []
            | [] => None
            end
          else if is_char 91 c then
            match skip_ws t' with
            | x :: r =>
                if is_char 93 x then Some (JArray [], r)
                else items fuel' (x :: r) []
            | [] => None
            end
          else literal t
      end
  end
with items (fuel : nat) (t : str) (acc : list json) {struct fuel}
  : option (json * str) :=
  match fuel with
  | O => None
  | S fuel' =>
      match scan_once fuel' t with
      | None => None
      | Some (v, r) =>
          match skip_ws r with
          | x :: r' =>
              if is_char 44 x then items fuel' (skip_ws r') (v :: acc)
              else if is_char 93 x then Some (JArray (rev (v :: acc)), r')
              else None
          | [] => None
          end
      end
  end
with members (fuel : nat) (t : str) (acc : list (list N * json))
  {struct fuel} : option (json * str) :=
  match fuel with
  | O => None
  | S fuel' =>
      match t with
      | q :: t' =>
          if is_char 34 q then
            match scanstring (S (length t')) t' [] with
            | None => None
            | Some (key, r) =>
                match skip_ws r with
                | colon :: r1 =>
                    if is_char 58 colon then
                      match scan_once fuel' (skip_ws r1) with
                      | None => None
                      | Some (v, r2) =>
                          match skip_ws r2 with
                          | x :: r3 =>
                              if is_char 44 x then
                                members fuel' (skip_ws r3)
                                        ((key, v) :: acc)
                              else if is_char 125 x then
                                Some (JObject (dict_of (rev ((key, v) :: acc))), r3)
                              else None
                          | [] => None
                          end
                      end
                    else None
                | [] => None
                end
            end
          else None
      | [] => None
      end
  end.

(** [json.loads(t)] *)
Definition loads (t : str) : outcome json :=
  match scan_once (2 * length t + 2) (skip_ws t) with
  | Some (v, r) =>
      match skip_ws r with
      | [] => Returned v
      | _ :: _ => JSONDecodeError
      end
  | None => JSONDecodeError
  end.

End Json.

(* ================================================================== *)
(** * [backend/utils.py] *)
(* ================================================================== *)

Module Utils.
Import PyStr Re Json.

Definition BACKTICK : ascii := ascii_of_nat 96.
Definition LBRACE : ascii := ascii_of_nat 123.
Definition RBRACE : ascii := ascii_of_nat 125.

(** [^```(?:json)?\s*\n] *)
Definition open_fence_re : re :=
  Seq [Bol; Str [BACKTICK; BACKTICK; BACKTICK]; Opt (Str (py"json"));
       Star (Cls [CSpace]); Lit NL].

(** [\n```\s*$] *)
Definition close_fence_re : re :=
  Seq [Lit NL; Str [BACKTICK; BACKTICK; BACKTICK]; Star (Cls [CSpace]);
       Eol].

(** [\{.*\}] *)
Definition object_re : re := Seq [Lit LBRACE; Star Dot; Lit RBRACE].

(** The text handed to the first [json.loads]. *)
Definition candidate (response_text : str) : str :=
  let text := strip response_text in
  let text := sub_empty MULTILINE open_fence_re text in
  let text := sub_empty MULTILINE close_fence_re text in
  let text := strip text in
  match search DOTALL object_re text with
  | Some m => m
  | None => text
  end.

Section Extract.
(** The decoder: [json.loads] of the standard library. *)
Variable V : Type.
Variable json_loads : str -> outcome V.

Definition extract_json_from_response (response_text : str)
  : outcome V :=
  let text := candidate response_text in
  match json_loads text with
  | Returned result => Returned result
  | JSONDecodeError =>
      match str_find LBRACE text, str_rfind RBRACE text with
      | Some start, Some end_ =>
          json_loads (slice start (end_ + 1) text)
      | _, _ => JSONDecodeError
      end
  end.
End Extract.

End Utils.


(* ================================================================== *)
(** * [backend/context_manager.py] *)
(* ================================================================== *)

Module Context.
Import PyStr.
Local Open Scope list_scope.

(** The message classes of [langchain_core.messages] that the code
    builds. *)
Inductive message_class : Type := HumanMessage | AIMessage | SystemMessage.

Record BaseMessage : Type := Message {
  m_class : message_class;
  content : str
}.

Definition MAX_CONTEXT_LENGTH : Z := 10000.
Definition MAX_MESSAGES : Z := 20.

(** [len(l)] *)
Definition len {A : Type} (l : list A) : Z := Z.of_nat (length l).

(** [sum(len(str(m.content)) for m in messages)] *)
Definition calculate_context_length (messages : list BaseMessage) : Z :=
  fold_left Z.add (map (fun m => len (content m)) messages) 0%Z.

Definition needs_summarization (messages : list BaseMessage) : bool :=
  if (MAX_MESSAGES <? len messages)%Z then true
  else if (MAX_CONTEXT_LENGTH <? calculate_context_length messages)%Z
       then true
  else false.

(** The two attributes that the methods write. *)
Record ContextManager : Type := MkContext {
  full_history : list BaseMessage;
  summarized_context : str
}.

(** [ContextManager()] *)
Definition fresh : ContextManager := MkContext [] [].

(** [summary] is the content of the model's answer to the summary
    prompt. *)
Definition summarize_context (summary : str) (messages : list BaseMessage)
  (cm : ContextManager) : str * ContextManager :=
  (summary, MkContext (full_history cm ++ messages) summary).

(** [l[-n:]] for [0 < n] *)
Definition last_n {A : Type} (n : nat) (l : list A) : list A :=
  skipn (length l - n) l.

Definition get_context_for_agent (cm : ContextManager)
  (recent_messages : list BaseMessage) : list BaseMessage :=
  match summarized_context cm with
  | [] => recent_messages
  | _ :: _ =>
      let summary_message :=
        Message SystemMessage
          (py"Previous conversation summary:" ++ [Re.NL] ++
           summarized_context cm ++ [Re.NL; Re.NL] ++
           py"Continue from here with recent context.") in
      summary_message :: last_n 5 recent_messages
  end.

End Context.

(* ================================================================== *)
(** * [backend/orchestrator_modern.py]: routing, the orchestrator node
      and the request entry point *)
(* ================================================================== *)

Module Orchestrator.
Import PyStr Py Guardrails AgentRouter Context.
Local Open Scope string_scope.
Local Open Scope list_scope.
Local Open Scope nat_scope.

Definition AGENTS : list (string * string) :=
  [("email", "email_agent");
   ("calendar", "calendar_agent");
   ("task", "task_agent");
   ("context", "context_agent");
   ("meeting", "meeting_agent");
   ("document", "document_agent")].

Definition MAX_DELEGATION_DEPTH : nat := 3.

(** [agent in self.AGENTS] *)
Definition is_agent (agent : string) : bool :=
  existsb (fun entry => String.eqb agent (fst entry)) AGENTS.

(** [route_request]; [response] is the content of the model's answer
    to the routing prompt, which is asked for only below the depth
    limit. *)
Definition route_request (response : str) (user_input : str)
  (delegation_history : list string) : string :=
  if MAX_DELEGATION_DEPTH <=? length delegation_history then "end"
  else
    let agent := string_of_list_ascii (lower_str (strip response)) in
    if negb (is_agent agent) && negb (String.eqb agent "end")
    then "email"
    else agent.

Definition parallel_keywords : list (string * list str) :=
  [("email", [py"email"; py"inbox"; py"message"]);
   ("calendar", [py"calendar"; py"schedule"; py"meeting"; py"event"]);
   ("task", [py"task"; py"todo"; py"priority"])].

Definition can_execute_parallel (user_input : str) : list string :=
  let user_lower := lower_str user_input in
  let matching_agents :=
    flat_map
      (fun entry : string * list str =>
         let (agent, keywords) := entry in
         if existsb (fun kw => contains kw user_lower) keywords
         then [agent] else [])
      parallel_keywords in
  if 2 <=? length matching_agents then matching_agents else [].

(** The global state, with every key that [process_request] sets. *)
Record WorkspaceState : Type := State {
  messages : list BaseMessage;
  user_input : str;
  current_agent : option string;
  delegation_history : list string;
  results : list (string * str);
  requires_approval : bool;
  context_length : Z;
  loop_detected : bool;
  rate_limit_exceeded : bool
}.

(** One key of the dict that a node returns. *)
Inductive assignment : Type :=
| SetMessages (v : list BaseMessage)
| SetContextLength (v : Z)
| SetLoopDetected (v : bool)
| SetCurrentAgent (v : option string)
| SetDelegationHistory (v : list string).

Definition LOOP_NOTICE : str :=
  py"I detected a potential loop in agent delegation. Let me provide a direct answer instead.".

(** [orchestrator_node]; [summary] and [response] are the contents of
    the model's answers to the summary and to the routing prompt. *)
Definition orchestrator_node (summary response : str) (cm : ContextManager)
  (state : WorkspaceState) : list assignment * ContextManager :=
  if needs_summarization (messages state) then
    let (summary, cm) := summarize_context summary (messages state) cm in
    ([SetMessages
        [Message SystemMessage (py"Previous context summary: " ++ summary)];
      SetContextLength (len summary)], cm)
  else
    let next_agent :=
      route_request response (user_input state) (delegation_history state) in
    if check_loop next_agent (delegation_history state) then
      ([SetLoopDetected true;
        SetCurrentAgent None;
        SetMessages (messages state ++ [Message AIMessage LOOP_NOTICE])],
       cm)
    else
      ([SetCurrentAgent (Some next_agent);
        SetDelegationHistory
          (if negb (String.eqb next_agent "end")
           then delegation_history state ++ [next_agent]
           else delegation_history state)],
       cm).

Definition should_continue (state : WorkspaceState) : string :=
  if loop_detected state then "end"
  else if rate_limit_exceeded state then "end"
  else
    let unset :=
      match current_agent state with
      | None => true
      | Some a => String.eqb a ""
      end in
    if unset || equals (current_agent state) "end" then
      if 1 <? length (results state) then "aggregate" else "end"
    else if equals (current_agent state) "email" then "email"
    else if equals (current_agent state) "calendar" then "calendar"
    else "end".

(** [Send(agent, {"user_input": ..., "messages": ...})] *)
Record Send : Type := MkSend {
  send_node : string;
  send_user_input : str;
  send_messages : list BaseMessage
}.

Definition parallel_router (state : WorkspaceState) : list Send :=
  let parallel_agents := can_execute_parallel (user_input state) in
  map (fun agent => MkSend agent (user_input state) (messages state))
      parallel_agents.

(** The state with which [process_request] starts the graph. *)
Definition initial_state (user_input : str) : WorkspaceState :=
  State [] user_input None [] [] false 0%Z false false.

(** What [self.graph.invoke] does: it returns the final state or raises
    an exception with the given text. *)
Inductive invocation : Type :=
| Final (result : WorkspaceState)
| Raised (e : str).

(** A value stored in an entry of [session_history]; a list of agent
    names is what [get_session_stats] looks for. *)
Inductive session_value : Type :=
| SInput (v : str)
| SResult (v : WorkspaceState)
| STimestamp (v : Z)
| SAgents (v : list string).

Definition session_entry : Type := list (string * session_value).

(** The return value of [process_request], one constructor per return
    statement. *)
Inductive reply : Type :=
| RequestBlocked (reason : pyval)
    (* f"(warning sign) Request blocked: {reason}" *)
| LastContent (text : str)
| ProcessedSuccessfully
    (* "Request processed successfully" *)
| ErrorProcessing (e : str)
    (* f"(cross mark) Error processing request: {e}" *).

Record WorkspaceOrchestrator : Type := MkOrchestrator {
  session_history : list session_entry
}.

Section Process.
Variable graph_invoke : WorkspaceState -> invocation.

(** [process_request]; the guardrails instance of the module is passed
    along, [now] is the clock read for the session entry. *)
Definition process_request (gs : GuardrailsSystem) (now_rate now_log : Z)
  (now : Z) (self : WorkspaceOrchestrator) (user_input : str)
  : reply * GuardrailsSystem * WorkspaceOrchestrator :=
  let (guardrail_check, gs) :=
    apply_guardrails gs now_rate now_log "user_request"
                     [("input", user_input)] in
  if negb (truthy (get_default "approved" (VBool true) guardrail_check))
  then
    (RequestBlocked
       (get_default "reason" (text (py"Safety check failed"))
                    guardrail_check),
     gs, self)
  else
    match graph_invoke (initial_state user_input) with
    | Final result =>
        let self :=
          MkOrchestrator
            (session_history self ++
             [[("input", SInput user_input);
               ("result", SResult result);
               ("timestamp", STimestamp now)]]) in
        match rev (messages result) with
        | m :: _ => (LastContent (content m), gs, self)
        | [] => (ProcessedSuccessfully, gs, self)
        end
    | Raised e => (ErrorProcessing e, gs, self)
    end.
End Process.

Fixpoint entry_get (k : string) (r : session_entry) : option session_value :=
  match r with
  | [] => None
  | (k', v) :: r' => if String.eqb k k' then Some v else entry_get k r'
  end.

(** [r.get("delegation_history")] as the list that is added to
    [agents_used]: nothing when the key is missing or the list empty. *)
Definition entry_agents (r : session_entry) : list string :=
  match entry_get "delegation_history" r with
  | Some (SAgents l) => l
  | _ => []
  end.

(** [len(r.get("result", {}).get("messages", []))] *)
Definition entry_messages (r : session_entry) : Z :=
  match entry_get "result" r with
  | Some (SResult st) => len (messages st)
  | _ => 0%Z
  end.

Record session_stats : Type := Stats {
  total_requests : Z;
  agents_used : Z;
  total_messages : Z;
  delegation_count : Z
}.

Definition get_session_stats (self : WorkspaceOrchestrator) : session_stats :=
  let agents_used := flat_map entry_agents (session_history self) in
  Stats (len (session_history self))
        (len (nodup string_dec agents_used))
        (fold_left Z.add (map entry_messages (session_history self)) 0%Z)
        (len agents_used).

End Orchestrator.

(* ================================================================== *)
(** * [backend/agents/task_agent.py]: the calls to the model *)
(* ================================================================== *)

Module TaskAgentCalls.
Import PyStr TaskAgent.
Local Open Scope string_scope.
Local Open Scope list_scope.

(** The names bound in the namespace of [task_agent.py]: its imports,
    its class and its singleton. *)
Definition module_names : list string :=
  ["ChatOpenAI"; "ChatPromptTemplate"; "Dict"; "Any"; "List"; "datetime";
   "memory_manager"; "guardrails"; "settings"; "TavilySearchTool";
   "DataAnalysisTool"; "NotificationTool"; "TaskPrioritization";
   "TaskSuggestion"; "SubtaskBreakdown"; "json"; "TaskAgent"; "task_agent"].

Inductive exception : Type :=
| NameError (name : string)
| OtherException.

Inductive attempt (A : Type) : Type :=
| Done (a : A)
| Raise (e : exception).
Arguments Done {A} a.
Arguments Raise {A} e.

(** Evaluating a global name that is called with [k] as what follows. *)
Definition call_global {A : Type} (name : string) (k : attempt A)
  : attempt A :=
  if existsb (String.eqb name) module_names then k
  else Raise (NameError name).

Definition default_prioritization : prioritization :=
  Prioritization (Some "medium") (Some 5%Z).

Section Calls.
(** [await self.llm.ainvoke(...)]: the content of the response, or an
    exception. *)
Variable A : Type.
Variable ainvoke : A -> attempt str.

(** The statements of the [try] block of [prioritize_tasks] from the
    call of [extract_json_from_response] on, given the task and the
    content of the response. *)
Variable prioritization_of : task -> str -> attempt prioritized.

(** The body of the loop of [prioritize_tasks]. *)
Definition analyse (prompt : task -> A) (t : task) : prioritized :=
  let attempted :=
    match ainvoke (prompt t) with
    | Done content =>
        call_global "extract_json_from_response"
                    (prioritization_of t content)
    | Raise e => Raise e
    end in
  match attempted with
  | Done p => p
  | Raise _ => Prioritized t default_prioritization
  end.

(** The dicts that [suggest_next_task] returns. *)
Inductive suggestion (V : Type) : Type :=
| NoPendingTasks
| Parsed (result : V)
| HighestPriority (suggested_task_id : string)
| ErrorSuggesting.

(** [t.get("status") not in ["completed", "cancelled"]] *)
Definition incomplete (t : task) : bool :=
  negb (existsb (String.eqb (status t)) ["completed"; "cancelled"]).

Variable V : Type.
(** [extract_json_from_response(response.content)] *)
Variable extract : str -> attempt V.

Definition suggest_next_task (prompt : list task -> A) (tasks : list task)
  : suggestion V :=
  let incomplete_tasks := filter incomplete tasks in
  match incomplete_tasks with
  | [] => NoPendingTasks V
  | _ :: _ =>
      let attempted :=
        match ainvoke (prompt (firstn 10 incomplete_tasks)) with
        | Done content =>
            call_global "extract_json_from_response" (extract content)
        | Raise e => Raise e
        end in
      match attempted with
      | Done result => Parsed result
      | Raise _ =>
          match incomplete_tasks with
          | t0 :: _ => HighestPriority V (id t0)
          | [] => ErrorSuggesting V
          end
      end
  end.

(** [break_down_task]; [as_list] is the test
    [subtasks if isinstance(subtasks, list) else []]. *)
Definition break_down_task (as_list : V -> list V) (prompt : task -> A)
  (t : task) : list V :=
  let attempted :=
    match ainvoke (prompt t) with
    | Done content =>
        call_global "extract_json_from_response" (extract content)
    | Raise e => Raise e
    end in
  match attempted with
  | Done subtasks => as_list subtasks
  | Raise _ => []
  end.

End Calls.

End TaskAgentCalls.
(* ================================================================== *)
(** * Vocabulary of the statements *)
(* ================================================================== *)

Module SortVocabulary.
Import TaskAgent.
Local Open Scope string_scope.
Local Open Scope list_scope.
Local Open Scope Z_scope.

(** [x] may stand in front of [y]: a smaller bucket, or the same bucket
    and an urgency that is not lower. *)
Definition sorted_before (x y : prioritized) : Prop :=
  bucket x < bucket y \/ (bucket x = bucket y /\ urgency y <= urgency x).

Definition entry (t : task) (p : string) (u : Z) : prioritized :=
  Prioritized t (Prioritization (Some p) (Some u)).

(** The place of a result among the buckets urgent, high, medium and
    low, read from the priority that its prioritization holds; a
    missing priority and a priority outside the four count as
    medium. *)
Definition rank (x : prioritized) : Z :=
  match priority (p_prioritization x) with
  | Some p =>
      if String.eqb p "urgent" then 0
      else if String.eqb p "high" then 1
      else if String.eqb p "medium" then 2
      else if String.eqb p "low" then 3
      else 2
  | None => 2
  end.

(** The urgency score that the prioritization of a result holds; a
    missing score counts as 5. *)
Definition score (x : prioritized) : Z :=
  match urgency_score (p_prioritization x) with
  | Some u => u
  | None => 5
  end.

(** [x] may stand in front of [y]: an earlier bucket, or the same
    bucket and a score that is not lower. *)
Definition ranked_before (x y : prioritized) : Prop :=
  rank x < rank y \/ (rank x = rank y /\ score y <= score x).

Definition sample_task (name : string) : task := Task name name "todo" [].

(** The three results of the example, by task id. *)
Definition sample_analyse (t : task) : prioritized :=
  if String.eqb (id t) "t1" then entry t "medium" 5
  else if String.eqb (id t) "t2" then entry t "urgent" 3
  else entry t "high" 9.

(** Six results by task id: two urgent ones, two high ones, a medium
    one and one without priority and score. *)
Definition mixed_analyse (t : task) : prioritized :=
  if String.eqb (id t) "t1" then entry t "high" 2
  else if String.eqb (id t) "t2" then entry t "medium" 5
  else if String.eqb (id t) "t3" then entry t "urgent" 3
  else if String.eqb (id t) "t4" then entry t "high" 9
  else if String.eqb (id t) "t5" then entry t "urgent" 7
  else Prioritized t (Prioritization None None).

End SortVocabulary.

Module BlockerVocabulary.
Import TaskAgent.
Local Open Scope string_scope.
Local Open Scope list_scope.

(** An iteration order of sets: each member once, in some order. *)
Definition set_iteration (set_order : list string -> list string) : Prop :=
  forall l, Permutation (nodup string_dec l) (set_order l).

(** Tasks A, B (depends on A) and C (depends on B); [status_A] is the
    status of A, B and C are [todo]. *)
Definition chain_ABC (status_A : string) : list task :=
  [Task "A" "Task A" status_A [];
   Task "B" "Task B" "todo" ["A"];
   Task "C" "Task C" "todo" ["B"]].

End BlockerVocabulary.

Module CalendarVocabulary.
Import PyStr Calendar.
Local Open Scope Z_scope.

Definition DAY : Z := 24 * HOUR.

(** The clock time [h]:00 of day number [d]. *)
Definition at_hour (d h : Z) : datetime := naive (d * DAY + h * HOUR).

(** A day whose only event runs from 10:00 to 11:00. *)
Definition one_meeting (d : Z) : list event :=
  [Event (at_hour d 10) (at_hour d 11)].

(** The same event with times that carry a UTC offset. *)
Definition one_meeting_utc (d : Z) : list event :=
  [Event (DateTime (d * DAY + 10 * HOUR) (Some 0))
         (DateTime (d * DAY + 11 * HOUR) (Some 0))].

End CalendarVocabulary.

(** What it means for a pattern to match, independently of the order in
  which the matcher tries the alternatives. *)
Module ReSemantics.
Import PyStr Re.

(** A match relates the position where it starts (the character before
    it and the text from there on) to the position where it ends. *)
Definition rel : Type := option ascii -> str -> option ascii -> str -> Prop.

Definition one (ok : ascii -> bool) : rel :=
  fun p t p' t' => exists x, t = x :: t' /\ p' = Some x /\ ok x = true.

Definition here (cond : option ascii -> str -> bool) : rel :=
  fun p t p' t' => p' = p /\ t' = t /\ cond p t = true.

Definition then_ (R1 R2 : rel) : rel :=
  fun p t p' t' => exists p1 t1, R1 p t p1 t1 /\ R2 p1 t1 p' t'.

Inductive iter (R : rel) : rel :=
| iter_nil p t : iter R p t p t
| iter_cons p t p1 t1 p2 t2 :
    R p t p1 t1 -> length t1 < length t -> iter R p1 t1 p2 t2 ->
    iter R p t p2 t2.

Fixpoint reps (R : rel) (n : nat) : rel :=
  match n with
  | O => here (fun _ _ => true)
  | S n' => then_ R (reps R n')
  end.

(** Whatever a step hands to its continuation is a match. *)
Definition sound (step : matcher) (R : rel) : Prop :=
  forall p t k x,
    step p t k = Some x -> exists p' t', R p t p' t' /\ k p' t' = Some x.


(** A match reads a prefix [c] of the text, all of whose characters
    satisfy [ok]. *)
Definition consumes (ok : ascii -> bool) (R : rel) : Prop :=
  forall p t p' t',
    R p t p' t' ->
    exists c, t = c ++ t' /\ p' = last_of p c /\
              Forall (fun x => ok x = true) c.

Section Semantics.
Variable fl : flags.

Fixpoint matches (r : re) : rel :=
  match r with
  | Eps => here (fun _ _ => true)
  | Lit c => one (lit_matches fl c)
  | Cls items => one (cls_matches fl items)
  | Dot => one (dot_matches fl)
  | Cat r1 r2 => then_ (matches r1) (matches r2)
  | Opt r1 => fun p t p' t' =>
                matches r1 p t p' t' \/ here (fun _ _ => true) p t p' t'
  | Star r1 => iter (matches r1)
  | Plus r1 => then_ (matches r1) (iter (matches r1))
  | Rep n r1 => reps (matches r1) n
  | RepMin n r1 => then_ (reps (matches r1) n) (iter (matches r1))
  | WordB => here at_word_boundary
  | Bol => here (fun p _ => at_bol fl p)
  | Eol => here (fun _ t => at_eol fl t)
  end.

(** Some character-consuming part of [r] accepts [x]. *)
Fixpoint accepts (r : re) (x : ascii) : bool :=
  match r with
  | Lit c => lit_matches fl c x
  | Cls items => cls_matches fl items x
  | Dot => dot_matches fl x
  | Cat r1 r2 => accepts r1 x || accepts r2 x
  | Opt r1 | Star r1 | Plus r1 | Rep _ r1 | RepMin _ r1 => accepts r1 x
  | Eps | WordB | Bol | Eol => false
  end.
End Semantics.

End ReSemantics.

Module GuardrailsVocabulary.
Import PyStr Re Py Guardrails.
Local Open Scope string_scope.
Local Open Scope list_scope.

(** The last part of a concatenation. *)
Fixpoint last_part (r : re) : re :=
  match r with
  | Cat _ r2 => last_part r2
  | _ => r
  end.

(** The history entries that [check_rate_limit] counts for e-mail sends
    at time [now]. *)
Definition recent_sends (gs : GuardrailsSystem) (now : Z) : list action :=
  filter (fun a => String.eqb (a_type a) "email_send" &&
                   (now - a_timestamp a <? 3600 * MICRO)%Z)
         (action_history gs).

(** The history entries that [check_rate_limit] counts for calendar
    creations at time [now]. *)
Definition recent_creates (gs : GuardrailsSystem) (now : Z) : list action :=
  filter (fun a => String.eqb (a_type a) "calendar_create" &&
                   (now - a_timestamp a <? 3600 * MICRO)%Z)
         (action_history gs).

(** The e-mail budget is used up at time [now]. *)
Definition email_budget_spent (gs : GuardrailsSystem) (now : Z) : bool :=
  (10 <=? Z.of_nat (length (recent_sends gs now)))%Z.

(** The calendar budget is used up at time [now]. *)
Definition calendar_budget_spent (gs : GuardrailsSystem) (now : Z) : bool :=
  (20 <=? Z.of_nat (length (recent_creates gs now)))%Z.

(** An instance whose history holds twenty calendar creations logged at
    time 0. *)
Definition twenty_creates : GuardrailsSystem :=
  MkGuardrails [] (repeat (Action "calendar_create" 0 None) 20).

(** Six addresses in one recipient string. *)
Definition six_recipients : str :=
  py"a@x.com,b@x.com,c@x.com,d@x.com,e@x.com,f@x.com".

(** One call of [check_email_send] with its two clock readings. *)
Record email_call : Type := Call {
  at_check : Z;
  at_log : Z;
  call_to : str;
  call_subject : str;
  call_body : str
}.

Definition run_call (gs : GuardrailsSystem) (c : email_call)
  : dict * GuardrailsSystem :=
  check_email_send gs (at_check c) (at_log c)
                   (call_to c) (call_subject c) (call_body c).

(** Calls made one after the other on the same instance. *)
Fixpoint run_calls (gs : GuardrailsSystem) (calls : list email_call)
  : list dict * GuardrailsSystem :=
  match calls with
  | [] => ([], gs)
  | c :: calls' =>
      let (r, gs1) := run_call gs c in
      let (rs, gs2) := run_calls gs1 calls' in
      (r :: rs, gs2)
  end.

Definition detected (body : str) : bool :=
  truthy (item "detected" (check_sensitive_content body)).

Definition hits_of (body : str) : list pattern_hit :=
  as_hits (item "patterns" (check_sensitive_content body)).

(** The warnings that the sensitive-content scan of the body adds. *)
Definition sensitive_warnings (body : str) : list (option message) :=
  if detected body then [Some (SensitiveDetected (hits_of body))] else [].

Definition no_sensitive_content (body : str) : Prop :=
  get "detected" (check_sensitive_content body) = Some (VBool false).

(** A valid recipient and a body without sensitive patterns. *)
Definition clean_call (c : email_call) : Prop :=
  _is_valid_email (call_to c) = true /\ no_sensitive_content (call_body c).

Definition entry_of (c : email_call) : action :=
  Action "email_send" (at_log c) (Some (call_to c)).

Definition approved (r : dict) : Prop := get "approved" r = Some (VBool true).

Definition rate_limit_message : str :=
  py"Rate limit exceeded: 10 per 3600s".

(** ** Credit-card-shaped numbers *)







(** The result of an approved send without warnings. *)
Definition approved_plain : dict :=
  [("approved", VBool true);
   ("warnings", VList []);
   ("requires_human", VBool false)].

(** A clean call whose two clock readings are both [t]. *)
Definition plain_call (t : Z) : email_call :=
  Call t t (py"a@b.co") (py"s") (py"hi").

(** Ten clean calls, one per microsecond from time 0 on. *)
Definition ten_calls : list email_call :=
  map (fun i => plain_call (Z.of_nat i)) (seq 0 10).


(** A sample text with a card number in it. *)
Definition card_text : str := py"card 1234 5678-1234 5678 ok".

End GuardrailsVocabulary.

Module UtilsVocabulary.
Import PyStr Re Json Utils.

(** [s] is [t] with some characters left out. *)
Inductive subseq : str -> str -> Prop :=
| subseq_nil : subseq [] []
| subseq_skip x s t : subseq s t -> subseq s (x :: t)
| subseq_keep x s t : subseq s t -> subseq (x :: s) (x :: t).

(** The text of a JSON object: it opens with a left brace, closes with a
    right brace ([braced]), and no line of it begins with a backtick (in
    valid JSON a backtick occurs only inside a string, which holds no raw
    newline). *)
Definition braced (J : str) : Prop :=
  exists mid, J = LBRACE :: mid ++ [RBRACE].

Definition object_text (J : str) : Prop :=
  braced J /\ contains [NL; BACKTICK] J = false.

(** [J] with no left brace before it and no right brace after it. *)
Definition around (J : str) (t : str) : Prop :=
  exists pre post,
    t = pre ++ J ++ post /\
    has_char LBRACE pre = false /\ has_char RBRACE post = false.

(** No left brace is followed, anywhere later, by a right brace. *)
Fixpoint pair_free (t : str) : bool :=
  match t with
  | [] => true
  | c :: t' =>
      if ascii_eqb LBRACE c then negb (has_char RBRACE t')
      else pair_free t'
  end.

(** The text on which [extract_json_from_response] looks for an object. *)
Definition cleaned (response_text : str) : str :=
  strip (sub_empty MULTILINE close_fence_re
           (sub_empty MULTILINE open_fence_re (strip response_text))).

(** The continuation of [.*] inside the object pattern: a right brace,
    then the end of the match. *)
Definition closing_brace : cont :=
  fun prev t => run DOTALL (Lit RBRACE) prev t (fun _ t' => Some t').

(** The greedy [.*] of the object pattern with a given fuel. *)
Definition dots : nat -> matcher := star_loop (run DOTALL Dot).

(** The fences of a code block, the opening one with or without the
    language tag. *)
Definition fence_open_json : str := [BACKTICK; BACKTICK; BACKTICK] ++ py"json" ++ [NL].
Definition fence_open_plain : str := [BACKTICK; BACKTICK; BACKTICK; NL].
Definition fence_close : str := [NL; BACKTICK; BACKTICK; BACKTICK].

(** No brace at all. *)
Definition brace_free (t : str) : Prop :=
  has_char LBRACE t = false /\ has_char RBRACE t = false.

End UtilsVocabulary.

(** Shapes of the texts that the decoder reads. *)
Module JsonVocabulary.
Import PyStr Re Json Utils.

(** No backtick. *)
Definition tick_free (c : str) : Prop := Forall (fun x => code x <> 96) c.

(** No newline. *)
Definition line_free (c : str) : Prop := Forall (fun x => code x <> 10) c.

(** The text does not start with a backtick and no newline in it is
    followed by a backtick. *)
Definition safe (c : str) : Prop :=
  starts_with [BACKTICK] c = false /\ contains [NL; BACKTICK] c = false.

(** [t] is [c] followed by [r], and [c] has the property [P]. *)
Definition reads (P : str -> Prop) (t r : str) : Prop :=
  exists c, t = c ++ r /\ P c.

(** What the theorems ask of [json.loads]: it rejects the empty text, and
    in a text that it accepts no line begins with a backtick. *)
Definition decoder (V : Type) (json_loads : str -> outcome V) : Prop :=
  json_loads [] = JSONDecodeError /\
  forall J v, json_loads J = Returned v -> contains [NL; BACKTICK] J = false.

End JsonVocabulary.

(** Runs of guardrail checks on one instance. *)
Module GuardrailRuns.
Import PyStr Re Py Guardrails GuardrailsVocabulary.
Local Open Scope string_scope.
Local Open Scope list_scope.

(** One call of [apply_guardrails] with the clock readings it may make. *)
Record guard_call : Type := GuardCall {
  g_now_rate : Z;
  g_now_log : Z;
  g_action : string;
  g_args : args_dict
}.

Definition run_guard (gs : GuardrailsSystem) (c : guard_call)
  : dict * GuardrailsSystem :=
  apply_guardrails gs (g_now_rate c) (g_now_log c) (g_action c) (g_args c).

Fixpoint run_guards (gs : GuardrailsSystem) (calls : list guard_call)
  : list dict * GuardrailsSystem :=
  match calls with
  | [] => ([], gs)
  | c :: calls' =>
      let (r, gs1) := run_guard gs c in
      let (rs, gs2) := run_guards gs1 calls' in
      (r :: rs, gs2)
  end.

(** The actions whose check writes to the history. *)
Definition logging_action (action : string) : bool :=
  existsb (String.eqb action)
          ["gmail_send_email"; "calendar_create_event";
           "calendar_delete_event"].

(** An entry as the two checks write it: an e-mail entry with a valid
    recipient, or a calendar entry without recipient. *)
Definition well_formed_entry (a : action) : Prop :=
  (a_type a = "email_send" /\
   exists to, a_to a = Some to /\ _is_valid_email to = true) \/
  (a_type a = "calendar_create" /\ a_to a = None).

(** The entry that an approved check of [action] writes at [now_log]. *)
Definition entry_for (name : string) (args : args_dict) (now_log : Z)
  : action :=
  if String.eqb name "gmail_send_email"
  then Action "email_send" now_log (Some (get_or_empty "to" args))
  else Action "calendar_create" now_log None.

(** A call that writes to the history: a logging action whose check
    approved. *)
Definition counted (cr : guard_call * dict) : bool :=
  logging_action (g_action (fst cr)) && truthy (item "approved" (snd cr)).

(** One call of [check_calendar_operation]. *)
Record calendar_call : Type := CalendarCall {
  k_now_rate : Z;
  k_now_log : Z;
  k_operation : string;
  k_args : args_dict
}.

Definition run_calendar_call (gs : GuardrailsSystem) (c : calendar_call)
  : dict * GuardrailsSystem :=
  check_calendar_operation gs (k_now_rate c) (k_now_log c)
                           (k_operation c) (k_args c).

Fixpoint run_calendar_calls (gs : GuardrailsSystem)
  (calls : list calendar_call) : list dict * GuardrailsSystem :=
  match calls with
  | [] => ([], gs)
  | c :: calls' =>
      let (r, gs1) := run_calendar_call gs c in
      let (rs, gs2) := run_calendar_calls gs1 calls' in
      (r :: rs, gs2)
  end.

Definition calendar_entry_of (c : calendar_call) : action :=
  Action "calendar_create" (k_now_log c) None.

(** The instance with only the history entries of one type. *)
Definition only_type (op : string) (gs : GuardrailsSystem)
  : GuardrailsSystem :=
  MkGuardrails (triggered_guardrails gs)
               (filter (fun a => String.eqb (a_type a) op)
                       (action_history gs)).

(** Twenty deletions, one per microsecond from time 0 on. *)
Definition twenty_deletes : list calendar_call :=
  map (fun i => CalendarCall (Z.of_nat i) (Z.of_nat i) "delete" [])
      (seq 0 20).

End GuardrailRuns.


Module ScreeningVocabulary.
Import PyStr Re Py Guardrails GuardrailsVocabulary.
Local Open Scope string_scope.
Local Open Scope list_scope.

(** [check_dangerous_action] answers that the action is dangerous. *)
Definition names_keyword (action : string) (args : args_dict) : bool :=
  truthy (item "dangerous" (check_dangerous_action action args)).

(** The reason given for a dangerous keyword. *)
Definition keyword_reason (keyword : str) : pyval :=
  text (py"Contains dangerous keyword: '" ++ keyword ++ py"'").

(** The scan of the text reports a pattern other than an e-mail
    address. *)
Definition critical_hit (txt : str) : Prop :=
  exists name n, In (name, n) (hits_of txt) /\ name <> "email".

(** The test for critical data that the [user_request] path makes. *)
Definition has_critical (text_to_check : str) : bool :=
  existsb
    (fun pattern_name =>
       match assoc pattern_name SENSITIVE_PATTERNS with
       | Some pattern =>
           match search IGNORECASE pattern text_to_check with
           | Some _ => true
           | None => false
           end
       | None => false
       end)
    ["credit_card"; "ssn"; "password"; "api_key"].

(** A small letter or a blank: the characters of the dangerous
    keywords. *)
Definition plain_char (c : ascii) : bool :=
  is_lower_ascii c || Nat.eqb (code c) 32.

(** The 256 characters. *)
Definition all_chars : list ascii := map ascii_of_nat (seq 0 256).

(** A character that lowers to a keyword character is printed as it is
    by [repr], within either quote. *)
Definition printed_as_is (c : ascii) : bool :=
  implb (plain_char (lower c))
        (str_eqb (repr_char QUOTE c) [c] && str_eqb (repr_char DQUOTE c) [c]).

(** The names of the sensitive patterns, in the order of the table. *)
Definition pattern_names : list string := map fst SENSITIVE_PATTERNS.

(** The pattern is reported for the text. *)
Definition reported (txt : str) (name : string) : bool :=
  existsb (fun h : pattern_hit => String.eqb name (fst h)) (hits_of txt).

(** The number of matches of the pattern called [name] in the text. *)
Definition matches_of (txt : str) (name : string) : nat :=
  match assoc name SENSITIVE_PATTERNS with
  | Some pattern => length (findall IGNORECASE pattern txt)
  | None => 0
  end.

(** A request in capital letters. *)
Definition shouted_request : args_dict :=
  [("note", py"please"); ("input", py"Now DELETE ALL my mail")].

End ScreeningVocabulary.

Module CalendarGaps.
Import PyStr Calendar.
Local Open Scope Z_scope.

(** The time carries a UTC offset. *)
Definition aware (t : datetime) : bool :=
  match utcoffset t with Some _ => true | None => false end.

(** An event one of whose times carries a UTC offset, as the timed
    events of the calendar service do. *)
Definition timed (ev : event) : bool :=
  aware (ev_start ev) || aware (ev_end ev).








(** A gap of some 6,976 years, one microsecond short of the minutes
    that are asked for. *)
Definition long_gap : Z := 220141324799999999.
Definition long_duration : Z := 3669022080.


End CalendarGaps.

Module TaskVocabulary.
Import PyStr TaskAgent TaskAgentCalls.
Local Open Scope string_scope.
Local Open Scope list_scope.

(** The result has the sort key [k]. *)
Definition same_key (k : Z * Z) (x : prioritized) : bool :=
  (fst (sort_key x) =? fst k)%Z && (snd (sort_key x) =? snd k)%Z.

(** The entry that [prioritize_tasks] adds when the analysis of a task
    fails. *)
Definition default_entry (t : task) : prioritized :=
  Prioritized t default_prioritization.

(** The number of entries of [blocked_tasks] that name [d] in
    [blocked_by]. *)
Definition count_blocked (d : string) (r : blocker_analysis) : nat :=
  length (filter (fun e => existsb (String.eqb d) (blocked_by e))
                 (blocked_tasks r)).

(** Sets iterated in the order of first occurrence. *)
Definition first_seen : list string -> list string := nodup string_dec.

(** Four tasks: one finished, one open and depending on it, two more
    depending on the open one. *)
Definition four_tasks : list task :=
  [Task "spec" "Write spec" "completed" [];
   Task "code" "Write code" "in_progress" ["spec"];
   Task "test" "Write tests" "todo" ["code"; "spec"];
   Task "ship" "Release" "todo" ["code"; "docs"]].

(** A model whose every answer is the same JSON text. *)
Definition constant_model (A : Type) (_ : A) : attempt str :=
  Done (py"{}").

End TaskVocabulary.

Module GraphVocabulary.
Import PyStr Py Guardrails AgentRouter Context Orchestrator.
Local Open Scope string_scope.
Local Open Scope list_scope.

(** The graph writes a key that a node returns over the value that the
    state holds for it; the keys of the state have no reducer. *)
Definition assign (st : WorkspaceState) (a : assignment) : WorkspaceState :=
  match a with
  | SetMessages v =>
      State v (user_input st) (current_agent st) (delegation_history st)
            (results st) (requires_approval st) (context_length st)
            (loop_detected st) (rate_limit_exceeded st)
  | SetContextLength v =>
      State (messages st) (user_input st) (current_agent st)
            (delegation_history st) (results st) (requires_approval st) v
            (loop_detected st) (rate_limit_exceeded st)
  | SetLoopDetected v =>
      State (messages st) (user_input st) (current_agent st)
            (delegation_history st) (results st) (requires_approval st)
            (context_length st) v (rate_limit_exceeded st)
  | SetCurrentAgent v =>
      State (messages st) (user_input st) v (delegation_history st)
            (results st) (requires_approval st) (context_length st)
            (loop_detected st) (rate_limit_exceeded st)
  | SetDelegationHistory v =>
      State (messages st) (user_input st) (current_agent st) v
            (results st) (requires_approval st) (context_length st)
            (loop_detected st) (rate_limit_exceeded st)
  end.

Definition merge (st : WorkspaceState) (update : list assignment)
  : WorkspaceState :=
  fold_left assign update st.

(** The two answers of the model that one visit of the orchestrator
    node may ask for. *)
Record answers : Type := Answers {
  summary_answer : str;
  routing_answer : str
}.

(** One visit of the orchestrator node, its update written back. *)
Definition visit (s : WorkspaceState * ContextManager) (a : answers)
  : WorkspaceState * ContextManager :=
  let (update, cm) :=
    orchestrator_node (summary_answer a) (routing_answer a) (snd s) (fst s)
  in (merge (fst s) update, cm).

(** Visits one after the other. *)
Definition visits (s : WorkspaceState * ContextManager) (l : list answers)
  : WorkspaceState * ContextManager :=
  fold_left visit l s.

(** The node to which the graph goes after the first visit, by the name
    that the router returned. *)
Definition next_node (agent : string) : string :=
  if String.eqb agent "email" then "email"
  else if String.eqb agent "calendar" then "calendar"
  else "end".

(** The delegation history after the visits [l], from the state with
    which [process_request] starts. *)
Definition history_after (user_input : str) (cm : ContextManager)
  (l : list answers) : list string :=
  delegation_history (fst (visits (initial_state user_input, cm) l)).

(** The request names one of the keywords. *)
Definition mentions (keywords : list str) (user_input : str) : bool :=
  existsb (fun kw => contains kw (lower_str user_input)) keywords.

(** The answers of [can_execute_parallel] that are not empty. *)
Definition parallel_sets : list (list string) :=
  [["email"; "calendar"]; ["email"; "task"]; ["calendar"; "task"];
   ["email"; "calendar"; "task"]].

(** One request to [process_request], with the clock readings of the
    call. *)
Record request : Type := Request {
  r_now_rate : Z;
  r_now_log : Z;
  r_now : Z;
  r_input : str
}.

Section Serving.
Variable graph_invoke : WorkspaceState -> invocation.

Definition serve (s : GuardrailsSystem * WorkspaceOrchestrator)
  (r : request) : reply * (GuardrailsSystem * WorkspaceOrchestrator) :=
  match process_request graph_invoke (fst s) (r_now_rate r) (r_now_log r)
                        (r_now r) (snd s) (r_input r) with
  | (answer, gs, self) => (answer, (gs, self))
  end.

(** Requests served one after the other, from a fresh guardrails
    instance and a fresh orchestrator. *)
Fixpoint serve_all (s : GuardrailsSystem * WorkspaceOrchestrator)
  (l : list request) : list reply * (GuardrailsSystem * WorkspaceOrchestrator) :=
  match l with
  | [] => ([], s)
  | r :: l' =>
      let (answer, s1) := serve s r in
      let (answers, s2) := serve_all s1 l' in
      (answer :: answers, s2)
  end.
End Serving.

(** A reply that is not a refusal. *)
Definition served (a : reply) : bool :=
  match a with
  | LastContent _ | ProcessedSuccessfully => true
  | _ => false
  end.

(** Twenty-one empty messages. *)
Definition many_messages : list BaseMessage :=
  repeat (Message HumanMessage []) 21.

End GraphVocabulary.
(* ================================================================== *)
(** * The matcher against the meaning of patterns *)
(* ================================================================== *)

Section MatcherFacts.
Import PyStr Re ReSemantics.
Variable fl : flags.

Lemma one_char_sound ok : sound (one_char ok) (one ok).
Proof.
  intros p [|c t] k x H; simpl in H; [discriminate|].
  destruct (ok c) eqn:E; [|discriminate].
  exists (Some c), t. split; [|exact H]. exists c. auto.
Qed.


Lemma star_loop_sound step R :
  sound step R -> forall fuel, sound (star_loop step fuel) (iter R).
Proof.
  intros Hs fuel. induction fuel as [|fuel IH]; intros p t k x H; simpl in H.
  - exists p, t. split; [constructor|exact H].
  - unfold or_else in H.
    destruct (step p t _) as [y|] eqn:E.
    + injection H as ->. apply Hs in E.
      destruct E as (p1 & t1 & HR & Hk).
      destruct (length t1 <? length t) eqn:L; [|discriminate].
      apply IH in Hk. destruct Hk as (p2 & t2 & Hit & Hk).
      exists p2, t2. split; [|exact Hk].
      econstructor; [exact HR|now apply Nat.ltb_lt|exact Hit].
    + exists p, t. split; [constructor|exact H].
Qed.


Lemma rep_loop_sound step R :
  sound step R -> forall n, sound (rep_loop step n) (reps R n).
Proof.
  intros Hs n. induction n as [|n IH]; intros p t k x H; simpl in H.
  - exists p, t. split; [repeat split|exact H].
  - apply Hs in H. destruct H as (p1 & t1 & HR & H).
    apply IH in H. destruct H as (p2 & t2 & Hn & H).
    exists p2, t2. split; [|exact H]. exists p1, t1. auto.
Qed.


Lemma star_of_sound step R : sound step R -> sound (star_of step) (iter R).
Proof. intros Hs p t k x. unfold star_of. now apply star_loop_sound. Qed.


Lemma then_sound s1 s2 R1 R2 :
  sound s1 R1 -> sound s2 R2 ->
  sound (fun p t k => s1 p t (fun p' t' => s2 p' t' k)) (then_ R1 R2).
Proof.
  intros H1 H2 p t k x H. apply H1 in H.
  destruct H as (p1 & t1 & HR1 & H). apply H2 in H.
  destruct H as (p2 & t2 & HR2 & H).
  exists p2, t2. split; [|exact H]. exists p1, t1. auto.
Qed.


Lemma here_sound (cond : option ascii -> str -> bool) :
  sound (fun p t k => if cond p t then k p t else None) (here cond).
Proof.
  intros p t k x H. destruct (cond p t) eqn:E; [|discriminate].
  exists p, t. split; [repeat split; exact E|exact H].
Qed.


Theorem run_sound (r : re) : sound (run fl r) (matches fl r).
Proof.
  induction r as [ |c|items| |r1 IH1 r2 IH2|r1 IH|r1 IH|r1 IH|n r1 IH
                 |n r1 IH| | | ]; simpl.
  - intros p t k x H. exists p, t. split; [repeat split|exact H].
  - apply one_char_sound.
  - apply one_char_sound.
  - apply one_char_sound.
  - exact (then_sound IH1 IH2).
  - intros p t k x H. unfold or_else in H.
    destruct (run fl r1 p t k) as [y|] eqn:E.
    + injection H as ->. apply IH in E.
      destruct E as (p' & t' & HR & Hk). exists p', t'. auto.
    + exists p, t. split; [right; repeat split|exact H].
  - apply star_of_sound, IH.
  - exact (then_sound IH (star_of_sound IH)).
  - apply rep_loop_sound, IH.
  - exact (then_sound (rep_loop_sound IH n) (star_of_sound IH)).
  - apply here_sound.
  - exact (@here_sound (fun p _ => at_bol fl p)).
  - exact (@here_sound (fun _ t => at_eol fl t)).
Qed.


Lemma match_here_sound r p t rest :
  match_here fl r p t = Some rest -> exists p', matches fl r p t p' rest.
Proof.
  intros H. apply run_sound in H. destruct H as (p' & t' & HR & E).
  injection E as ->. eauto.
Qed.


(** ** What a match consumes *)

Lemma last_of_app p (a b : str) :
  last_of p (a ++ b) = last_of (last_of p a) b.
Proof.
  unfold last_of. rewrite rev_app_distr.
  destruct (rev b) as [|x rb]; [|reflexivity].
  simpl. reflexivity.
Qed.

Lemma last_of_snoc p (a : str) (x : ascii) : last_of p (a ++ [x]) = Some x.
Proof. rewrite last_of_app. reflexivity. Qed.

Lemma consumes_one ok : consumes ok (one ok).
Proof.
  intros p t p' t' (x & -> & -> & Hx). exists [x]. repeat split.
  constructor; [exact Hx|constructor].
Qed.

Lemma consumes_here ok cond : consumes ok (here cond).
Proof.
  intros p t p' t' (-> & -> & _). exists []. repeat split. constructor.
Qed.

Lemma consumes_then ok R1 R2 :
  consumes ok R1 -> consumes ok R2 -> consumes ok (then_ R1 R2).
Proof.
  intros H1 H2 p t p' t' (p1 & t1 & HR1 & HR2).
  destruct (H1 _ _ _ _ HR1) as (c1 & -> & -> & F1).
  destruct (H2 _ _ _ _ HR2) as (c2 & -> & -> & F2).
  exists (c1 ++ c2). rewrite app_assoc, last_of_app. repeat split.
  apply Forall_app. auto.
Qed.

Lemma consumes_iter ok R : consumes ok R -> consumes ok (iter R).
Proof.
  intros H p t p' t' Hit.
  induction Hit as [p t|p t p1 t1 p2 t2 HR _ _ IH].
  - exists []. repeat split. constructor.
  - destruct (H _ _ _ _ HR) as (c1 & -> & -> & F1).
    destruct IH as (c2 & -> & -> & F2).
    exists (c1 ++ c2). rewrite app_assoc, last_of_app. repeat split.
    apply Forall_app. auto.
Qed.

Lemma consumes_reps ok R n : consumes ok R -> consumes ok (reps R n).
Proof.
  intros H. induction n as [|n IH]; simpl.
  - apply consumes_here.
  - apply consumes_then; assumption.
Qed.

Lemma consumes_weaken (ok ok' : ascii -> bool) R :
  (forall x, ok x = true -> ok' x = true) ->
  consumes ok R -> consumes ok' R.
Proof.
  intros Hw H p t p' t' HR.
  destruct (H _ _ _ _ HR) as (c & -> & -> & F).
  exists c. repeat split. eapply Forall_impl; [|exact F]. exact Hw.
Qed.

Theorem matches_consumes (r : re) :
  consumes (accepts fl r) (matches fl r).
Proof.
  induction r as [ |c|items| |r1 IH1 r2 IH2|r1 IH|r1 IH|r1 IH|n r1 IH
                 |n r1 IH| | | ]; simpl.
  - apply consumes_here.
  - apply consumes_one.
  - apply consumes_one.
  - apply consumes_one.
  - apply consumes_then; eapply consumes_weaken; eauto;
      intros x Hx; rewrite Hx; auto using orb_true_r.
  - intros p t p' t' [H|H].
    + now apply IH.
    + eapply consumes_here. exact H.
  - now apply consumes_iter.
  - apply consumes_then; [assumption|now apply consumes_iter].
  - now apply consumes_reps.
  - apply consumes_then; [now apply consumes_reps|now apply consumes_iter].
  - apply consumes_here.
  - apply consumes_here.
  - apply consumes_here.
Qed.

(** ** Scanning for the leftmost match *)

Lemma consumed_app (c rest : str) : consumed (c ++ rest) rest = c.
Proof.
  unfold consumed. rewrite length_app.
  replace (length c + length rest - length rest) with (length c) by lia.
  rewrite firstn_app, firstn_all, Nat.sub_diag. simpl.
  apply app_nil_r.
Qed.

Lemma match_here_suffix r p t rest :
  match_here fl r p t = Some rest -> t = consumed t rest ++ rest.
Proof.
  intros H. apply match_here_sound in H. destruct H as (p' & H).
  apply matches_consumes in H. destruct H as (c & -> & _).
  now rewrite consumed_app.
Qed.

(** What [find_from] returns is a split of the text at a match, and no
    match starts earlier. *)
Lemma find_from_sound r : forall t p skipped m rest,
  find_from fl r p t = Some (skipped, m, rest) ->
  t = skipped ++ m ++ rest /\
  match_here fl r (last_of p skipped) (m ++ rest) = Some rest /\
  (forall a b, skipped = a ++ b -> b <> [] ->
               match_here fl r (last_of p a) (b ++ m ++ rest) = None).
Proof.
  induction t as [|c t IH]; intros p skipped m rest H; simpl in H.
  - destruct (match_here fl r p []) as [rest'|] eqn:E; [|discriminate].
    injection H as <- <- <-.
    pose proof (match_here_suffix _ _ _ E) as S.
    split; [exact S|]. split; [rewrite <- S; exact E|].
    intros a b Hab Hb. destruct a, b; try discriminate. congruence.
  - destruct (match_here fl r p (c :: t)) as [rest'|] eqn:E.
    + injection H as <- <- <-.
      pose proof (match_here_suffix _ _ _ E) as S.
      split; [exact S|]. split; [rewrite <- S; exact E|].
      intros a b Hab Hb. destruct a, b; try discriminate. congruence.
    + destruct (find_from fl r (Some c) t) as [[[sk m'] rest']|] eqn:F;
        [|discriminate].
      injection H as <- <- <-.
      destruct (IH _ _ _ _ F) as (St & Hm & Hleft).
      repeat split.
      * simpl. now rewrite <- St.
      * replace (last_of p (c :: sk)) with (last_of (Some c) sk);
          [exact Hm|].
        change (c :: sk) with ([c] ++ sk). now rewrite last_of_app.
      * intros a b Hab Hb. destruct a as [|x a].
        -- simpl in Hab. subst b. simpl. rewrite <- St. exact E.
        -- injection Hab as <- Hab.
           replace (last_of p (c :: a)) with (last_of (Some c) a).
           ++ now apply Hleft.
           ++ change (c :: a) with ([c] ++ a). now rewrite last_of_app.
Qed.

(** A match somewhere makes [find_from] succeed. *)
Lemma find_from_complete r : forall pre p suf rest,
  match_here fl r (last_of p pre) suf = Some rest ->
  exists res, find_from fl r p (pre ++ suf) = Some res.
Proof.
  induction pre as [|c pre IH]; intros p suf rest H.
  - simpl in *. unfold last_of in H. simpl in H.
    destruct suf; simpl; rewrite H; eauto.
  - simpl. destruct (match_here fl r p (c :: pre ++ suf)); [eauto|].
    change (c :: pre) with ([c] ++ pre) in H. rewrite last_of_app in H.
    destruct (IH (Some c) suf rest H) as ([[sk m] rest'] & ->). eauto.
Qed.

Lemma find_from_none r : forall t p,
  find_from fl r p t = None ->
  forall a b, t = a ++ b -> match_here fl r (last_of p a) b = None.
Proof.
  intros t p H a b ->.
  destruct (match_here fl r (last_of p a) b) as [rest|] eqn:E;
    [|reflexivity].
  destruct (find_from_complete _ _ _ _ E) as (res & F). congruence.
Qed.

Lemma findall_nonempty r t :
  Py.nonempty (findall fl r t) = true <-> find_from fl r None t <> None.
Proof.
  unfold findall. simpl.
  destruct (find_from fl r None t) as [[[sk m] rest]|]; simpl.
  - split; [discriminate|reflexivity].
  - split; [discriminate|congruence].
Qed.

Lemma search_some r t :
  (exists m, search fl r t = Some m) <-> find_from fl r None t <> None.
Proof.
  unfold search.
  destruct (find_from fl r None t) as [[[sk m] rest]|].
  - split; [discriminate|eauto].
  - split; [intros (m & H); discriminate|congruence].
Qed.

End MatcherFacts.

(* ================================================================== *)
(** * Properties of the router's loop check *)
(* ================================================================== *)

Section RouterFacts.
Import AgentRouter.
Local Open Scope string_scope.
Local Open Scope list_scope.
Local Open Scope nat_scope.

Lemma last1_spec (h : list string) (x : string) :
  last1 h = Some x <-> exists pre, h = pre ++ [x].
Proof.
  unfold last1. split.
  - intros H. destruct (rev h) as [|y r] eqn:E; simpl in H; [discriminate|].
    injection H as ->. exists (rev r).
    rewrite <- (rev_involutive h), E. reflexivity.
  - intros [pre ->]. rewrite rev_app_distr. reflexivity.
Qed.

Lemma last2_spec (h : list string) (x : string) :
  last2 h = Some x <-> exists pre y, h = pre ++ [x; y].
Proof.
  unfold last2. split.
  - intros H. destruct (rev h) as [|y [|z r]] eqn:E; simpl in H;
      try discriminate.
    injection H as ->. exists (rev r), y.
    rewrite <- (rev_involutive h), E. simpl.
    rewrite <- app_assoc. reflexivity.
  - intros (pre & y & ->). rewrite rev_app_distr. reflexivity.
Qed.

Lemma count_is_count_occ (x : string) (h : list string) :
  count x h = count_occ string_dec h x.
Proof.
  unfold count. induction h as [|y h IH]; simpl; [reflexivity|].
  destruct (string_dec y x) as [->|N].
  - rewrite String.eqb_refl. simpl. now rewrite IH.
  - destruct (String.eqb x y) eqn:E.
    + apply String.eqb_eq in E. congruence.
    + exact IH.
Qed.

Lemma equals_spec (o : option string) (x : string) :
  equals o x = true <-> o = Some x.
Proof.
  destruct o as [y|]; simpl.
  - rewrite String.eqb_eq. split; congruence.
  - split; discriminate.
Qed.

Lemma last2_length (h : list string) (x : string) :
  last2 h = Some x -> 2 <= length h.
Proof.
  intros H. apply last2_spec in H. destruct H as (pre & y & ->).
  rewrite length_app. simpl. lia.
Qed.

(** C9.  The loop check rejects a candidate exactly when it is the last
    agent of the history, or the one before the last, or occurs at
    least twice in the history; three instances with [email] and
    [calendar]. *)
Theorem check_loop_rejects_exactly :
  (forall (current_agent : string) (delegation_history : list string),
      check_loop current_agent delegation_history = true <->
      ((exists pre, delegation_history = pre ++ [current_agent]) \/
       (exists pre y, delegation_history = pre ++ [current_agent; y]) \/
       2 <= count_occ string_dec delegation_history current_agent))
  /\ check_loop "email" ["email"; "calendar"; "email"] = true
  /\ check_loop "email" ["email"; "calendar"] = true
  /\ check_loop "email" ["calendar"] = false.
Proof.
  split; [|repeat split; reflexivity].
  intros cur h.
  rewrite <- last1_spec, <- last2_spec, <- count_is_count_occ.
  unfold check_loop. destruct h as [|a h'].
  - simpl. split; [discriminate|].
    intros [H|[H|H]]; try discriminate. unfold count in H. simpl in H. lia.
  - set (h := a :: h').
    destruct (equals (last1 h) cur) eqn:E1.
    { apply equals_spec in E1. tauto. }
    destruct ((2 <=? length h) && equals (last2 h) cur) eqn:E2.
    { apply andb_true_iff in E2. destruct E2 as [_ E2].
      apply equals_spec in E2. tauto. }
    destruct (2 <=? count cur h) eqn:E3.
    { apply Nat.leb_le in E3. tauto. }
    split; [discriminate|].
    intros [H|[H|H]].
    + apply equals_spec in H. congruence.
    + pose proof (last2_length _ H) as L. apply Nat.leb_le in L.
      apply equals_spec in H. rewrite L, H in E2. discriminate.
    + apply Nat.leb_le in H. congruence.
Qed.

End RouterFacts.

(* ================================================================== *)
(** * Properties of the task agent *)
(* ================================================================== *)

Section SortFacts.
Import TaskAgent SortVocabulary.
Local Open Scope string_scope.
Local Open Scope list_scope.
Local Open Scope Z_scope.

Lemma key_lt_false (x y : prioritized) :
  key_lt (sort_key y) (sort_key x) = false <-> sorted_before x y.
Proof.
  unfold key_lt, sort_key, sorted_before. simpl.
  rewrite orb_false_iff, andb_false_iff, !Z.ltb_ge, Z.eqb_neq. lia.
Qed.

Lemma key_lt_true (x y : prioritized) :
  key_lt (sort_key y) (sort_key x) = true -> sorted_before y x.
Proof.
  unfold key_lt, sort_key, sorted_before. simpl.
  rewrite orb_true_iff, andb_true_iff, !Z.ltb_lt, Z.eqb_eq. lia.
Qed.

Lemma sorted_before_trans (x y z : prioritized) :
  sorted_before x y -> sorted_before y z -> sorted_before x z.
Proof. unfold sorted_before. lia. Qed.

Lemma insert_perm (x : prioritized) (l : list prioritized) :
  Permutation (x :: l) (insert x l).
Proof.
  induction l as [|y l IH]; simpl; [reflexivity|].
  destruct (key_lt (sort_key y) (sort_key x)); [|reflexivity].
  rewrite perm_swap. now constructor.
Qed.

Lemma insert_Forall (P : prioritized -> Prop) x l :
  P x -> Forall P l -> Forall P (insert x l).
Proof.
  intros Hx Hl. eapply Permutation_Forall; [apply insert_perm|].
  now constructor.
Qed.

Lemma insert_sorted (x : prioritized) (l : list prioritized) :
  StronglySorted sorted_before l ->
  StronglySorted sorted_before (insert x l).
Proof.
  induction 1 as [|y l Hs IH Hy]; simpl.
  - repeat constructor.
  - destruct (key_lt (sort_key y) (sort_key x)) eqn:E.
    + constructor; [exact IH|].
      apply insert_Forall; [now apply key_lt_true|exact Hy].
    + apply key_lt_false in E.
      constructor; [now constructor|].
      constructor; [exact E|].
      eapply Forall_impl; [|exact Hy].
      intros z Hz. eapply sorted_before_trans; eassumption.
Qed.

Lemma sort_perm (l : list prioritized) : Permutation l (sort l).
Proof.
  induction l as [|x l IH]; simpl; [constructor|].
  etransitivity; [|apply insert_perm]. now constructor.
Qed.

Lemma sort_sorted (l : list prioritized) :
  StronglySorted sorted_before (sort l).
Proof.
  induction l as [|x l IH]; simpl; [constructor|].
  now apply insert_sorted.
Qed.

Lemma rank_is_bucket (x : prioritized) : bucket x = rank x.
Proof.
  unfold bucket, rank.
  destruct (priority (p_prioritization x)) as [p|]; [|reflexivity].
  unfold or_default at 2. unfold priority_order.
  cbn [Guardrails.assoc].
  destruct (String.eqb p "urgent"); [reflexivity|].
  destruct (String.eqb p "high"); [reflexivity|].
  destruct (String.eqb p "medium"); [reflexivity|].
  destruct (String.eqb p "low"); reflexivity.
Qed.

Lemma score_is_urgency (x : prioritized) : urgency x = score x.
Proof. reflexivity. Qed.

Lemma sorted_is_ranked (x y : prioritized) :
  sorted_before x y -> ranked_before x y.
Proof.
  unfold sorted_before, ranked_before.
  now rewrite !rank_is_bucket, !score_is_urgency.
Qed.

Lemma sort_ranked (l : list prioritized) :
  StronglySorted ranked_before (sort l).
Proof.
  induction (sort_sorted l) as [|x l' S IH F]; constructor; [exact IH|].
  eapply Forall_impl; [|exact F]. intros y. apply sorted_is_ranked.
Qed.

Lemma sort_pair_swapped (x1 x2 : prioritized) :
  ranked_before x2 x1 -> ~ ranked_before x1 x2 -> sort [x1; x2] = [x2; x1].
Proof.
  intros _ N. unfold sort. cbn [fold_right insert].
  destruct (key_lt (sort_key x2) (sort_key x1)) eqn:E; [reflexivity|].
  apply key_lt_false, sorted_is_ranked in E. contradiction.
Qed.

(** C8.  The final ordering of [prioritize_tasks] is a rearrangement of
    the per-task results in which every result stands before all results
    of a later bucket and, within its bucket, before all results of
    lower urgency score, bucket and score being those that the result
    holds: the buckets urgent, high, medium and low have the places 0,
    1, 2 and 3, and the score of a result is its [urgency_score].  Of
    two results of one bucket the one with the higher score comes
    first, and of two results of different buckets the one of the
    earlier bucket, whatever the scores.  The results medium/5,
    urgent/3, high/9 come out as urgent/3, high/9, medium/5; the results
    high/2, medium/5, urgent/3, high/9, urgent/7 and one without
    priority and score come out as urgent/7, urgent/3, high/9, high/2,
    medium/5 and the one without. *)
Theorem prioritize_tasks_final_order :
  (forall (analyse : task -> prioritized) (tasks : list task),
      Permutation (map analyse tasks) (prioritize_tasks analyse tasks) /\
      StronglySorted ranked_before (prioritize_tasks analyse tasks))
  /\ (forall t u,
         rank (entry t "urgent" u) = 0 /\ rank (entry t "high" u) = 1 /\
         rank (entry t "medium" u) = 2 /\ rank (entry t "low" u) = 3)
  /\ (forall t p u, score (entry t p u) = u)
  /\ (forall (analyse : task -> prioritized) t1 t2 p u1 u2,
         analyse t1 = entry t1 p u1 -> analyse t2 = entry t2 p u2 ->
         u1 < u2 ->
         prioritize_tasks analyse [t1; t2]
         = [entry t2 p u2; entry t1 p u1])
  /\ (forall (analyse : task -> prioritized) t1 t2,
         rank (analyse t2) < rank (analyse t1) ->
         prioritize_tasks analyse [t1; t2] = [analyse t2; analyse t1])
  /\ prioritize_tasks sample_analyse
       [sample_task "t1"; sample_task "t2"; sample_task "t3"]
     = [entry (sample_task "t2") "urgent" 3;
        entry (sample_task "t3") "high" 9;
        entry (sample_task "t1") "medium" 5]
  /\ prioritize_tasks mixed_analyse
       [sample_task "t1"; sample_task "t2"; sample_task "t3";
        sample_task "t4"; sample_task "t5"; sample_task "t6"]
     = [entry (sample_task "t5") "urgent" 7;
        entry (sample_task "t3") "urgent" 3;
        entry (sample_task "t4") "high" 9;
        entry (sample_task "t1") "high" 2;
        entry (sample_task "t2") "medium" 5;
        Prioritized (sample_task "t6") (Prioritization None None)].
Proof.
  split; [|split; [|split; [|split; [|split; [|split]]]]].
  - intros analyse tasks. unfold prioritize_tasks.
    split; [apply sort_perm|apply sort_ranked].
  - intros t u. repeat split.
  - reflexivity.
  - intros analyse t1 t2 p u1 u2 E1 E2 L. unfold prioritize_tasks.
    cbn [map]. rewrite E1, E2. apply sort_pair_swapped.
    + right. split; [reflexivity|]. cbn. lia.
    + intros [H|[_ H]]; [unfold rank in H; cbn in H; lia|cbn in H; lia].
  - intros analyse t1 t2 L. unfold prioritize_tasks. cbn [map].
    apply sort_pair_swapped; [now left|].
    intros [H|[H _]]; lia.
  - reflexivity.
  - reflexivity.
Qed.

Lemma prioritize_tasks_final_order_witness :
  prioritize_tasks mixed_analyse [sample_task "t1"; sample_task "t4"]
  = [entry (sample_task "t4") "high" 9; entry (sample_task "t1") "high" 2]
  /\
  prioritize_tasks mixed_analyse [sample_task "t5"; sample_task "t3"]
  = [entry (sample_task "t5") "urgent" 7;
     entry (sample_task "t3") "urgent" 3]
  /\
  prioritize_tasks mixed_analyse [sample_task "t4"; sample_task "t3"]
  = [entry (sample_task "t3") "urgent" 3; entry (sample_task "t4") "high" 9].
Proof.
  destruct prioritize_tasks_final_order as (A & _ & _ & W & C & _).
  split; [|split].
  - apply (W mixed_analyse (sample_task "t1") (sample_task "t4") "high" 2 9);
      [reflexivity|reflexivity|lia].
  - destruct (A mixed_analyse [sample_task "t5"; sample_task "t3"])
      as [_ S].
    reflexivity.
  - apply (C mixed_analyse (sample_task "t4") (sample_task "t3")).
    vm_compute. reflexivity.
Defined.

End SortFacts.

Section BlockerFacts.
Import TaskAgent BlockerVocabulary.
Local Open Scope string_scope.
Local Open Scope list_scope.

Lemma two_member_orders (set_order : list string -> list string) :
  set_iteration set_order ->
  set_order ["A"; "B"] = ["A"; "B"] \/ set_order ["A"; "B"] = ["B"; "A"].
Proof.
  intros H. specialize (H ["A"; "B"]).
  change (nodup string_dec ["A"; "B"]) with ["A"; "B"] in H.
  apply Permutation_length_2_inv in H. tauto.
Qed.

(** C7, as it stands: with the status of A written [done], B is
    reported as blocked by A, and A as a blocking task. *)
Lemma identify_blockers_done_counterexample :
  identify_blockers (nodup string_dec) (chain_ABC "done")
  = Analysis [Blocking "A" "Task A" 1; Blocking "B" "Task B" 1]
             [Blocked "B" "Task B" ["A"]; Blocked "C" "Task C" ["B"]]
             [].
Proof. reflexivity. Qed.

(** C7, amended.  With the status of A written [completed], whatever
    the iteration order of the dependency set: the only blocked task is
    C, blocked by B (so B is blocked by nothing), and the only blocking
    task is B, with a blocking count of 1. *)
Theorem identify_blockers_completed_chain
  (set_order : list string -> list string) :
  set_iteration set_order ->
  identify_blockers set_order (chain_ABC "completed")
  = Analysis [Blocking "B" "Task B" 1]
             [Blocked "C" "Task C" ["B"]]
             [].
Proof.
  intros H. unfold identify_blockers.
  change (flat_map dependencies (chain_ABC "completed")) with ["A"; "B"].
  destruct (two_member_orders H) as [-> | ->]; reflexivity.
Qed.

Lemma identify_blockers_completed_chain_witness :
  set_iteration (nodup string_dec) /\
  identify_blockers (nodup string_dec) (chain_ABC "completed")
  = Analysis [Blocking "B" "Task B" 1]
             [Blocked "C" "Task C" ["B"]]
             [].
Proof.
  assert (H : set_iteration (nodup string_dec)).
  { intros l. apply Permutation_refl. }
  split; [exact H|].
  exact (identify_blockers_completed_chain H).
Defined.

End BlockerFacts.

(* ================================================================== *)
(** * Properties of the free-slot scan *)
(* ================================================================== *)

Section CalendarFacts.
Import PyStr PyFloat Calendar CalendarVocabulary.
Local Open Scope Z_scope.

Lemma hour_of_at_hour (d h : Z) :
  0 <= h < 24 -> (wall (at_hour d h) / HOUR) mod 24 = h.
Proof.
  intros Hh. unfold at_hour, naive, DAY. cbn [wall].
  replace (d * (24 * HOUR) + h * HOUR) with ((d * 24 + h) * HOUR) by ring.
  rewrite Z.div_mul by (unfold HOUR; lia).
  rewrite Z.add_comm, Z.mod_add by lia.
  apply Z.mod_small. exact Hh.
Qed.

Lemma minute_of_at_hour (d h : Z) :
  (wall (at_hour d h) / MINUTE) mod 60 = 0.
Proof.
  unfold at_hour, naive, DAY, HOUR. cbn [wall].
  replace (d * (24 * (3600 * 1000000)) + h * (3600 * 1000000))
    with (((d * 24 + h) * 60) * MINUTE) by (unfold MINUTE; ring).
  rewrite Z.div_mul by (unfold MINUTE; lia).
  apply Z.mod_mul. lia.
Qed.

Lemma strftime_at_hour (d h : Z) :
  0 <= h < 24 ->
  strftime_HM (at_hour d h) = two_digits h ++ py":00".
Proof.
  intros Hh. unfold strftime_HM.
  rewrite hour_of_at_hour by exact Hh.
  rewrite minute_of_at_hour. reflexivity.
Qed.

Lemma float_ge_int_scaled (k s z : Z) :
  0 < s -> float_ge_int (Float (k * 2 ^ s) (- s)) z = (z <=? k).
Proof.
  intros Hs. unfold float_ge_int. cbn [expo mant].
  destruct (Z.leb_spec 0 (- s)); [lia|]. rewrite Z.opp_involutive.
  assert (0 < 2 ^ s) by (apply Z.pow_pos_nonneg; lia).
  destruct (Z.leb_spec z k); [apply Z.leb_le|apply Z.leb_gt]; nia.
Qed.

(** A gap of whole hours whose length in minutes, [k], is computed
    without rounding. *)
Lemma gap_at_hours (d h1 h2 m k s : Z) :
  0 < s ->
  float_div_int (total_seconds ((h1 - h2) * HOUR)) 60
  = Float (k * 2 ^ s) (- s) ->
  gap_fits (at_hour d h1) (at_hour d h2) m = Ok (m <=? k).
Proof.
  intros Hs E. unfold gap_fits, at_hour, naive, dt_sub.
  cbn [utcoffset wall bind].
  replace (d * DAY + h1 * HOUR - (d * DAY + h2 * HOUR))
    with ((h1 - h2) * HOUR) by ring.
  now rewrite E, float_ge_int_scaled.
Qed.

Lemma max_at_hours (d h1 h2 : Z) :
  dt_max (at_hour d h1) (at_hour d h2)
  = Ok (if h1 <? h2 then at_hour d h2 else at_hour d h1).
Proof.
  unfold dt_max, at_hour, naive, dt_sub, bind. simpl. f_equal.
  unfold DAY, HOUR.
  destruct (Z.ltb_spec h1 h2).
  - replace (0 <? _) with true; [reflexivity|].
    symmetry. apply Z.ltb_lt. lia.
  - replace (0 <? _) with false; [reflexivity|].
    symmetry. apply Z.ltb_ge. lia.
Qed.

Lemma free_slots_one_meeting (d m : Z) :
  find_free_slots (d * DAY) (one_meeting d) m
  = Ok ((if m <=? 60 then [Slot (py"09:00") (py"10:00")] else []) ++
        (if m <=? 360 then [Slot (py"11:00") (py"17:00")] else [])).
Proof.
  unfold find_free_slots, one_meeting, scan_events.
  change (naive (d * DAY + 9 * HOUR)) with (at_hour d 9).
  change (naive (d * DAY + 17 * HOUR)) with (at_hour d 17).
  cbn [ev_start ev_end].
  rewrite (@gap_at_hours d 10 9 m 60 47) by (vm_compute; reflexivity).
  cbn [bind].
  rewrite max_at_hours. cbn [bind].
  change (9 <? 11) with true. cbv iota.
  rewrite (@gap_at_hours d 17 11 m 360 44) by (vm_compute; reflexivity).
  cbn [bind].
  rewrite !strftime_at_hour by lia.
  destruct (m <=? 60), (m <=? 360); reflexivity.
Qed.

(** The scan raises [TypeError] as soon as an event time carries a UTC
    offset: the bounds of the day carry none. *)
Lemma free_slots_offset_times_raise (d m : Z) :
  find_free_slots (d * DAY) (one_meeting_utc d) m = TypeError.
Proof. reflexivity. Qed.

(** C3, as it stands: a request for 90 minutes does not yield two
    windows. *)
Lemma free_slots_90_not_two :
  ~ exists slots,
      find_free_slots (0 * DAY) (one_meeting 0) 90 = Ok slots /\
      length slots = 2%nat.
Proof.
  intros (slots & H & L). rewrite free_slots_one_meeting in H.
  injection H as <-. discriminate L.
Qed.

(** C3, amended.  On any day whose only event runs from 10:00 to 11:00
    (times without UTC offset): a request for 90 minutes yields exactly
    one window, 11:00 to 17:00, the hour from 09:00 to 10:00 being too
    short; a request for 30 minutes yields exactly two windows, 09:00
    to 10:00 and 11:00 to 17:00. *)
Theorem free_slots_around_one_meeting (d : Z) :
  find_free_slots (d * DAY) (one_meeting d) 90
  = Ok [Slot (py"11:00") (py"17:00")]
  /\
  find_free_slots (d * DAY) (one_meeting d) 30
  = Ok [Slot (py"09:00") (py"10:00"); Slot (py"11:00") (py"17:00")].
Proof. split; rewrite free_slots_one_meeting; reflexivity. Qed.

End CalendarFacts.

(* ================================================================== *)
(** * Properties of the guardrails *)
(* ================================================================== *)

Section RecipientFacts.
Import PyStr Re ReSemantics Py Guardrails GuardrailsVocabulary.

Lemma matches_last_part fl (r : re) : forall p t p' t',
  matches fl r p t p' t' ->
  exists p1 t1, matches fl (last_part r) p1 t1 p' t'.
Proof.
  induction r; intros p t p' t' H; try (exists p, t; exact H).
  simpl in H. destruct H as (p1 & t1 & _ & H2). simpl. eauto.
Qed.

Lemma at_eol_plain (rest : str) :
  at_eol no_flags rest = true -> rest = [] \/ rest = [NL].
Proof.
  destruct rest as [|c [|d rest]]; simpl; auto.
  - rewrite andb_true_r. intros H. apply Ascii.eqb_eq in H. subst. auto.
  - rewrite andb_false_r. discriminate.
Qed.

Lemma has_char_app c (a b : str) :
  has_char c (a ++ b) = has_char c a || has_char c b.
Proof. unfold has_char. apply existsb_app. Qed.

Lemma has_char_rejected (ok : ascii -> bool) (c : ascii) (l : str) :
  ok c = false -> Forall (fun x => ok x = true) l -> has_char c l = false.
Proof.
  intros Hc F. unfold has_char. induction F as [|x l Hx _ IH]; simpl; auto.
  rewrite IH, orb_false_r. unfold ascii_eqb.
  destruct (Ascii.eqb c x) eqn:E; [|reflexivity].
  apply Ascii.eqb_eq in E. congruence.
Qed.

(** A recipient string that passes the validity check is made of the
    characters of the pattern, with at most a final newline. *)
Lemma valid_email_shape (email : str) :
  _is_valid_email email = true ->
  exists c rest,
    email = c ++ rest /\
    Forall (fun x => accepts no_flags valid_email_re x = true) c /\
    (rest = [] \/ rest = [NL]).
Proof.
  unfold _is_valid_email, py_match. intros H.
  destruct (match_here no_flags valid_email_re None email) as [rest|] eqn:E;
    [clear H|discriminate].
  apply match_here_sound in E. destruct E as (p' & HM).
  pose proof HM as HC. apply matches_consumes in HC.
  destruct HC as (c & -> & _ & F).
  exists c, rest. repeat split; [exact F|].
  apply matches_last_part in HM. destruct HM as (p1 & t1 & HE).
  simpl in HE. destruct HE as (_ & -> & HE).
  now apply at_eol_plain.
Qed.

(** No valid recipient string holds a comma or a semicolon. *)
Lemma valid_email_single (email : str) :
  _is_valid_email email = true ->
  has_char COMMA email = false /\ has_char SEMICOLON email = false.
Proof.
  intros H. destruct (valid_email_shape _ H) as (c & rest & -> & F & R).
  rewrite !has_char_app.
  rewrite (has_char_rejected (accepts no_flags valid_email_re) COMMA)
    by (vm_compute; reflexivity || exact F).
  rewrite (has_char_rejected (accepts no_flags valid_email_re) SEMICOLON)
    by (vm_compute; reflexivity || exact F).
  destruct R as [-> | ->]; split; reflexivity.
Qed.

End RecipientFacts.

Section EmailSendFacts.
Import PyStr Re ReSemantics Py Guardrails GuardrailsVocabulary.
Local Open Scope string_scope.
Local Open Scope list_scope.

Lemma rate_check_email_send (gs : GuardrailsSystem) (now : Z) :
  check_rate_limit gs now "email_send" =
  if (10 <=? Z.of_nat (length (recent_sends gs now)))%Z then
    [("allowed", VBool false);
     ("reason", text rate_limit_message);
     ("reset_time",
      match recent_sends gs now with
      | a :: _ => VTime (a_timestamp a)
      | [] => VNone
      end)]
  else
    [("allowed", VBool true);
     ("remaining", VInt (10 - Z.of_nat (length (recent_sends gs now))))].
Proof. reflexivity. Qed.

(** The three ways out of [check_email_send]. *)
Lemma check_email_send_cases gs now_rate now_log to subject body :
  check_email_send gs now_rate now_log to subject body =
  if (10 <=? Z.of_nat (length (recent_sends gs now_rate)))%Z then
    ([("approved", VBool false);
      ("warnings",
       VList (sensitive_warnings body ++
              [Some (Blocked rate_limit_message)]));
      ("requires_human", VBool false);
      ("reason", text (py"Rate limit exceeded"))], gs)
  else if negb (_is_valid_email to) then
    ([("approved", VBool false);
      ("warnings",
       VList (sensitive_warnings body ++ [Some (InvalidEmail to)]));
      ("requires_human", VBool false);
      ("reason", text (py"Invalid recipient"))], gs)
  else
    ([("approved", VBool true);
      ("warnings", VList (sensitive_warnings body));
      ("requires_human", VBool (detected body))],
     log (Action "email_send" now_log (Some to)) gs).
Proof.
  unfold check_email_send. rewrite rate_check_email_send.
  fold (detected body). fold (hits_of body). fold (sensitive_warnings body).
  destruct (10 <=? Z.of_nat (length (recent_sends gs now_rate)))%Z;
    [reflexivity|].
  cbn [item get String.eqb Ascii.eqb Bool.eqb truthy negb].
  destruct (_is_valid_email to) eqn:V; [|reflexivity].
  destruct (valid_email_single _ V) as [-> ->]. reflexivity.
Qed.

(** C10.  [check_email_send] approves exactly when the budget is not
    spent and the recipient is valid; it appends its history entry when
    it approves and leaves the instance as it was when it blocks. *)
Theorem check_email_send_logs_iff_approved
  gs now_rate now_log to subject body :
  let b := negb (email_budget_spent gs now_rate) && _is_valid_email to in
  get "approved"
      (fst (check_email_send gs now_rate now_log to subject body))
  = Some (VBool b) /\
  snd (check_email_send gs now_rate now_log to subject body)
  = (if b then log (Action "email_send" now_log (Some to)) gs else gs) /\
  action_history
    (snd (check_email_send gs now_rate now_log to subject body))
  = (if b
     then action_history gs ++ [Action "email_send" now_log (Some to)]
     else action_history gs).
Proof.
  rewrite check_email_send_cases. unfold email_budget_spent.
  destruct (10 <=? Z.of_nat (length (recent_sends gs now_rate)))%Z;
    [repeat split|].
  destruct (_is_valid_email to); repeat split.
Qed.

(** C4, on the code: a recipient string with a comma or a semicolon is
    never approved and never flagged for a human; the check stops at
    the validity test (or at the rate limit) and the instance is left
    as it was. *)
Theorem check_email_send_blocks_recipient_lists
  gs now_rate now_log to subject body :
  has_char COMMA to = true \/ has_char SEMICOLON to = true ->
  get "approved"
      (fst (check_email_send gs now_rate now_log to subject body))
  = Some (VBool false) /\
  get "requires_human"
      (fst (check_email_send gs now_rate now_log to subject body))
  = Some (VBool false) /\
  snd (check_email_send gs now_rate now_log to subject body) = gs.
Proof.
  intros H. rewrite check_email_send_cases.
  destruct (10 <=? Z.of_nat (length (recent_sends gs now_rate)))%Z;
    [repeat split|].
  destruct (_is_valid_email to) eqn:V; [|repeat split].
  destruct (valid_email_single _ V) as [C S].
  destruct H; congruence.
Qed.

Lemma six_recipients_blocked :
  (has_char COMMA six_recipients = true \/
   has_char SEMICOLON six_recipients = true) /\
  get "approved"
      (fst (check_email_send init 0 0 six_recipients (py"s") (py"hello")))
  = Some (VBool false) /\
  get "requires_human"
      (fst (check_email_send init 0 0 six_recipients (py"s") (py"hello")))
  = Some (VBool false) /\
  snd (check_email_send init 0 0 six_recipients (py"s") (py"hello")) = init.
Proof.
  assert (H : has_char COMMA six_recipients = true \/
              has_char SEMICOLON six_recipients = true)
    by (left; reflexivity).
  split; [exact H|].
  exact (check_email_send_blocks_recipient_lists
           init 0 0 six_recipients (py"s") (py"hello") H).
Defined.

End EmailSendFacts.

Section CalendarCheckFacts.
Import PyStr Py Guardrails GuardrailsVocabulary.
Local Open Scope string_scope.
Local Open Scope list_scope.

Lemma rate_check_calendar_create (gs : GuardrailsSystem) (now : Z) :
  truthy (item "allowed" (check_rate_limit gs now "calendar_create"))
  = negb (calendar_budget_spent gs now).
Proof.
  unfold calendar_budget_spent.
  change (check_rate_limit gs now "calendar_create") with
    (if (20 <=? Z.of_nat (length (recent_creates gs now)))%Z then
       [("allowed", VBool false);
        ("reason",
         text (py"Rate limit exceeded: 20 per 3600s"));
        ("reset_time",
         match recent_creates gs now with
         | a :: _ => VTime (a_timestamp a)
         | [] => VNone
         end)]
     else
       [("allowed", VBool true);
        ("remaining",
         VInt (20 - Z.of_nat (length (recent_creates gs now))))]).
  destruct (20 <=? Z.of_nat (length (recent_creates gs now)))%Z;
    reflexivity.
Qed.

(** C5, as it stands: a creation refused by the rate limit appends
    nothing. *)
Lemma check_calendar_blocked_appends_nothing :
  get "approved"
      (fst (check_calendar_operation twenty_creates 1 2 "create" []))
  = Some (VBool false) /\
  action_history
    (snd (check_calendar_operation twenty_creates 1 2 "create" []))
  = action_history twenty_creates.
Proof. split; reflexivity. Qed.

(** C5, amended.  [check_calendar_operation] refuses exactly a
    [create] made when the calendar budget is spent, and then leaves
    the history as it was; every other call is approved and appends one
    entry of type [calendar_create]. *)
Theorem check_calendar_operation_logs_iff_approved
  gs now_rate now_log operation args :
  let refused :=
    String.eqb operation "create" && calendar_budget_spent gs now_rate in
  get "approved"
      (fst (check_calendar_operation gs now_rate now_log operation args))
  = Some (VBool (negb refused)) /\
  action_history
    (snd (check_calendar_operation gs now_rate now_log operation args))
  = (if refused then action_history gs
     else action_history gs ++ [Action "calendar_create" now_log None]).
Proof.
  unfold check_calendar_operation.
  destruct (String.eqb operation "create").
  - rewrite rate_check_calendar_create.
    destruct (calendar_budget_spent gs now_rate); split; reflexivity.
  - split; reflexivity.
Qed.

End CalendarCheckFacts.

Section CreditCardFacts.
Import PyStr Re ReSemantics Py Guardrails GuardrailsVocabulary.
Local Open Scope string_scope.
Local Open Scope list_scope.















End CreditCardFacts.

Section RateLimitFacts.
Import PyStr Re Py Guardrails GuardrailsVocabulary.
Local Open Scope string_scope.
Local Open Scope list_scope.

Lemma no_sensitive_content_quiet (body : str) :
  no_sensitive_content body ->
  detected body = false /\ sensitive_warnings body = [].
Proof.
  unfold no_sensitive_content, sensitive_warnings, detected, item.
  intros ->. split; reflexivity.
Qed.

Lemma clean_call_approved gs (c : email_call) :
  clean_call c ->
  email_budget_spent gs (at_check c) = false ->
  run_call gs c = (approved_plain, log (entry_of c) gs).
Proof.
  intros [V Q] B. unfold run_call. rewrite check_email_send_cases.
  unfold email_budget_spent in B. rewrite B, V.
  destruct (no_sensitive_content_quiet Q) as [-> ->]. reflexivity.
Qed.

Lemma clean_call_blocked gs (c : email_call) :
  clean_call c ->
  email_budget_spent gs (at_check c) = true ->
  run_call gs c =
  ([("approved", VBool false);
    ("warnings", VList [Some (Blocked rate_limit_message)]);
    ("requires_human", VBool false);
    ("reason", text (py"Rate limit exceeded"))], gs).
Proof.
  intros [V Q] B. unfold run_call. rewrite check_email_send_cases.
  unfold email_budget_spent in B. rewrite B.
  destruct (no_sensitive_content_quiet Q) as [_ ->]. reflexivity.
Qed.

Lemma short_history_unspent gs now :
  length (action_history gs) < 10 -> email_budget_spent gs now = false.
Proof.
  intros H. unfold email_budget_spent, recent_sends.
  apply Z.leb_gt.
  pose proof (filter_length_le
                (fun a => String.eqb (a_type a) "email_send" &&
                          (now - a_timestamp a <? 3600 * MICRO)%Z)
                (action_history gs)).
  lia.
Qed.

(** As long as the history stays within ten entries, clean calls are
    all approved and each appends its entry. *)
Lemma run_calls_within_budget : forall calls gs,
  Forall clean_call calls ->
  length (action_history gs) + length calls <= 10 ->
  run_calls gs calls =
  (map (fun _ => approved_plain) calls,
   MkGuardrails (triggered_guardrails gs)
                (action_history gs ++ map entry_of calls)).
Proof.
  induction calls as [|c calls IH]; intros gs F L; simpl.
  - rewrite app_nil_r. destruct gs; reflexivity.
  - inversion F as [|? ? Hc F']; subst. simpl in L.
    rewrite (clean_call_approved gs Hc)
      by (apply short_history_unspent; lia).
    rewrite IH; [|exact F'|simpl; rewrite length_app; simpl; lia].
    simpl. now rewrite <- app_assoc.
Qed.

Lemma filter_all {A} (f : A -> bool) (l : list A) :
  Forall (fun a => f a = true) l -> filter f l = l.
Proof.
  induction 1 as [|a l Ha _ IH]; simpl; [reflexivity|].
  now rewrite Ha, IH.
Qed.

Lemma filter_none {A} (f : A -> bool) (l : list A) :
  Forall (fun a => f a = false) l -> filter f l = [].
Proof.
  induction 1 as [|a l Ha _ IH]; simpl; [reflexivity|].
  now rewrite Ha.
Qed.

Lemma recent_sends_all (calls : list email_call) trig now :
  Forall (fun c => (now - at_log c < 3600 * MICRO)%Z) calls ->
  recent_sends (MkGuardrails trig (map entry_of calls)) now
  = map entry_of calls.
Proof.
  intros F. unfold recent_sends. apply filter_all. simpl.
  apply Forall_map. eapply Forall_impl; [|exact F].
  intros c Hc. simpl. now apply Z.ltb_lt.
Qed.

Lemma recent_sends_none (calls : list email_call) trig now :
  Forall (fun c => (3600 * MICRO <= now - at_log c)%Z) calls ->
  recent_sends (MkGuardrails trig (map entry_of calls)) now = [].
Proof.
  intros F. unfold recent_sends. apply filter_none. simpl.
  apply Forall_map. eapply Forall_impl; [|exact F].
  intros c Hc. simpl. now apply Z.ltb_ge.
Qed.

Lemma plain_call_clean (t : Z) : clean_call (plain_call t).
Proof. split; reflexivity. Qed.

(** C1, as it stands: the result of the eleventh call holds no reset
    time. *)
Lemma eleventh_result_has_no_reset_time :
  get "approved"
      (fst (run_call (snd (run_calls init ten_calls)) (plain_call 10)))
  = Some (VBool false) /\
  get "reset_time"
      (fst (run_call (snd (run_calls init ten_calls)) (plain_call 10)))
  = None.
Proof.
  rewrite run_calls_within_budget;
    [|apply Forall_map, Forall_forall; intros; apply plain_call_clean
     |simpl; lia].
  rewrite clean_call_blocked;
    [split; reflexivity|apply plain_call_clean|reflexivity].
Qed.

(** C1, amended.  From an empty history, with valid recipients and
    bodies without sensitive patterns: the first ten calls are all
    approved; an eleventh call made while the ten entries are less than
    3,600 seconds old is refused with the reason [Rate limit exceeded]
    and a warning that cites the limit, leaves the instance as it was,
    and carries no reset time in its result, the earliest of the ten
    timestamps being the reset time reported by the [check_rate_limit]
    call it makes; a later call made when all ten entries are at least
    3,600 seconds old is approved. *)
Theorem email_rate_limit_window
  (calls : list email_call) (eleventh later : email_call) :
  length calls = 10 ->
  Forall clean_call calls -> clean_call eleventh -> clean_call later ->
  StronglySorted (fun a b => (at_log a <= at_log b)%Z) calls ->
  Forall (fun c => (at_check eleventh - at_log c < 3600 * MICRO)%Z) calls ->
  Forall (fun c => (3600 * MICRO <= at_check later - at_log c)%Z) calls ->
  let gs10 := snd (run_calls init calls) in
  let r11 := fst (run_call gs10 eleventh) in
  let gs11 := snd (run_call gs10 eleventh) in
  Forall approved (fst (run_calls init calls)) /\
  get "approved" r11 = Some (VBool false) /\
  get "reason" r11 = Some (text (py"Rate limit exceeded")) /\
  get "warnings" r11 = Some (VList [Some (Blocked rate_limit_message)]) /\
  get "reset_time" r11 = None /\
  (exists first,
      hd_error calls = Some first /\
      Forall (fun c => (at_log first <= at_log c)%Z) calls /\
      get "reset_time"
          (check_rate_limit gs10 (at_check eleventh) "email_send")
      = Some (VTime (at_log first))) /\
  gs11 = gs10 /\
  approved (fst (run_call gs11 later)).
Proof.
  intros L F C11 C12 Sorted W11 W12.
  rewrite run_calls_within_budget by (simpl; auto; lia).
  simpl triggered_guardrails. simpl action_history. simpl app.
  intros gs10 r11 gs11.
  assert (B11 : email_budget_spent gs10 (at_check eleventh) = true).
  { unfold email_budget_spent, gs10. simpl snd.
    rewrite recent_sends_all by exact W11.
    rewrite length_map, L. reflexivity. }
  assert (B12 : email_budget_spent gs10 (at_check later) = false).
  { unfold email_budget_spent, gs10. simpl snd.
    rewrite recent_sends_none by exact W12. reflexivity. }
  assert (RS : recent_sends gs10 (at_check eleventh) = map entry_of calls).
  { unfold gs10. simpl snd. now apply recent_sends_all. }
  pose proof (clean_call_blocked gs10 C11 B11) as E11.
  unfold r11, gs11. rewrite E11. cbn [fst snd].
  split.
  { apply Forall_map, Forall_forall. intros; reflexivity. }
  repeat (split; [reflexivity|]).
  split.
  - destruct calls as [|c1 calls']; [discriminate L|].
    exists c1. split; [reflexivity|]. split.
    + constructor; [lia|]. now apply StronglySorted_inv in Sorted.
    + rewrite rate_check_email_send.
      unfold email_budget_spent in B11. rewrite B11, RS.
      reflexivity.
  - split; [reflexivity|].
    rewrite (clean_call_approved gs10 C12 B12). reflexivity.
Qed.

Lemma email_rate_limit_window_witness :
  length ten_calls = 10 /\
  Forall clean_call ten_calls /\
  get "approved"
      (fst (run_call (snd (run_calls init ten_calls)) (plain_call 10)))
  = Some (VBool false) /\
  approved
    (fst (run_call
            (snd (run_call (snd (run_calls init ten_calls))
                           (plain_call 10)))
            (plain_call (3600 * MICRO + 9)))).
Proof.
  assert (F : Forall clean_call ten_calls).
  { apply Forall_map, Forall_forall. intros; apply plain_call_clean. }
  assert (Sorted : StronglySorted (fun a b => (at_log a <= at_log b)%Z)
                                  ten_calls).
  { unfold ten_calls. simpl.
    repeat (constructor; [|repeat (constructor; [simpl; lia|])]);
      constructor. }
  assert (W11 : Forall (fun c => (at_check (plain_call 10) - at_log c
                                < 3600 * MICRO)%Z) ten_calls).
{ unfold ten_calls. apply Forall_map, Forall_forall. intros i Hi.
  apply in_seq in Hi. cbn [plain_call at_check at_log]. unfold MICRO. lia. }
assert (W12 : Forall (fun c => (3600 * MICRO
                                <= at_check (plain_call (3600 * MICRO + 9))
                                   - at_log c)%Z) ten_calls).
{ unfold ten_calls. apply Forall_map, Forall_forall. intros i Hi.
  apply in_seq in Hi. cbn [plain_call at_check at_log]. unfold MICRO. lia. }
pose proof (@email_rate_limit_window ten_calls (plain_call 10)
                (plain_call (3600 * MICRO + 9)) eq_refl F
                (plain_call_clean 10)
                (plain_call_clean (3600 * MICRO + 9)) Sorted W11 W12)
    as (_ & H1 & _ & _ & _ & _ & _ & H2).
  split; [reflexivity|]. split; [exact F|]. split; [exact H1|exact H2].
Defined.

End RateLimitFacts.

(* ================================================================== *)
(** * Properties of the JSON extraction *)
(* ================================================================== *)

Section TextFacts.
Import PyStr Re ReSemantics Utils UtilsVocabulary.

Lemma subseq_refl (t : str) : subseq t t.
Proof. induction t; constructor; assumption. Qed.

Lemma subseq_trans (a b c : str) : subseq a b -> subseq b c -> subseq a c.
Proof.
  intros Hab Hbc. revert a Hab.
  induction Hbc as [|x s t _ IH|x s t _ IH]; intros a Hab.
  - exact Hab.
  - constructor. now apply IH.
  - inversion Hab; subst.
    + apply subseq_skip. now apply IH.
    + apply subseq_keep. now apply IH.
Qed.

Lemma subseq_app (a a' b b' : str) :
  subseq a a' -> subseq b b' -> subseq (a ++ b) (a' ++ b').
Proof.
  intros Ha Hb. induction Ha; simpl; try constructor; assumption.
Qed.

Lemma subseq_drop (m t : str) : subseq t (m ++ t).
Proof.
  induction m; simpl; [apply subseq_refl|now constructor].
Qed.

Lemma subseq_nil_l (t : str) : subseq [] t.
Proof. induction t; constructor; assumption. Qed.

Lemma subseq_rev (a b : str) : subseq a b -> subseq (rev a) (rev b).
Proof.
  induction 1 as [|x s t _ IH|x s t _ IH]; simpl.
  - constructor.
  - rewrite <- (app_nil_r (rev s)).
    apply subseq_app; [exact IH|apply subseq_nil_l].
  - apply subseq_app; [exact IH|apply subseq_refl].
Qed.

Lemma subseq_has_char c (a b : str) :
  subseq a b -> has_char c b = false -> has_char c a = false.
Proof.
  unfold has_char. induction 1 as [|x s t _ IH|x s t _ IH]; simpl; intros H.
  - reflexivity.
  - apply orb_false_iff in H. now apply IH.
  - apply orb_false_iff in H. destruct H as [-> H]. now apply IH.
Qed.

Lemma subseq_pair_free (a b : str) :
  subseq a b -> pair_free b = true -> pair_free a = true.
Proof.
  induction 1 as [|x s t Hs IH|x s t Hs IH]; cbn [pair_free]; intros H.
  - reflexivity.
  - destruct (ascii_eqb LBRACE x); [|now apply IH].
    apply negb_true_iff in H.
    pose proof (subseq_has_char RBRACE Hs H) as N.
    clear - N. induction s as [|y s IHs]; cbn [pair_free]; [reflexivity|].
    unfold has_char in N. cbn [existsb] in N. apply orb_false_iff in N.
    destruct N as [_ N]. destruct (ascii_eqb LBRACE y).
    + apply negb_true_iff. exact N.
    + now apply IHs.
  - destruct (ascii_eqb LBRACE x); [|now apply IH].
    apply negb_true_iff in H. apply negb_true_iff.
    exact (subseq_has_char RBRACE Hs H).
Qed.

Lemma lstrip_subseq (t : str) : subseq (lstrip t) t.
Proof.
  induction t as [|c t IH]; simpl; [constructor|].
  destruct (is_space c); [now constructor|apply subseq_refl].
Qed.

Lemma strip_subseq (t : str) : subseq (strip t) t.
Proof.
  unfold strip, rstrip.
  eapply subseq_trans; [|apply lstrip_subseq].
  rewrite <- (rev_involutive (lstrip t)) at 2.
  apply subseq_rev, lstrip_subseq.
Qed.

Lemma lstrip_app (pre rest : str) (c : ascii) :
  is_space c = false ->
  lstrip (pre ++ c :: rest) = lstrip pre ++ c :: rest.
Proof.
  intros Hc. induction pre as [|x pre IH]; simpl.
  - now rewrite Hc.
  - destruct (is_space x); [exact IH|reflexivity].
Qed.

End TextFacts.

Section SubstitutionFacts.
Import PyStr Re ReSemantics Utils UtilsVocabulary.
Variable fl : flags.
Variable r : re.

Lemma match_here_consumed p t rest :
  match_here fl r p t = Some rest ->
  exists c, t = c ++ rest /\ Forall (fun x => accepts fl r x = true) c.
Proof.
  intros H. apply match_here_sound in H. destruct H as (p' & H).
  apply matches_consumes in H. destruct H as (c & -> & _ & F). eauto.
Qed.

(** [re.sub] with an empty replacement only leaves characters out. *)
Lemma sub_loop_subseq : forall fuel p t, subseq (sub_loop fl fuel r p t) t.
Proof.
  induction fuel as [|fuel IH]; intros p t; simpl; [apply subseq_refl|].
  destruct (find_from fl r p t) as [[[sk m] rest]|] eqn:F;
    [|apply subseq_refl].
  apply find_from_sound in F. destruct F as (-> & _ & _).
  apply subseq_app; [apply subseq_refl|].
  destruct m as [|x m]; [destruct rest as [|c rest]|].
  - apply subseq_refl.
  - simpl. apply subseq_keep, IH.
  - eapply subseq_trans; [apply IH|apply subseq_drop].
Qed.

Lemma sub_empty_subseq t : subseq (sub_empty fl r t) t.
Proof. apply sub_loop_subseq. Qed.

(** ** A pattern that cannot touch the object *)

Variable J : str.
Hypothesis J_opens : exists J', J = LBRACE :: J'.
Hypothesis no_brace : accepts fl r LBRACE = false.
Hypothesis progress :
  forall p t rest, match_here fl r p t = Some rest -> length rest < length t.
Hypothesis not_inside :
  forall p a b tail,
    J = a ++ b -> b <> [] ->
    match_here fl r (last_of p a) (b ++ tail) = None.

Lemma no_brace_in_match p t rest :
  match_here fl r p t = Some rest ->
  exists c, t = c ++ rest /\ has_char LBRACE c = false.
Proof.
  intros H. apply match_here_consumed in H. destruct H as (c & -> & F).
  exists c. split; [reflexivity|].
  now apply (has_char_rejected (accepts fl r)).
Qed.

Lemma has_char_head c (t : str) : has_char c (c :: t) = true.
Proof.
  unfold has_char, ascii_eqb. cbn [existsb]. now rewrite Ascii.eqb_refl.
Qed.

Lemma sub_loop_around : forall fuel p t,
  around J t -> around J (sub_loop fl fuel r p t).
Proof.
  induction fuel as [|fuel IH]; intros p t A; cbn [sub_loop]; [exact A|].
  destruct (find_from fl r p t) as [[[sk m] rest]|] eqn:F; [|exact A].
  apply find_from_sound in F. destruct F as (St & Hm & _).
  destruct A as (pre & post & -> & Hpre & Hpost).
  pose proof (progress _ _ Hm) as Lt.
  destruct (no_brace_in_match _ _ Hm) as (c & Ec & Hc).
  apply app_inv_tail in Ec. subst c.
  destruct m as [|x m']; [simpl in Lt; lia|].
  cbv iota. set (m := x :: m') in *. clearbody m.
  destruct J_opens as (J' & EJ).
  apply app_eq_app in St. destruct St as (l & [[E1 E2] | [E1 E2]]).
  - (* the match starts before the object *)
    subst pre. rewrite has_char_app in Hpre.
    apply orb_false_iff in Hpre. destruct Hpre as [Hsk Hl].
    assert (R : exists l2, rest = l2 ++ J ++ post /\
                           has_char LBRACE l2 = false).
    { apply app_eq_app in E2. destruct E2 as (l2 & [[E3 E4] | [E3 E4]]).
      - destruct l2 as [|z l2'].
        + exists []. split; [now rewrite E4|reflexivity].
        + exfalso. rewrite EJ in E4. injection E4 as <- _.
          rewrite E3, has_char_app, has_char_head, orb_true_r in Hc.
          discriminate.
      - exists l2. split; [exact E4|].
        rewrite E3, has_char_app in Hl. apply orb_false_iff in Hl. tauto. }
    destruct R as (l2 & -> & Hl2).
    destruct (IH (last_of p (sk ++ m)) (l2 ++ J ++ post))
      as (pre' & post' & E & P1 & P2).
    { exists l2, post. auto. }
    rewrite E. exists (sk ++ pre'), post'. rewrite <- app_assoc.
    split; [reflexivity|]. split; [|exact P2].
    rewrite has_char_app, Hsk, P1. reflexivity.
  - (* the match starts at or after the first character of the object *)
    assert (R : exists l2, sk = pre ++ J ++ l2 /\ post = l2 ++ m ++ rest).
    { apply app_eq_app in E2. destruct E2 as (l2 & [[E3 E4] | [E3 E4]]).
      - destruct l2 as [|z l2'].
        + exists []. rewrite app_nil_r in E3. rewrite E1, E3, app_nil_r.
          split; [reflexivity|symmetry; exact E4].
        + exfalso.
          pose proof (@not_inside (last_of p pre) l (z :: l2') post E3) as N.
          rewrite <- last_of_app, <- E1, <- E4, Hm in N.
          discriminate N. discriminate.
      - exists l2. rewrite E1, E3. auto. }
    destruct R as (l2 & -> & ->).
    exists pre, (l2 ++ sub_loop fl fuel r
                         (last_of p ((pre ++ J ++ l2) ++ m)) rest).
    rewrite <- !app_assoc. split; [reflexivity|]. split; [exact Hpre|].
    eapply subseq_has_char; [|exact Hpost].
    apply subseq_app; [apply subseq_refl|].
    eapply subseq_trans; [apply sub_loop_subseq|apply subseq_drop].
Qed.

Lemma sub_empty_around t : around J t -> around J (sub_empty fl r t).
Proof. apply sub_loop_around. Qed.

End SubstitutionFacts.

Section FenceFacts.
Import PyStr Re ReSemantics Utils UtilsVocabulary.

Lemma matches_cat fl r1 r2 p t p' t' :
  matches fl (Cat r1 r2) p t p' t' ->
  exists p1 t1, matches fl r1 p t p1 t1 /\ matches fl r2 p1 t1 p' t'.
Proof. intros H. exact H. Qed.

Lemma matches_length fl r p t p' t' :
  matches fl r p t p' t' -> length t' <= length t.
Proof.
  intros H. apply matches_consumes in H. destruct H as (c & -> & _).
  rewrite length_app. lia.
Qed.

Lemma matches_lit fl c p t p' t' :
  ignorecase fl = false ->
  matches fl (Lit c) p t p' t' -> t = c :: t'.
Proof.
  intros Hi (x & -> & _ & Hx). unfold lit_matches in Hx.
  rewrite Hi, orb_false_r in Hx. apply Ascii.eqb_eq in Hx. now subst.
Qed.

(** A match of the opening fence starts at the beginning of a line, on a
    backtick. *)
Lemma open_fence_start p t rest :
  match_here MULTILINE open_fence_re p t = Some rest ->
  at_bol MULTILINE p = true /\
  exists t', t = BACKTICK :: t' /\ length rest <= length t'.
Proof.
  intros H. apply match_here_sound in H. destruct H as (p' & H).
  unfold open_fence_re, Seq in H.
  apply matches_cat in H. destruct H as (p1 & t1 & (-> & -> & B) & H).
  split; [exact B|].
  apply matches_cat in H. destruct H as (p2 & t2 & H2 & H).
  apply matches_length in H.
  change (Str [BACKTICK; BACKTICK; BACKTICK])
    with (Cat (Lit BACKTICK) (Cat (Lit BACKTICK) (Lit BACKTICK))) in H2.
  apply matches_cat in H2. destruct H2 as (p3 & t3 & H3 & H2).
  apply matches_length in H2.
  apply matches_lit in H3; [|reflexivity].
  exists t3. split; [exact H3|lia].
Qed.

(** A match of the closing fence starts on a newline followed by a
    backtick. *)
Lemma close_fence_start p t rest :
  match_here MULTILINE close_fence_re p t = Some rest ->
  exists t', t = NL :: BACKTICK :: t' /\ length rest <= length t'.
Proof.
  intros H. apply match_here_sound in H. destruct H as (p' & H).
  unfold close_fence_re, Seq in H.
  apply matches_cat in H. destruct H as (p1 & t1 & H1 & H).
  apply matches_lit in H1; [|reflexivity].
  apply matches_cat in H. destruct H as (p2 & t2 & H2 & H).
  apply matches_length in H.
  change (Str [BACKTICK; BACKTICK; BACKTICK])
    with (Cat (Lit BACKTICK) (Cat (Lit BACKTICK) (Lit BACKTICK))) in H2.
  apply matches_cat in H2. destruct H2 as (p3 & t3 & H3 & H2).
  apply matches_length in H2.
  apply matches_lit in H3; [|reflexivity].
  exists t3. subst t t1. split; [reflexivity|lia].
Qed.

Lemma starts_with_app (sub b : str) : starts_with sub (sub ++ b) = true.
Proof.
  induction sub as [|x sub IH]; [reflexivity|].
  cbn [app starts_with]. unfold ascii_eqb. now rewrite Ascii.eqb_refl.
Qed.

Lemma contains_middle (sub a b : str) : contains sub (a ++ sub ++ b) = true.
Proof.
  induction a as [|x a IH].
  - destruct (sub ++ b) eqn:E; cbn [app contains]; rewrite <- E;
      now rewrite starts_with_app.
  - cbn [app contains]. rewrite IH. apply orb_true_r.
Qed.

Lemma last_of_is_last p (a : str) (x : ascii) :
  a <> [] -> last_of p a = Some x -> exists a0, a = a0 ++ [x].
Proof.
  intros Ha H. unfold last_of in H.
  destruct (rev a) as [|y ra] eqn:E.
  - apply (f_equal (@rev ascii)) in E. rewrite rev_involutive in E.
    contradiction.
  - injection H as ->. exists (rev ra).
    rewrite <- (rev_involutive a), E. reflexivity.
Qed.

Lemma at_bol_some (x : ascii) : at_bol MULTILINE (Some x) = true -> x = NL.
Proof.
  unfold at_bol. intros H. apply andb_true_iff in H. destruct H as [_ H].
  apply Ascii.eqb_eq in H. exact H.
Qed.

Section Object.
Variable J : str.
Hypothesis HJ : object_text J.

Lemma object_opens : exists J', J = LBRACE :: J'.
Proof. destruct HJ as [(mid & ->) _]. eauto. Qed.

Lemma no_fence_line_split (a b : str) : J <> a ++ [NL; BACKTICK] ++ b.
Proof.
  intros E. destruct HJ as [_ H]. rewrite E, contains_middle in H.
  discriminate.
Qed.

Lemma open_fence_not_inside p a b tail :
  J = a ++ b -> b <> [] ->
  match_here MULTILINE open_fence_re (last_of p a) (b ++ tail) = None.
Proof.
  intros E Hb.
  destruct (match_here MULTILINE open_fence_re (last_of p a) (b ++ tail))
    as [rest|] eqn:M; [exfalso|reflexivity].
  apply open_fence_start in M. destruct M as (B & t' & Et & _).
  destruct b as [|y b']; [contradiction|].
  injection Et as -> _.
  destruct a as [|x a'].
  - destruct object_opens as (J' & EJ). rewrite EJ in E. discriminate E.
  - destruct (last_of p (x :: a')) as [z|] eqn:L.
    + apply at_bol_some in B. subst z.
      apply last_of_is_last in L; [|discriminate].
      destruct L as (a0 & L). rewrite L, <- app_assoc in E.
      exact (no_fence_line_split a0 b' E).
    + unfold last_of in L. destruct (rev (x :: a')) eqn:R; [|discriminate].
      apply (f_equal (@rev ascii)) in R. rewrite rev_involutive in R.
      discriminate R.
Qed.

Lemma close_fence_not_inside p a b tail :
  J = a ++ b -> b <> [] ->
  match_here MULTILINE close_fence_re (last_of p a) (b ++ tail) = None.
Proof.
  intros E Hb.
  destruct (match_here MULTILINE close_fence_re (last_of p a) (b ++ tail))
    as [rest|] eqn:M; [exfalso|reflexivity].
  apply close_fence_start in M. destruct M as (t' & Et & _).
  destruct b as [|y [|z b']]; [contradiction| |].
  - injection Et as -> _.
    destruct HJ as [(mid & EJ) _]. rewrite EJ in E.
    change (LBRACE :: mid ++ [RBRACE]) with ((LBRACE :: mid) ++ [RBRACE]) in E.
    apply app_inj_tail in E. destruct E as [_ E]. discriminate E.
  - injection Et as -> -> _.
    exact (no_fence_line_split a b' E).
Qed.

Lemma open_fence_progress p t rest :
  match_here MULTILINE open_fence_re p t = Some rest ->
  length rest < length t.
Proof.
  intros H. apply open_fence_start in H.
  destruct H as (_ & t' & -> & L). simpl. lia.
Qed.

Lemma close_fence_progress p t rest :
  match_here MULTILINE close_fence_re p t = Some rest ->
  length rest < length t.
Proof.
  intros H. apply close_fence_start in H.
  destruct H as (t' & -> & L). simpl. lia.
Qed.

(** Removing the fences leaves the object where it is. *)
Lemma fences_around t :
  around J t ->
  around J (sub_empty MULTILINE close_fence_re
              (sub_empty MULTILINE open_fence_re t)).
Proof.
  intros A.
  apply sub_empty_around.
  - exact object_opens.
  - reflexivity.
  - exact close_fence_progress.
  - exact close_fence_not_inside.
  - apply sub_empty_around.
    + exact object_opens.
    + reflexivity.
    + exact open_fence_progress.
    + exact open_fence_not_inside.
    + exact A.
Qed.

End Object.

End FenceFacts.

Unset Implicit Arguments.

Section ObjectSearchFacts.
Import PyStr Re ReSemantics Json Utils UtilsVocabulary.

Lemma rstrip_subseq (t : str) : subseq (rstrip t) t.
Proof.
  unfold rstrip. rewrite <- (rev_involutive t) at 2.
  apply subseq_rev, lstrip_subseq.
Qed.

Lemma strip_around (J : str) (t : str) :
  object_text J -> around J t -> around J (strip t).
Proof.
  intros [(mid & EJ) _] (pre & post & -> & Hpre & Hpost).
  exists (lstrip pre), (rstrip post).
  split; [|split].
  - unfold strip, rstrip. rewrite EJ.
    change ((LBRACE :: mid ++ [RBRACE]) ++ post)
      with (LBRACE :: (mid ++ [RBRACE]) ++ post).
    rewrite lstrip_app by reflexivity.
    rewrite !rev_app_distr.
    change (rev (LBRACE :: (mid ++ [RBRACE]) ++ post))
      with (rev ((LBRACE :: mid ++ [RBRACE]) ++ post)).
    rewrite rev_app_distr.
    change (LBRACE :: mid ++ [RBRACE])
      with ((LBRACE :: mid) ++ [RBRACE]) at 1.
    rewrite (rev_app_distr (LBRACE :: mid) [RBRACE]).
    change (rev [RBRACE]) with [RBRACE].
    rewrite <- !app_assoc. change ([RBRACE] ++ ?x) with (RBRACE :: x).
    rewrite lstrip_app by reflexivity.
    rewrite !rev_app_distr.
    change (rev (RBRACE :: rev (LBRACE :: mid) ++ rev (lstrip pre)))
      with (rev (rev (LBRACE :: mid) ++ rev (lstrip pre)) ++ [RBRACE]).
    rewrite rev_app_distr, !rev_involutive.
    cbn [app]. rewrite <- !app_assoc. reflexivity.
  - eapply subseq_has_char; [apply lstrip_subseq|exact Hpre].
  - eapply subseq_has_char; [apply rstrip_subseq|exact Hpost].
Qed.

(** ** The object pattern *)

Lemma closing_brace_other p (c : ascii) (t : str) :
  ascii_eqb RBRACE c = false -> closing_brace p (c :: t) = None.
Proof.
  intros H. unfold closing_brace. cbn [run one_char].
  unfold lit_matches. rewrite H. reflexivity.
Qed.

Lemma closing_brace_here p (t : str) : closing_brace p (RBRACE :: t) = Some t.
Proof. reflexivity. Qed.

Lemma dots_step fuel p (c : ascii) (t : str) :
  dots (S fuel) p (c :: t) closing_brace
  = or_else (dots fuel (Some c) t closing_brace) (closing_brace p (c :: t)).
Proof.
  unfold dots. cbn [star_loop run one_char].
  change (dot_matches DOTALL c) with true. cbv iota.
  replace (length t <? length (c :: t)) with true; [reflexivity|].
  symmetry. apply Nat.ltb_lt. simpl. lia.
Qed.

Lemma dots_nil fuel p : dots fuel p [] closing_brace = None.
Proof. destruct fuel; reflexivity. Qed.

(** Without a right brace the rest of the pattern fails. *)
Lemma dots_none : forall t fuel p,
  has_char RBRACE t = false -> dots fuel p t closing_brace = None.
Proof.
  induction t as [|c t IH]; intros fuel p H; [apply dots_nil|].
  unfold has_char in H. cbn [existsb] in H. apply orb_false_iff in H.
  destruct H as [Hc Ht]. destruct fuel as [|fuel].
  - unfold dots. cbn [star_loop]. now apply closing_brace_other.
  - rewrite dots_step, (IH fuel (Some c) Ht).
    cbn [or_else]. now apply closing_brace_other.
Qed.

(** The greedy [.*] gives way up to the last right brace. *)
Lemma dots_last : forall a fuel p post,
  has_char RBRACE post = false ->
  length (a ++ RBRACE :: post) < fuel ->
  dots fuel p (a ++ RBRACE :: post) closing_brace = Some post.
Proof.
  induction a as [|c a IH]; intros fuel p post H L;
    (destruct fuel as [|fuel]; [lia|]); cbn [app].
  - rewrite dots_step, (dots_none post fuel (Some RBRACE) H).
    reflexivity.
  - rewrite dots_step, (IH fuel (Some c) post H); [reflexivity|].
    simpl in L. lia.
Qed.

Lemma object_match p (mid post : str) :
  has_char RBRACE post = false ->
  match_here DOTALL object_re p ((LBRACE :: mid ++ [RBRACE]) ++ post)
  = Some post.
Proof.
  intros H. unfold match_here, object_re, Seq.
  cbn [app run one_char].
  change (lit_matches DOTALL LBRACE LBRACE) with true. cbv iota.
  unfold star_of. fold (dots (S (length ((mid ++ [RBRACE]) ++ post)))).
  change (fun prev' t' => run DOTALL (Lit RBRACE) prev' t'
                              (fun _ t'0 => Some t'0))
    with closing_brace.
  rewrite <- app_assoc. apply dots_last; [exact H|]. cbn [app]. lia.
Qed.

Lemma object_needs_brace p (c : ascii) (t : str) :
  ascii_eqb LBRACE c = false ->
  match_here DOTALL object_re p (c :: t) = None.
Proof.
  intros H. unfold match_here, object_re, Seq. cbn [run one_char].
  unfold lit_matches. rewrite H. reflexivity.
Qed.

Lemma object_needs_text p : match_here DOTALL object_re p [] = None.
Proof. reflexivity. Qed.

Lemma find_object : forall pre p (mid post : str),
  has_char LBRACE pre = false -> has_char RBRACE post = false ->
  find_from DOTALL object_re p
            (pre ++ (LBRACE :: mid ++ [RBRACE]) ++ post)
  = Some (pre, LBRACE :: mid ++ [RBRACE], post).
Proof.
  induction pre as [|c pre IH]; intros p mid post Hpre Hpost.
  - cbn [app find_from].
    pose proof (object_match p mid post Hpost) as M. cbn [app] in M.
    rewrite M.
    change (LBRACE :: (mid ++ [RBRACE]) ++ post)
      with ((LBRACE :: mid ++ [RBRACE]) ++ post).
    now rewrite consumed_app.
  - unfold has_char in Hpre. cbn [existsb] in Hpre.
    apply orb_false_iff in Hpre. destruct Hpre as [Hc Hpre].
    change ((c :: pre) ++ (LBRACE :: mid ++ [RBRACE]) ++ post)
      with (c :: pre ++ (LBRACE :: mid ++ [RBRACE]) ++ post).
    cbn [find_from]. rewrite (object_needs_brace p c _ Hc).
    now rewrite (IH (Some c) mid post Hpre Hpost).
Qed.

(** Around an object the search returns the object. *)
Lemma search_around (J t : str) :
  object_text J -> around J t -> search DOTALL object_re t = Some J.
Proof.
  intros [(mid & ->) _] (pre & post & -> & Hpre & Hpost).
  unfold search. now rewrite find_object.
Qed.

Lemma pair_free_split (a b c : str) :
  pair_free (a ++ LBRACE :: b ++ RBRACE :: c) = false.
Proof.
  assert (H : has_char RBRACE (b ++ RBRACE :: c) = true).
  { rewrite has_char_app. unfold has_char at 2. cbn [existsb].
    unfold ascii_eqb. rewrite Ascii.eqb_refl. apply orb_true_r. }
  induction a as [|x a IH]; cbn [app pair_free].
  - change (ascii_eqb LBRACE LBRACE) with true. cbv iota. now rewrite H.
  - destruct (ascii_eqb LBRACE x); [|exact IH].
    rewrite has_char_app.
    change (has_char RBRACE (LBRACE :: b ++ RBRACE :: c))
      with (has_char RBRACE (b ++ RBRACE :: c)).
    now rewrite H, orb_true_r.
Qed.

(** Without a pair of braces the search finds nothing. *)
Lemma search_pair_free (t : str) :
  pair_free t = true -> search DOTALL object_re t = None.
Proof.
  intros H. unfold search.
  destruct (find_from DOTALL object_re None t) as [[[sk m] rest]|] eqn:F;
    [exfalso|reflexivity].
  apply find_from_sound in F. destruct F as (-> & M & _).
  apply match_here_sound in M. destruct M as (p' & M).
  unfold object_re, Seq in M.
  apply matches_cat in M. destruct M as (p1 & t1 & M1 & M).
  apply matches_lit in M1; [|reflexivity].
  apply matches_cat in M. destruct M as (p2 & t2 & M2 & M3).
  apply matches_lit in M3; [|reflexivity].
  apply matches_consumes in M2. destruct M2 as (c & E & _).
  rewrite M1, E, M3, pair_free_split in H. discriminate.
Qed.

End ObjectSearchFacts.

Section JsonTextFacts.
Import PyStr Re Json Utils UtilsVocabulary JsonVocabulary.

Lemma code_inj (a b : ascii) : code a = code b -> a = b.
Proof.
  unfold code. intros H.
  rewrite <- (ascii_nat_embedding a), <- (ascii_nat_embedding b).
  now rewrite H.
Qed.

Lemma not_tick (x : ascii) : code x <> 96 -> ascii_eqb BACKTICK x = false.
Proof.
  intros H. unfold ascii_eqb. destruct (Ascii.eqb BACKTICK x) eqn:E;
    [|reflexivity].
  apply Ascii.eqb_eq in E. subst x. now contradict H.
Qed.

Lemma not_newline (x : ascii) : code x <> 10 -> ascii_eqb NL x = false.
Proof.
  intros H. unfold ascii_eqb. destruct (Ascii.eqb NL x) eqn:E;
    [|reflexivity].
  apply Ascii.eqb_eq in E. subst x. now contradict H.
Qed.

Lemma starts_tick (x : ascii) (t : str) :
  starts_with [BACKTICK] (x :: t) = ascii_eqb BACKTICK x.
Proof. cbn [starts_with]. apply andb_true_r. Qed.

Lemma starts_fence (x : ascii) (t : str) :
  starts_with [NL; BACKTICK] (x :: t)
  = ascii_eqb NL x && starts_with [BACKTICK] t.
Proof. reflexivity. Qed.

Lemma contains_fence_cons (x : ascii) (t : str) :
  contains [NL; BACKTICK] (x :: t)
  = starts_with [NL; BACKTICK] (x :: t) || contains [NL; BACKTICK] t.
Proof. reflexivity. Qed.

Lemma contains_fence_nil : contains [NL; BACKTICK] [] = false.
Proof. reflexivity. Qed.

(** Two texts without fence line, the second of which does not start
    with a backtick, make a text without fence line. *)
Lemma fence_free_app : forall a b : str,
  contains [NL; BACKTICK] a = false ->
  contains [NL; BACKTICK] b = false ->
  starts_with [BACKTICK] b = false ->
  contains [NL; BACKTICK] (a ++ b) = false.
Proof.
  induction a as [|x a IH]; intros b Ha Hb Sb; [exact Hb|].
  rewrite contains_fence_cons in Ha. apply orb_false_iff in Ha.
  destruct Ha as [Hx Ha].
  cbn [app]. rewrite contains_fence_cons, (IH b Ha Hb Sb), orb_false_r.
  rewrite starts_fence in *.
  destruct (ascii_eqb NL x); [|reflexivity].
  cbn [andb] in *. destruct a as [|y a]; [exact Sb|].
  cbn [app]. rewrite starts_tick in *. exact Hx.
Qed.

Lemma safe_app (a b : str) : safe a -> safe b -> safe (a ++ b).
Proof.
  intros [Sa Ca] [Sb Cb]. split; [|now apply fence_free_app].
  destruct a as [|x a]; [exact Sb|].
  cbn [app]. now rewrite starts_tick in *.
Qed.

Lemma tick_free_safe (c : str) : tick_free c -> safe c.
Proof.
  induction 1 as [|x c Hx _ [S C]]; [split; reflexivity|].
  split.
  - rewrite starts_tick. now apply not_tick.
  - rewrite contains_fence_cons, C, orb_false_r, starts_fence, S.
    apply andb_false_r.
Qed.

Lemma line_free_fence_free (c : str) :
  line_free c -> contains [NL; BACKTICK] c = false.
Proof.
  induction 1 as [|x c Hx _ IH]; [reflexivity|].
  rewrite contains_fence_cons, IH, orb_false_r, starts_fence.
  now rewrite (not_newline x Hx).
Qed.

Lemma line_free_safe (x : ascii) (c : str) :
  code x <> 96 -> line_free (x :: c) -> safe (x :: c).
Proof.
  intros Hx L. split; [|now apply line_free_fence_free].
  rewrite starts_tick. now apply not_tick.
Qed.

Lemma safe_nil : safe [].
Proof. split; reflexivity. Qed.

(** ** Reading a prefix *)

Lemma reads_here (P : str -> Prop) (t : str) : P [] -> reads P t t.
Proof. intros H. exists []. auto. Qed.

Lemma reads_cons (P Q : str -> Prop) (x : ascii) (t r : str) :
  reads P t r -> (forall c, P c -> Q (x :: c)) -> reads Q (x :: t) r.
Proof.
  intros (c & -> & H) HQ. exists (x :: c). split; [reflexivity|auto].
Qed.

Lemma reads_then (P Q R : str -> Prop) (t u r : str) :
  reads P t u -> reads Q u r ->
  (forall a b, P a -> Q b -> R (a ++ b)) -> reads R t r.
Proof.
  intros (a & -> & Ha) (b & -> & Hb) HR. exists (a ++ b).
  rewrite <- app_assoc. auto.
Qed.

Lemma reads_weaken (P Q : str -> Prop) (t r : str) :
  reads P t r -> (forall c, P c -> Q c) -> reads Q t r.
Proof. intros (c & -> & H) HQ. exists c. auto. Qed.

Lemma reads_safe_then (t u r : str) :
  reads safe t u -> reads safe u r -> reads safe t r.
Proof. intros H1 H2. eapply reads_then; eauto using safe_app. Qed.

Lemma is_ws_code (c : ascii) : is_ws c = true -> code c <> 96 .
Proof.
  unfold is_ws. intros H E. rewrite E in H. discriminate H.
Qed.

Lemma is_digit_code (c : ascii) : is_digit c = true -> 48 <= code c <= 57.
Proof.
  unfold is_digit, between. intros H. apply andb_true_iff in H.
  destruct H as [H1 H2]. apply Nat.leb_le in H1, H2. lia.
Qed.

Lemma is_char_code (n : nat) (c : ascii) : is_char n c = true -> code c = n.
Proof. unfold is_char. apply Nat.eqb_eq. Qed.

Lemma skip_ws_reads (t : str) : reads tick_free t (skip_ws t).
Proof.
  induction t as [|c t IH]; cbn [skip_ws].
  - apply reads_here. constructor.
  - destruct (is_ws c) eqn:E.
    + eapply reads_cons; [exact IH|]. intros a Ha.
      constructor; [now apply is_ws_code|exact Ha].
    + apply reads_here. constructor.
Qed.

Lemma skip_ws_safe (t : str) : reads safe t (skip_ws t).
Proof.
  eapply reads_weaken; [apply skip_ws_reads|apply tick_free_safe].
Qed.

Lemma take_digits_reads (t : str) :
  reads tick_free t (snd (take_digits t)) /\
  exists c, t = c ++ snd (take_digits t) /\ c = fst (take_digits t).
Proof.
  induction t as [|c t [IH (d & E1 & E2)]]; cbn [take_digits].
  - split; [apply reads_here; constructor|]. exists []. auto.
  - destruct (is_digit c) eqn:E.
    + destruct (take_digits t) as [d' r] eqn:T. cbn [fst snd] in *.
      split.
      * eapply reads_cons; [exact IH|]. intros a Ha.
        constructor; [|exact Ha].
        apply is_digit_code in E. lia.
      * exists (c :: d'). subst d. split; [now rewrite E1 at 1|reflexivity].
    + cbn [fst snd]. split; [apply reads_here; constructor|].
      exists []. auto.
Qed.

Lemma reads_safe_refl (t : str) : reads safe t t.
Proof. apply reads_here, safe_nil. Qed.

Lemma reads_safe_char (x : ascii) (t r : str) :
  code x <> 96 -> reads safe t r -> reads safe (x :: t) r.
Proof.
  intros Hx (c & -> & Hc). exists ([x] ++ c). split; [reflexivity|].
  apply safe_app; [|exact Hc]. apply tick_free_safe. now repeat constructor.
Qed.

Lemma reads_safe_ws (t r : str) : reads safe (skip_ws t) r -> reads safe t r.
Proof. intros H. eapply reads_safe_then; [apply skip_ws_safe|exact H]. Qed.

Lemma reads_tick_char (x : ascii) (t r : str) :
  code x <> 96 -> reads tick_free t r -> reads tick_free (x :: t) r.
Proof.
  intros Hx H. eapply reads_cons; [exact H|].
  intros c Hc. now constructor.
Qed.

Lemma reads_tick_then (t u r : str) :
  reads tick_free t u -> reads tick_free u r -> reads tick_free t r.
Proof.
  intros H1 H2. eapply reads_then; eauto.
  intros a b Ha Hb. now apply Forall_app.
Qed.

Lemma reads_line_char (x : ascii) (t r : str) :
  code x <> 10 -> reads line_free t r -> reads line_free (x :: t) r.
Proof.
  intros Hx H. eapply reads_cons; [exact H|].
  intros c Hc. now constructor.
Qed.

Lemma take_digits_tick (t : str) (d r : str) :
  take_digits t = (d, r) -> reads tick_free t r.
Proof.
  intros E. destruct (take_digits_reads t) as [H _].
  now rewrite E in H.
Qed.

Lemma int_part_reads (t : str) neg d r :
  int_part t = Some (neg, d, r) -> reads tick_free t r.
Proof.
  unfold int_part. intros H.
  destruct t as [|c t']; [discriminate H|].
  destruct (is_char 45 c) eqn:M.
  - apply is_char_code in M. apply reads_tick_char; [lia|].
    destruct t' as [|c2 t2]; [discriminate H|].
    destruct (is_char 48 c2) eqn:Z.
    + injection H as _ _ <-. apply is_char_code in Z.
      apply reads_tick_char; [lia|]. apply reads_here. constructor.
    + destruct (is_digit c2); [|discriminate].
      destruct (take_digits (c2 :: t2)) as [d0 r0] eqn:T.
      injection H as _ _ <-. exact (take_digits_tick _ _ _ T).
  - destruct (is_char 48 c) eqn:Z.
    + injection H as _ _ <-. apply is_char_code in Z.
      apply reads_tick_char; [lia|]. apply reads_here. constructor.
    + destruct (is_digit c); [|discriminate].
      destruct (take_digits (c :: t')) as [d0 r0] eqn:T.
      injection H as _ _ <-. exact (take_digits_tick _ _ _ T).
Qed.

Lemma frac_part_reads (t : str) : reads tick_free t (snd (frac_part t)).
Proof.
  unfold frac_part. destruct t as [|c t']; [apply reads_here; constructor|].
  destruct (is_char 46 c) eqn:D; [|apply reads_here; constructor].
  destruct (take_digits t') as [[|x d] r] eqn:T;
    [apply reads_here; constructor|].
  cbn [snd]. apply is_char_code in D. apply reads_tick_char; [lia|].
  exact (take_digits_tick _ _ _ T).
Qed.

Lemma exp_part_reads (t : str) : reads tick_free t (snd (exp_part t)).
Proof.
  unfold exp_part. destruct t as [|c t']; [apply reads_here; constructor|].
  destruct (is_char 101 c || is_char 69 c) eqn:E;
    [|apply reads_here; constructor].
  assert (Hc : code c <> 96).
  { apply orb_true_iff in E. destruct E as [E|E]; apply is_char_code in E;
      lia. }
  destruct t' as [|x t''].
  - cbn [take_digits]. apply reads_here. constructor.
  - destruct (is_char 45 x || is_char 43 x) eqn:S.
    + destruct (take_digits t'') as [[|y d] r] eqn:T;
        [apply reads_here; constructor|].
      cbn [snd]. apply reads_tick_char; [exact Hc|].
      apply reads_tick_char.
      * apply orb_true_iff in S.
        destruct S as [S|S]; apply is_char_code in S; lia.
      * exact (take_digits_tick _ _ _ T).
    + destruct (take_digits (x :: t'')) as [[|y d] r] eqn:T;
        [apply reads_here; constructor|].
      cbn [snd]. apply reads_tick_char; [exact Hc|].
      exact (take_digits_tick _ _ _ T).
Qed.

Lemma number_reads (t : str) v r :
  number t = Some (v, r) -> reads tick_free t r.
Proof.
  unfold number. intros H.
  destruct (int_part t) as [[[neg d] r0]|] eqn:I; [|discriminate].
  apply int_part_reads in I.
  pose proof (frac_part_reads r0) as F.
  destruct (frac_part r0) as [f r1]. cbn [snd] in F.
  pose proof (exp_part_reads r1) as X.
  destruct (exp_part r1) as [e r2]. cbn [snd] in X.
  assert (R : r = r2) by (destruct f, e; injection H as _ <-; reflexivity).
  subst r. eapply reads_tick_then; [exact I|].
  eapply reads_tick_then; eassumption.
Qed.

Lemma starts_with_split (p t : str) :
  starts_with p t = true -> t = p ++ skipn (length p) t.
Proof.
  revert t. induction p as [|x p IH]; intros t H; [reflexivity|].
  destruct t as [|y t]; [discriminate H|].
  cbn [starts_with] in H. apply andb_true_iff in H. destruct H as [E H].
  apply Ascii.eqb_eq in E. subst y. cbn [length skipn app].
  now rewrite <- (IH t H).
Qed.

Lemma after_prefix_reads (p t r : str) :
  tick_free p -> after_prefix p t = Some r -> reads tick_free t r.
Proof.
  unfold after_prefix. intros Hp H.
  destruct (starts_with p t) eqn:S; [|discriminate].
  injection H as <-. exists p. split; [now apply starts_with_split|exact Hp].
Qed.

Lemma tick_free_check (c : str) :
  forallb (fun x => negb (code x =? 96)) c = true -> tick_free c.
Proof.
  intros H. apply Forall_forall. intros x Hx.
  rewrite forallb_forall in H. specialize (H x Hx).
  apply negb_true_iff, Nat.eqb_neq in H. exact H.
Qed.

Lemma literal_reads (t : str) v r :
  literal t = Some (v, r) -> reads tick_free t r.
Proof.
  unfold literal. intros H.
  destruct (after_prefix (py"null") t) eqn:E1.
  { injection H as _ <-.
    eapply after_prefix_reads; [|exact E1]. now apply tick_free_check. }
  destruct (after_prefix (py"true") t) eqn:E2.
  { injection H as _ <-.
    eapply after_prefix_reads; [|exact E2]. now apply tick_free_check. }
  destruct (after_prefix (py"false") t) eqn:E3.
  { injection H as _ <-.
    eapply after_prefix_reads; [|exact E3]. now apply tick_free_check. }
  destruct (number t) as [[v0 r0]|] eqn:N.
  { injection H as _ <-. exact (number_reads _ _ _ N). }
  destruct (after_prefix (py"NaN") t) eqn:E4.
  { injection H as _ <-.
    eapply after_prefix_reads; [|exact E4]. now apply tick_free_check. }
  destruct (after_prefix (py"Infinity") t) eqn:E5.
  { injection H as _ <-.
    eapply after_prefix_reads; [|exact E5]. now apply tick_free_check. }
  destruct (after_prefix (py"-Infinity") t) eqn:E6; [|discriminate].
  injection H as _ <-.
  eapply after_prefix_reads; [|exact E6]. now apply tick_free_check.
Qed.

Lemma hex_value_code (c : ascii) u : hex_value c = Some u -> code c <> 10.
Proof.
  unfold hex_value, is_digit, between. intros H E. rewrite E in H.
  discriminate H.
Qed.

Lemma hex4_reads (t : str) u r : hex4 t = Some (u, r) -> reads line_free t r.
Proof.
  unfold hex4. intros H.
  destruct t as [|a [|b [|c [|d t']]]]; try discriminate H.
  destruct (hex_value a) eqn:Ha; [|discriminate H].
  destruct (hex_value b) eqn:Hb; [|discriminate H].
  destruct (hex_value c) eqn:Hc; [|discriminate H].
  destruct (hex_value d) eqn:Hd; [|discriminate H].
  injection H as _ <-.
  exists [a; b; c; d]. split; [reflexivity|].
  repeat constructor; eapply hex_value_code; eassumption.
Qed.

Lemma escape_code (e : ascii) u : escape e = Some u -> code e <> 10.
Proof.
  unfold escape. intros H E. rewrite E in H. discriminate H.
Qed.

Lemma reads_line_then (t u r : str) :
  reads line_free t u -> reads line_free u r -> reads line_free t r.
Proof.
  intros H1 H2. eapply reads_then; eauto.
  intros a b Ha Hb. now apply Forall_app.
Qed.

(** The body of a string holds no raw newline. *)
Lemma scanstring_reads : forall fuel (t : str) acc chars r,
  scanstring fuel t acc = Some (chars, r) -> reads line_free t r.
Proof.
  induction fuel as [|fuel IH]; intros t acc chars r H;
    cbn [scanstring] in H; [discriminate H|].
  destruct t as [|c t']; [discriminate H|].
  destruct (is_char 34 c) eqn:Q.
  { injection H as _ <-. apply is_char_code in Q.
    apply reads_line_char; [lia|]. apply reads_here. constructor. }
  destruct (is_char 92 c) eqn:B.
  { apply is_char_code in B.
    apply reads_line_char; [lia|].
    destruct t' as [|e t'']; [discriminate H|].
    destruct (is_char 117 e) eqn:U.
    - apply is_char_code in U. apply reads_line_char; [lia|].
      destruct (hex4 t'') as [[u r1]|] eqn:X; [|discriminate H].
      apply hex4_reads in X. eapply reads_line_then; [exact X|].
      assert (P : forall o : option (list N * str),
                 o = Some (chars, r) ->
                 o = scanstring fuel r1 (u :: acc) -> reads line_free r1 r).
      { intros o E1 E2. rewrite E1 in E2. symmetry in E2.
        exact (IH _ _ _ _ E2). }
      destruct ((55296 <=? u)%N && (u <=? 56319)%N);
        [|exact (P _ H eq_refl)].
      destruct r1 as [|b [|v r']]; try exact (P _ H eq_refl).
      destruct (is_char 92 b && is_char 117 v) eqn:BV;
        [|exact (P _ H eq_refl)].
      destruct (hex4 r') as [[u2 r2]|] eqn:X2; [|exact (P _ H eq_refl)].
      destruct ((56320 <=? u2)%N && (u2 <=? 57343)%N);
        [|exact (P _ H eq_refl)].
      apply andb_true_iff in BV. destruct BV as [B1 B2].
      apply is_char_code in B1, B2.
      apply reads_line_char; [lia|]. apply reads_line_char; [lia|].
      apply hex4_reads in X2. eapply reads_line_then; [exact X2|].
      exact (IH _ _ _ _ H).
    - destruct (escape e) as [u|] eqn:E; [|discriminate H].
      apply reads_line_char; [exact (escape_code _ _ E)|].
      exact (IH _ _ _ _ H). }
  destruct (code c <? 32) eqn:C; [discriminate H|].
  apply Nat.ltb_ge in C. apply reads_line_char; [lia|].
  exact (IH _ _ _ _ H).
Qed.

(** A string token, the opening quote included. *)
Lemma string_token_safe (q : ascii) (t r : str) :
  is_char 34 q = true -> reads line_free t r -> reads safe (q :: t) r.
Proof.
  intros Q (c & -> & L). apply is_char_code in Q.
  exists (q :: c). split; [reflexivity|].
  apply line_free_safe; [lia|]. constructor; [lia|exact L].
Qed.

(** Whatever the scanner reads is free of fence lines. *)
Lemma scanner_reads : forall fuel,
  (forall (t : str) v r, scan_once fuel t = Some (v, r) -> reads safe t r) /\
  (forall (t : str) acc v r,
      items fuel t acc = Some (v, r) -> reads safe t r) /\
  (forall (t : str) acc v r,
      members fuel t acc = Some (v, r) -> reads safe t r).
Proof.
  induction fuel as [|fuel (IH1 & IH2 & IH3)].
  { repeat split; intros; discriminate. }
  split; [|split].
  - (* scan_once *)
    intros t v r H. cbn [scan_once] in H.
    destruct t as [|c t']; [discriminate H|].
    destruct (is_char 34 c) eqn:Q.
    { destruct (scanstring (S (length t')) t' []) as [[chars r0]|] eqn:S;
        [|discriminate H].
      injection H as _ <-.
      apply (string_token_safe c t' r0 Q).
      exact (scanstring_reads _ _ _ _ _ S). }
    destruct (is_char 123 c) eqn:O.
    { apply is_char_code in O. apply reads_safe_char; [lia|].
      apply reads_safe_ws.
      destruct (skip_ws t') as [|x r0]; [discriminate H|].
      destruct (is_char 125 x) eqn:Cl.
      - injection H as _ <-. apply is_char_code in Cl.
        apply reads_safe_char; [lia|]. apply reads_safe_refl.
      - exact (IH3 _ _ _ _ H). }
    destruct (is_char 91 c) eqn:A.
    { apply is_char_code in A. apply reads_safe_char; [lia|].
      apply reads_safe_ws.
      destruct (skip_ws t') as [|x r0]; [discriminate H|].
      destruct (is_char 93 x) eqn:Cl.
      - injection H as _ <-. apply is_char_code in Cl.
        apply reads_safe_char; [lia|]. apply reads_safe_refl.
      - exact (IH2 _ _ _ _ H). }
    eapply reads_weaken; [exact (literal_reads _ _ _ H)|].
    exact tick_free_safe.
  - (* items *)
    intros t acc v r H. cbn [items] in H.
    destruct (scan_once fuel t) as [[v0 r0]|] eqn:S; [|discriminate H].
    eapply reads_safe_then; [exact (IH1 _ _ _ S)|].
    apply reads_safe_ws.
    destruct (skip_ws r0) as [|x r1]; [discriminate H|].
    destruct (is_char 44 x) eqn:Co.
    + apply is_char_code in Co. apply reads_safe_char; [lia|].
      apply reads_safe_ws. exact (IH2 _ _ _ _ H).
    + destruct (is_char 93 x) eqn:Cl; [|discriminate H].
      injection H as _ <-. apply is_char_code in Cl.
      apply reads_safe_char; [lia|]. apply reads_safe_refl.
  - (* members *)
    intros t acc v r H. cbn [members] in H.
    destruct t as [|q t']; [discriminate H|].
    destruct (is_char 34 q) eqn:Q; [|discriminate H].
    destruct (scanstring (S (length t')) t' []) as [[key r0]|] eqn:S;
      [|discriminate H].
    eapply reads_safe_then.
    { apply (string_token_safe q t' r0 Q).
      exact (scanstring_reads _ _ _ _ _ S). }
    apply reads_safe_ws.
    destruct (skip_ws r0) as [|colon r1]; [discriminate H|].
    destruct (is_char 58 colon) eqn:Cn; [|discriminate H].
    apply is_char_code in Cn. apply reads_safe_char; [lia|].
    apply reads_safe_ws.
    destruct (scan_once fuel (skip_ws r1)) as [[v0 r2]|] eqn:W;
      [|discriminate H].
    eapply reads_safe_then; [exact (IH1 _ _ _ W)|].
    apply reads_safe_ws.
    destruct (skip_ws r2) as [|x r3]; [discriminate H|].
    destruct (is_char 44 x) eqn:Co.
    + apply is_char_code in Co. apply reads_safe_char; [lia|].
      apply reads_safe_ws. exact (IH3 _ _ _ _ H).
    + destruct (is_char 125 x) eqn:Cl; [|discriminate H].
      injection H as _ <-. apply is_char_code in Cl.
      apply reads_safe_char; [lia|]. apply reads_safe_refl.
Qed.

(** In a text that [loads] accepts no line begins with a backtick. *)
Lemma loads_fence_free (J : str) v :
  loads J = Returned v -> contains [NL; BACKTICK] J = false.
Proof.
  unfold loads. intros H.
  destruct (scan_once (2 * length J + 2) (skip_ws J)) as [[v0 r]|] eqn:S;
    [|discriminate H].
  destruct (skip_ws r) as [|x r'] eqn:W; [|discriminate H].
  apply (proj1 (scanner_reads _)) in S.
  assert (R : reads safe J []).
  { apply reads_safe_ws. eapply reads_safe_then; [exact S|].
    apply reads_safe_ws. rewrite W. apply reads_safe_refl. }
  destruct R as (c & -> & [_ C]). now rewrite app_nil_r.
Qed.

Lemma loads_is_decoder : decoder loads.
Proof. split; [reflexivity|exact loads_fence_free]. Qed.

End JsonTextFacts.

Section ExtractFacts.
Import PyStr Re Json Utils UtilsVocabulary JsonVocabulary.
Variable V : Type.
Variable json_loads : str -> outcome V.

Lemma candidate_around (J t : str) :
  object_text J -> around J t -> candidate t = J.
Proof.
  intros HJ A. unfold candidate.
  rewrite (search_around J); [reflexivity|exact HJ|].
  apply strip_around; [exact HJ|].
  apply fences_around; [exact HJ|].
  apply strip_around; assumption.
Qed.

Lemma rfind_last (c : ascii) (a : str) :
  str_rfind c (a ++ [c]) = Some (length a).
Proof.
  induction a as [|x a IH]; cbn [app str_rfind length].
  - unfold ascii_eqb. now rewrite Ascii.eqb_refl.
  - now rewrite IH.
Qed.

Lemma rfind_none (c : ascii) (t : str) :
  has_char c t = false -> str_rfind c t = None.
Proof.
  unfold has_char. induction t as [|x t IH]; cbn [existsb str_rfind];
    [reflexivity|].
  intros H. apply orb_false_iff in H. destruct H as [Hx Ht].
  now rewrite (IH Ht), Hx.
Qed.

(** Once the candidate is the object, the result is the decoder's. *)
Lemma extract_of_object (J t : str) :
  object_text J -> candidate t = J ->
  extract_json_from_response json_loads t = json_loads J.
Proof.
  intros [(mid & EJ) _] C. unfold extract_json_from_response. rewrite C.
  destruct (json_loads J) as [v|] eqn:E; [reflexivity|].
  assert (F : str_find LBRACE J = Some 0) by (rewrite EJ; reflexivity).
  assert (R : str_rfind RBRACE J = Some (length (LBRACE :: mid))).
  { rewrite EJ.
    change (LBRACE :: mid ++ [RBRACE]) with ((LBRACE :: mid) ++ [RBRACE]).
    apply rfind_last. }
  rewrite F, R. unfold slice. cbn [skipn].
  rewrite Nat.sub_0_r.
  replace (length (LBRACE :: mid) + 1) with (length J)
    by (rewrite EJ; cbn [length]; rewrite length_app; simpl; lia).
  now rewrite firstn_all.
Qed.

Lemma pair_free_order : forall (t : str) s e,
  pair_free t = true ->
  str_find LBRACE t = Some s -> str_rfind RBRACE t = Some e -> e < s.
Proof.
  induction t as [|c t IH]; intros s e P F R; [discriminate F|].
  cbn [pair_free str_find str_rfind] in P, F, R.
  destruct (ascii_eqb LBRACE c) eqn:Ec.
  - apply negb_true_iff in P. rewrite (rfind_none _ _ P) in R.
    apply Ascii.eqb_eq in Ec. subst c.
    change (ascii_eqb RBRACE LBRACE) with false in R. discriminate R.
  - destruct (str_find LBRACE t) as [s'|]; [|discriminate F].
    injection F as <-.
    destruct (str_rfind RBRACE t) as [e'|].
    + injection R as <-. specialize (IH s' e' P eq_refl eq_refl). lia.
    + destruct (ascii_eqb RBRACE c); [|discriminate R].
      injection R as <-. lia.
Qed.

Lemma cleaned_pair_free (t : str) :
  pair_free t = true -> pair_free (cleaned t) = true.
Proof.
  apply subseq_pair_free. unfold cleaned.
  eapply subseq_trans; [apply strip_subseq|].
  eapply subseq_trans; [apply sub_empty_subseq|].
  eapply subseq_trans; [apply sub_empty_subseq|].
  apply strip_subseq.
Qed.

(** Without a pair of braces the result is the decoder's on the cleaned
    text. *)
Lemma extract_pair_free (t : str) :
  json_loads [] = JSONDecodeError ->
  pair_free t = true ->
  extract_json_from_response json_loads t = json_loads (cleaned t).
Proof.
  intros Hempty P. apply cleaned_pair_free in P.
  unfold extract_json_from_response, candidate. fold (cleaned t).
  rewrite (search_pair_free _ P).
  destruct (json_loads (cleaned t)) as [v|] eqn:E; [reflexivity|].
  destruct (str_find LBRACE (cleaned t)) as [s0|] eqn:F; [|reflexivity].
  destruct (str_rfind RBRACE (cleaned t)) as [e|] eqn:R; [|reflexivity].
  pose proof (pair_free_order _ _ _ P F R) as L.
  unfold slice. replace (e + 1 - s0) with 0 by lia.
  cbn [firstn]. exact Hempty.
Qed.

Lemma around_intro (J pre post : str) :
  has_char LBRACE pre = false -> has_char RBRACE post = false ->
  around J (pre ++ J ++ post).
Proof. intros H1 H2. exists pre, post. auto. Qed.

(** C6, amended.  For a decoder that rejects the empty text and accepts
    no text with a line that begins with a backtick (as [json.loads]
    does):
    - a JSON object that the decoder accepts, written from its left brace
      to its right brace, preceded by text without a left brace and
      followed by text without a right brace, is recovered: the result is
      the decoder's value for the object;
    - in particular for such an object inside a fenced block, with or
      without the language tag, between two pieces of prose without
      braces;
    - for a text in which no left brace is followed by a right brace, the
      result is the decoder's result on the stripped text without its
      fences: a parse error exactly when that text is not a JSON
      document. *)
Theorem extract_json_from_response_recovers :
  decoder json_loads ->
  (forall (pre J post : str) (v : V),
      json_loads J = Returned v -> braced J ->
      has_char LBRACE pre = false -> has_char RBRACE post = false ->
      extract_json_from_response json_loads (pre ++ J ++ post)
      = Returned v)
  /\
  (forall (prose1 J prose2 fence : str) (v : V),
      json_loads J = Returned v -> braced J ->
      brace_free prose1 -> brace_free prose2 ->
      fence = fence_open_json \/ fence = fence_open_plain ->
      extract_json_from_response json_loads
        (prose1 ++ fence ++ J ++ fence_close ++ prose2)
      = Returned v)
  /\
  (forall t : str,
      pair_free t = true ->
      extract_json_from_response json_loads t = json_loads (cleaned t)).
Proof.
  intros [Hempty Hfence].
  assert (A : forall (pre J post : str) (v : V),
             json_loads J = Returned v -> braced J ->
             has_char LBRACE pre = false -> has_char RBRACE post = false ->
             extract_json_from_response json_loads (pre ++ J ++ post)
             = Returned v).
  { intros pre J post v HJ B H1 H2.
    assert (O : object_text J) by (split; [exact B|exact (Hfence J v HJ)]).
    rewrite <- HJ. apply extract_of_object; [exact O|].
    apply candidate_around; [exact O|].
    now apply around_intro. }
  split; [exact A|]. split.
  - intros prose1 J prose2 fence v HJ B [P1 _] [_ P2] Hf.
    replace (prose1 ++ fence ++ J ++ fence_close ++ prose2)
      with ((prose1 ++ fence) ++ J ++ (fence_close ++ prose2))
      by (now rewrite <- !app_assoc).
    apply A; [exact HJ|exact B| |].
    + rewrite has_char_app, P1.
      destruct Hf as [-> | ->]; reflexivity.
    + rewrite has_char_app, P2. reflexivity.
  - intros t P. now apply extract_pair_free.
Qed.

End ExtractFacts.

Section ExtractExamples.
Import PyStr Re Json Utils UtilsVocabulary JsonVocabulary.

(** C6, as it stands: a text without any brace that is a JSON document
    is returned, not refused; and prose that holds braces of its own
    hides the object behind it. *)
Lemma extract_json_counterexamples :
  (brace_free (py"[1, 2]") /\
   extract_json_from_response loads (py"[1, 2]")
   = Returned (JArray [JInt 1; JInt 2]))
  /\
  (loads (py"{}") = Returned (JObject []) /\
   extract_json_from_response loads (py"see {x}: " ++ py"{}")
   = JSONDecodeError).
Proof. repeat split. Qed.

Lemma extract_json_from_response_recovers_witness :
  decoder loads /\
  extract_json_from_response loads
    (py"Here: " ++ fence_open_json ++ py"{}" ++ fence_close ++ py" done")
  = Returned (JObject []) /\
  extract_json_from_response loads (py"no braces") = JSONDecodeError.
Proof.
  destruct (extract_json_from_response_recovers json loads loads_is_decoder)
    as (_ & F & P).
  split; [exact loads_is_decoder|]. split.
  - apply F; [reflexivity|exists []; reflexivity| | |left; reflexivity];
      split; reflexivity.
  - rewrite P; reflexivity.
Defined.

End ExtractExamples.

(* ================================================================== *)
(** * Further properties of the guardrails *)
(* ================================================================== *)

Section RateLimitIsolation.
Import PyStr Re Py Guardrails GuardrailsVocabulary GuardrailRuns.
Local Open Scope string_scope.
Local Open Scope list_scope.

Lemma filter_filter_and {A : Type} (f g : A -> bool) (l : list A) :
  filter (fun a => f a && g a) (filter f l) = filter (fun a => f a && g a) l.
Proof.
  induction l as [|a l IH]; cbn [filter]; [reflexivity|].
  destruct (f a) eqn:F; cbn [filter andb]; [rewrite F|]; cbn [andb];
    now rewrite IH.
Qed.

Lemma check_rate_limit_only_type gs now op :
  check_rate_limit gs now op = check_rate_limit (only_type op gs) now op.
Proof.
  unfold check_rate_limit, only_type. cbn [action_history].
  destruct (assoc op RATE_LIMITS) as [[max_count window]|]; [|reflexivity].
  now rewrite (filter_filter_and
                 (fun a => String.eqb (a_type a) op)
                 (fun a => (now - a_timestamp a <? window * MICRO)%Z)).
Qed.

Lemma assoc_unconfigured op :
  op <> "email_send" -> op <> "calendar_create" -> op <> "api_calls" ->
  assoc op RATE_LIMITS = None.
Proof.
  intros H1 H2 H3. unfold RATE_LIMITS. cbn [assoc].
  apply String.eqb_neq in H1, H2, H3. now rewrite H1, H2, H3.
Qed.

(** X1.  The verdict of [check_rate_limit] for an operation type depends
    only on the history entries of that type, and an operation type
    without configured limit is always allowed, whatever the history. *)
Theorem check_rate_limit_isolated gs now op :
  check_rate_limit gs now op = check_rate_limit (only_type op gs) now op
  /\
  (op <> "email_send" -> op <> "calendar_create" -> op <> "api_calls" ->
   check_rate_limit gs now op
   = [("allowed", VBool true); ("reason", text (py"No limit defined"))]).
Proof.
  split; [apply check_rate_limit_only_type|].
  intros H1 H2 H3. unfold check_rate_limit.
  now rewrite (assoc_unconfigured op H1 H2 H3).
Qed.

Lemma check_rate_limit_isolated_witness :
  check_rate_limit twenty_creates 5 "sms_send"
  = [("allowed", VBool true); ("reason", text (py"No limit defined"))].
Proof.
  apply (proj2 (check_rate_limit_isolated twenty_creates 5 "sms_send"));
    discriminate.
Defined.

Lemma check_calendar_operation_cases gs now_rate now_log operation args :
  check_calendar_operation gs now_rate now_log operation args =
  if String.eqb operation "create" && calendar_budget_spent gs now_rate
  then
    ([("approved", VBool false);
      ("warnings",
       VList [Some (Blocked (py"Rate limit exceeded: 20 per 3600s"))])],
     gs)
  else
    ([("approved", VBool true); ("warnings", VList [])],
     log (Action "calendar_create" now_log None) gs).
Proof.
  unfold check_calendar_operation.
  destruct (String.eqb operation "create"); [|reflexivity].
  rewrite rate_check_calendar_create. cbn [andb].
  unfold calendar_budget_spent.
  change (check_rate_limit gs now_rate "calendar_create") with
    (if (20 <=? Z.of_nat (length (recent_creates gs now_rate)))%Z then
       [("allowed", VBool false);
        ("reason",
         text (py"Rate limit exceeded: 20 per 3600s"));
        ("reset_time",
         match recent_creates gs now_rate with
         | a :: _ => VTime (a_timestamp a)
         | [] => VNone
         end)]
     else
       [("allowed", VBool true);
        ("remaining",
         VInt (20 - Z.of_nat (length (recent_creates gs now_rate))))]).
  destruct (20 <=? Z.of_nat (length (recent_creates gs now_rate)))%Z;
    reflexivity.
Qed.

End RateLimitIsolation.

Section CalendarBudgetFacts.
Import PyStr Re Py Guardrails GuardrailsVocabulary GuardrailRuns.
Local Open Scope string_scope.
Local Open Scope list_scope.

Lemma other_operation_approved gs (c : calendar_call) :
  k_operation c <> "create" ->
  run_calendar_call gs c
  = ([("approved", VBool true); ("warnings", VList [])],
     log (calendar_entry_of c) gs).
Proof.
  intros H. unfold run_calendar_call.
  rewrite check_calendar_operation_cases.
  apply String.eqb_neq in H. now rewrite H.
Qed.

Lemma run_other_operations : forall calls gs,
  Forall (fun c => k_operation c <> "create") calls ->
  run_calendar_calls gs calls
  = (map (fun _ => [("approved", VBool true); ("warnings", VList [])]) calls,
     MkGuardrails (triggered_guardrails gs)
                  (action_history gs ++ map calendar_entry_of calls)).
Proof.
  induction calls as [|c calls IH]; intros gs F; cbn [run_calendar_calls map].
  - rewrite app_nil_r. now destruct gs.
  - inversion F as [|? ? Hc F']; subst.
    rewrite (other_operation_approved gs c Hc), (IH _ F').
    cbn [log triggered_guardrails action_history]. now rewrite <- app_assoc.
Qed.

Lemma recent_creates_app trig (old : list action) (calls : list calendar_call)
  now :
  Forall (fun c => (now - k_now_log c < 3600 * MICRO)%Z) calls ->
  length calls <=
  length (recent_creates
            (MkGuardrails trig (old ++ map calendar_entry_of calls)) now).
Proof.
  intros F. unfold recent_creates. cbn [action_history].
  rewrite filter_app, length_app.
  rewrite (@filter_all _ _ (map calendar_entry_of calls)).
  - rewrite length_map. lia.
  - apply Forall_map. eapply Forall_impl; [|exact F].
    intros c Hc. cbn. now apply Z.ltb_lt.
Qed.

(** X2.  Operations other than [create] are never refused, yet each of
    them is logged as a calendar creation: after twenty or more of them
    inside the window, a [create] is refused by the rate limit. *)
Theorem deletes_consume_create_budget
  gs (calls : list calendar_call) now_rate now_log args :
  20 <= length calls ->
  Forall (fun c => k_operation c <> "create") calls ->
  Forall (fun c => (now_rate - k_now_log c < 3600 * MICRO)%Z) calls ->
  Forall approved (fst (run_calendar_calls gs calls)) /\
  get "approved"
      (fst (check_calendar_operation
              (snd (run_calendar_calls gs calls))
              now_rate now_log "create" args))
  = Some (VBool false).
Proof.
  intros L F W. rewrite (run_other_operations calls gs F). cbn [fst snd].
  split.
  - apply Forall_map, Forall_forall. intros; reflexivity.
  - rewrite check_calendar_operation_cases.
    replace (calendar_budget_spent _ now_rate) with true; [reflexivity|].
    symmetry. unfold calendar_budget_spent. apply Z.leb_le.
    pose proof (recent_creates_app (triggered_guardrails gs)
                  (action_history gs) calls now_rate W).
    lia.
Qed.

Lemma deletes_consume_create_budget_witness :
  20 <= length twenty_deletes /\
  get "approved"
      (fst (check_calendar_operation
              (snd (run_calendar_calls init twenty_deletes))
              20 20 "create" []))
  = Some (VBool false).
Proof.
  assert (L : 20 <= length twenty_deletes) by (cbn; lia).
  assert (F : Forall (fun c => k_operation c <> "create") twenty_deletes).
  { unfold twenty_deletes. apply Forall_map, Forall_forall.
    intros i _. cbn. discriminate. }
  assert (W : Forall (fun c => (20 - k_now_log c < 3600 * MICRO)%Z)
                     twenty_deletes).
  { unfold twenty_deletes. apply Forall_map, Forall_forall.
    intros i Hi. apply in_seq in Hi. cbn [k_now_log]. unfold MICRO. lia. }
  split; [exact L|].
  exact (proj2 (deletes_consume_create_budget init twenty_deletes
                  20%Z 20%Z [] L F W)).
Defined.

End CalendarBudgetFacts.

Section HistoryFacts.
Import PyStr Re Py Guardrails GuardrailsVocabulary GuardrailRuns.
Local Open Scope string_scope.
Local Open Scope list_scope.

(** What one call of [apply_guardrails] does to the instance. *)
Lemma apply_guardrails_effect gs now_rate now_log action args :
  snd (apply_guardrails gs now_rate now_log action args)
  = (if logging_action action &&
        truthy (item "approved"
                  (fst (apply_guardrails gs now_rate now_log action args)))
     then log (entry_for action args now_log) gs
     else gs)
  /\
  (logging_action action &&
   truthy (item "approved"
             (fst (apply_guardrails gs now_rate now_log action args)))
   = true ->
   well_formed_entry (entry_for action args now_log)).
Proof.
  unfold apply_guardrails, logging_action, entry_for. cbn [existsb].
  destruct (String.eqb action "user_request") eqn:U.
  { apply String.eqb_eq in U. subst action. split; [reflexivity|].
    intros H. discriminate H. }
  destruct (String.eqb action "gmail_send_email") eqn:G.
  { rewrite check_email_send_cases.
    destruct (10 <=? Z.of_nat (length (recent_sends gs now_rate)))%Z;
      [split; [reflexivity|intros H; discriminate H]|].
    destruct (_is_valid_email (get_or_empty "to" args)) eqn:V;
      [|split; [reflexivity|intros H; discriminate H]].
    split; [reflexivity|]. intros _. left. split; [reflexivity|].
    exists (get_or_empty "to" args). auto. }
  destruct (String.eqb action "calendar_create_event") eqn:C.
  { cbn [orb]. rewrite check_calendar_operation_cases.
    destruct (_ && calendar_budget_spent gs now_rate);
      [split; [reflexivity|intros H; discriminate H]|].
    split; [reflexivity|]. intros _. right. split; reflexivity. }
  destruct (String.eqb action "calendar_delete_event") eqn:D.
  { cbn [orb]. rewrite check_calendar_operation_cases.
    destruct (_ && calendar_budget_spent gs now_rate);
      [split; [reflexivity|intros H; discriminate H]|].
    split; [reflexivity|]. intros _. right. split; reflexivity. }
  cbn [orb andb]. split; [reflexivity|]. intros H. discriminate H.
Qed.

(** X3.  One call of [apply_guardrails] either leaves the instance as it
    was, or appends exactly one well-formed entry stamped with the clock
    read at logging; the latter happens exactly when the action is one of
    the three logging actions and the check approved.  The list of
    triggered guardrails is never written. *)
Theorem apply_guardrails_appends_at_most_one
  gs now_rate now_log action args :
  triggered_guardrails (snd (apply_guardrails gs now_rate now_log action args))
  = triggered_guardrails gs
  /\
  action_history (snd (apply_guardrails gs now_rate now_log action args))
  = action_history gs ++
    (if counted (GuardCall now_rate now_log action args,
                 fst (apply_guardrails gs now_rate now_log action args))
     then [entry_for action args now_log] else [])
  /\
  (counted (GuardCall now_rate now_log action args,
            fst (apply_guardrails gs now_rate now_log action args)) = false
   \/ (well_formed_entry (entry_for action args now_log) /\
       a_timestamp (entry_for action args now_log) = now_log)).
Proof.
  destruct (apply_guardrails_effect gs now_rate now_log action args)
    as [E W].
  unfold counted. cbn [fst snd g_action].
  rewrite E.
  destruct (logging_action action && _) eqn:B.
  - repeat split. right. split; [now apply W|].
    unfold entry_for. now destruct (String.eqb action "gmail_send_email").
  - rewrite app_nil_r. repeat split. now left.
Qed.

Lemma run_guards_invariant (P : action -> Prop) :
  (forall action args now_log,
      well_formed_entry (entry_for action args now_log) ->
      P (entry_for action args now_log)) ->
  forall calls gs,
    Forall P (action_history gs) ->
    Forall P (action_history (snd (run_guards gs calls))).
Proof.
  intros HP. induction calls as [|c calls IH]; intros gs F;
    cbn [run_guards]; [exact F|].
  unfold run_guard.
  destruct (apply_guardrails_effect gs (g_now_rate c) (g_now_log c)
              (g_action c) (g_args c)) as [E W].
  destruct (apply_guardrails gs (g_now_rate c) (g_now_log c)
              (g_action c) (g_args c)) as [r gs1].
  cbn [fst snd] in E, W.
  specialize (IH gs1).
  destruct (run_guards gs1 calls) as [rs gs2]. cbn [snd] in *.
  apply IH. rewrite E.
  destruct (logging_action (g_action c) && truthy (item "approved" r));
    [|exact F].
  cbn [log action_history]. apply Forall_app. split; [exact F|].
  constructor; [|constructor]. apply HP. now apply W.
Qed.

(** X4.  Whatever calls of [apply_guardrails] are made on a fresh
    instance, every history entry is an e-mail entry with a valid
    recipient or a calendar entry, so that the budget of generic API
    calls is never touched: its check always allows, with all 100
    remaining. *)
Theorem api_budget_never_consumed (calls : list guard_call) (now : Z) :
  Forall well_formed_entry (action_history (snd (run_guards init calls)))
  /\
  check_rate_limit (snd (run_guards init calls)) now "api_calls"
  = [("allowed", VBool true); ("remaining", VInt 100)].
Proof.
  assert (F : Forall well_formed_entry
                     (action_history (snd (run_guards init calls)))).
  { apply run_guards_invariant; [auto|constructor]. }
  split; [exact F|].
  unfold check_rate_limit.
  change (assoc "api_calls" RATE_LIMITS) with (Some (100, 60)%Z).
  cbv iota beta.
  rewrite (@filter_none _ _ (action_history (snd (run_guards init calls)))).
  - reflexivity.
  - eapply Forall_impl; [|exact F].
    intros a [[T _] | [T _]]; rewrite T; reflexivity.
Qed.

Lemma run_guards_length : forall calls gs,
  length (fst (run_guards gs calls)) = length calls.
Proof.
  induction calls as [|c calls IH]; intros gs; cbn [run_guards];
    [reflexivity|].
  destruct (run_guard gs c) as [r gs1]. specialize (IH gs1).
  destruct (run_guards gs1 calls) as [rs gs2]. cbn [fst length] in *.
  now rewrite IH.
Qed.

(** X5.  The length of the history, which the status report shows as the
    number of checks performed, grows by the number of approved checks
    of logging actions only: refused checks, screenings of user requests
    and checks of other actions are not counted. *)
Theorem history_counts_approved_checks : forall calls gs,
  length (action_history (snd (run_guards gs calls)))
  = length (action_history gs) +
    length (filter counted (combine calls (fst (run_guards gs calls)))).
Proof.
  induction calls as [|c calls IH]; intros gs; cbn [run_guards].
  - cbn. lia.
  - unfold run_guard.
    destruct (apply_guardrails_effect gs (g_now_rate c) (g_now_log c)
                (g_action c) (g_args c)) as [E _].
    destruct (apply_guardrails gs (g_now_rate c) (g_now_log c)
                (g_action c) (g_args c)) as [r gs1].
    cbn [fst snd] in E. specialize (IH gs1).
    destruct (run_guards gs1 calls) as [rs gs2].
    cbn [fst snd combine filter] in *.
    change (logging_action (g_action c) && truthy (item "approved" r))
      with (counted (c, r)) in E.
    rewrite IH, E.
    destruct (counted (c, r)).
    + cbn [log action_history length]. rewrite length_app.
      cbn [length]. lia.
    + lia.
Qed.

End HistoryFacts.

Section ScreeningFacts.
Import PyStr Re Py Guardrails GuardrailsVocabulary GuardrailRuns.
Import ScreeningVocabulary.
Local Open Scope string_scope.
Local Open Scope list_scope.

Lemma check_dangerous_user_request args :
  check_dangerous_action "user_request" args =
  match List.find
          (fun keyword =>
             contains keyword
               (lower_str (lit "user_request" ++ py" " ++ str_of_args args)))
          DANGEROUS_KEYWORDS with
  | Some keyword =>
      [("dangerous", VBool true);
       ("reason", keyword_reason keyword);
       ("severity", text (py"high"))]
  | None =>
      [("dangerous", VBool false);
       ("reason", VNone);
       ("severity", text (py"none"))]
  end.
Proof.
  unfold check_dangerous_action.
  destruct (List.find _ DANGEROUS_KEYWORDS); reflexivity.
Qed.

Lemma find_keyword_in (f : str -> bool) keyword :
  List.find f DANGEROUS_KEYWORDS = Some keyword ->
  In keyword DANGEROUS_KEYWORDS.
Proof. intros H. now apply find_some in H. Qed.

Lemma apply_user_request gs now_rate now_log args :
  apply_guardrails gs now_rate now_log "user_request" args =
  ([("approved",
     VBool (negb (names_keyword "user_request" args) &&
            negb (has_critical (get_or_empty "input" args))));
    ("reason",
     if names_keyword "user_request" args ||
        has_critical (get_or_empty "input" args)
     then get_default "reason"
            (text (py"Contains sensitive data like passwords or credit cards"))
            (check_dangerous_action "user_request" args)
     else VNone);
    ("warnings", VList []);
    ("requires_human", VBool false)], gs).
Proof. reflexivity. Qed.

(** X6.  Screening a user request never writes to the instance, never
    warns and never asks for a human.  Its reason is [None] or names a
    dangerous keyword of the list, in which case the request is refused:
    a request refused for critical data alone carries the reason [None],
    and the text about passwords and credit cards is never returned. *)
Theorem user_request_reason gs now_rate now_log args :
  snd (apply_guardrails gs now_rate now_log "user_request" args) = gs
  /\
  get "warnings"
      (fst (apply_guardrails gs now_rate now_log "user_request" args))
  = Some (VList [])
  /\
  get "requires_human"
      (fst (apply_guardrails gs now_rate now_log "user_request" args))
  = Some (VBool false)
  /\
  get "reason"
      (fst (apply_guardrails gs now_rate now_log "user_request" args))
  <> Some (text (py"Contains sensitive data like passwords or credit cards"))
  /\
  ((names_keyword "user_request" args = false /\
    get "reason"
        (fst (apply_guardrails gs now_rate now_log "user_request" args))
    = Some VNone)
   \/
   (names_keyword "user_request" args = true /\
    get "approved"
        (fst (apply_guardrails gs now_rate now_log "user_request" args))
    = Some (VBool false) /\
    exists keyword,
      In keyword DANGEROUS_KEYWORDS /\
      get "reason"
          (fst (apply_guardrails gs now_rate now_log "user_request" args))
      = Some (keyword_reason keyword))).
Proof.
  rewrite apply_user_request. cbn [fst snd].
  split; [reflexivity|]. split; [reflexivity|]. split; [reflexivity|].
  unfold names_keyword. rewrite check_dangerous_user_request.
  destruct (List.find _ DANGEROUS_KEYWORDS) as [keyword|] eqn:F.
  - split.
    + intros H. cbv in H. discriminate H.
    + right. split; [reflexivity|]. split; [reflexivity|].
      exists keyword. split; [now apply find_keyword_in in F|reflexivity].
  - change (truthy (item "dangerous"
                      [("dangerous", VBool false); ("reason", VNone);
                       ("severity", text (py"none"))])) with false.
    cbn [orb].
    destruct (has_critical (get_or_empty "input" args));
      (split; [discriminate|left; split; reflexivity]).
Qed.

Lemma search_found fl r t :
  match search fl r t with Some _ => true | None => false end
  = nonempty (findall fl r t).
Proof.
  destruct (nonempty (findall fl r t)) eqn:N.
  - apply findall_nonempty, search_some in N. destruct N as (m & ->).
    reflexivity.
  - destruct (search fl r t) as [m|] eqn:S; [|reflexivity].
    assert (H : exists m, search fl r t = Some m) by eauto.
    apply search_some, findall_nonempty in H. congruence.
Qed.

Lemma has_critical_hit (txt : str) :
  has_critical txt = true <-> critical_hit txt.
Proof.
  unfold has_critical, critical_hit, hits_of, check_sensitive_content.
  cbn [existsb].
  change (assoc "credit_card" SENSITIVE_PATTERNS) with (Some credit_card_re).
  change (assoc "ssn" SENSITIVE_PATTERNS) with (Some ssn_re).
  change (assoc "password" SENSITIVE_PATTERNS) with (Some password_re).
  change (assoc "api_key" SENSITIVE_PATTERNS) with (Some api_key_re).
  cbv iota. rewrite !search_found.
  unfold SENSITIVE_PATTERNS. cbn [flat_map].
  cbn [item get String.eqb Ascii.eqb Bool.eqb as_hits].
  destruct (findall IGNORECASE credit_card_re txt) as [|m1 l1];
    destruct (findall IGNORECASE ssn_re txt) as [|m2 l2];
    destruct (findall IGNORECASE password_re txt) as [|m3 l3];
    destruct (findall IGNORECASE api_key_re txt) as [|m4 l4];
    cbn [nonempty orb app];
    try (split; [intros _|reflexivity];
         eexists; eexists; (split; [left; reflexivity|discriminate])).
  split; [discriminate|].
  intros (name & n & H & E).
  destruct (findall IGNORECASE email_re txt) as [|m5 l5]; cbn in H.
  - contradiction.
  - destruct H as [H|[]]. injection H as <- _. now elim E.
Qed.

(** X7.  The [user_request] path refuses a request exactly when
    [check_dangerous_action] finds a dangerous keyword or when the scan
    of [check_sensitive_content] on the input reports a pattern other
    than an e-mail address: the two scans agree on critical data, and an
    e-mail address alone never blocks a request. *)
Theorem user_request_refused_iff gs now_rate now_log args :
  get "approved"
      (fst (apply_guardrails gs now_rate now_log "user_request" args))
  = Some (VBool false)
  <->
  (names_keyword "user_request" args = true \/
   critical_hit (get_or_empty "input" args)).
Proof.
  rewrite apply_user_request. cbn [fst get String.eqb Ascii.eqb Bool.eqb].
  rewrite <- has_critical_hit.
  destruct (names_keyword "user_request" args);
    destruct (has_critical (get_or_empty "input" args)); cbn [negb andb];
    split; auto; try discriminate.
  intros [H|H]; discriminate H.
Qed.

Lemma card_text_critical : critical_hit card_text.
Proof.
  exists "credit_card", 1. split; [vm_compute; left; reflexivity|].
  discriminate.
Qed.

(** X8.  A request that holds critical data and no dangerous keyword is
    answered by [process_request] with the blocked-request text built
    from the reason [None]; the graph is not invoked, and neither the
    guardrails instance nor the session history changes. *)
Theorem critical_request_blocked_with_none
  (graph_invoke : Orchestrator.WorkspaceState -> Orchestrator.invocation)
  gs now_rate now_log now self (user_input : str) :
  critical_hit user_input ->
  names_keyword "user_request" [("input", user_input)] = false ->
  Orchestrator.process_request graph_invoke gs now_rate now_log now self
                               user_input
  = (Orchestrator.RequestBlocked VNone, gs, self).
Proof.
  intros C K. apply has_critical_hit in C.
  unfold Orchestrator.process_request.
  rewrite apply_user_request.
  change (get_or_empty "input" [("input", user_input)]) with user_input.
  rewrite K, C.
  cbn [negb andb orb get_default get String.eqb Ascii.eqb Bool.eqb truthy].
  unfold names_keyword in K.
  rewrite check_dangerous_user_request in K |- *.
  destruct (List.find _ DANGEROUS_KEYWORDS); [discriminate K|reflexivity].
Qed.

Lemma critical_request_blocked_with_none_witness :
  Orchestrator.process_request
    (fun _ => Orchestrator.Raised []) init 0 0 0
    (Orchestrator.MkOrchestrator []) card_text
  = (Orchestrator.RequestBlocked VNone, init,
     Orchestrator.MkOrchestrator []).
Proof.
  apply (critical_request_blocked_with_none
           (fun _ => Orchestrator.Raised []) init 0%Z 0%Z 0%Z
           (Orchestrator.MkOrchestrator []) card_text).
  - exists "credit_card", 1. split; [vm_compute; left; reflexivity|].
    discriminate.
  - vm_compute. reflexivity.
Defined.

(** ** Dangerous keywords in argument values *)

Lemma contains_split (sub s : str) :
  contains sub s = true -> exists a b, s = a ++ sub ++ b.
Proof.
  induction s as [|c s IH]; intros H.
  - cbn [contains] in H. rewrite orb_false_r in H.
    apply starts_with_split in H.
    exists [], (skipn (length sub) []). exact H.
  - cbn [contains] in H. apply orb_true_iff in H. destruct H as [H|H].
    + apply starts_with_split in H.
      exists [], (skipn (length sub) (c :: s)). exact H.
    + destruct (IH H) as (a & b & ->). exists (c :: a), b. reflexivity.
Qed.

Lemma all_chars_complete (c : ascii) : In c all_chars.
Proof.
  unfold all_chars. rewrite <- (ascii_nat_embedding c).
  apply in_map, in_seq. pose proof (nat_ascii_bounded c). lia.
Qed.

Lemma printed_as_is_all : forallb printed_as_is all_chars = true.
Proof. vm_compute. reflexivity. Qed.

Lemma str_eqb_eq (a b : str) : str_eqb a b = true -> a = b.
Proof.
  revert b. induction a as [|x a IH]; intros [|y b] H;
    try discriminate H; [reflexivity|].
  cbn [str_eqb] in H. apply andb_true_iff in H. destruct H as [E H].
  apply Ascii.eqb_eq in E. subst y. now rewrite (IH b H).
Qed.

Lemma repr_char_plain (q c : ascii) :
  q = QUOTE \/ q = DQUOTE ->
  plain_char (lower c) = true -> repr_char q c = [c].
Proof.
  intros Q P.
  pose proof (proj1 (forallb_forall _ _) printed_as_is_all c
                    (all_chars_complete c)) as H.
  unfold printed_as_is in H. rewrite P in H. cbn [implb] in H.
  apply andb_true_iff in H. destruct H as [H1 H2].
  destruct Q as [-> | ->]; now apply str_eqb_eq.
Qed.

Lemma flat_map_repr_plain (q : ascii) (k : str) :
  q = QUOTE \/ q = DQUOTE ->
  forallb plain_char (lower_str k) = true ->
  flat_map (repr_char q) k = k.
Proof.
  intros Q. induction k as [|c k IH]; intros H; [reflexivity|].
  cbn [lower_str map forallb] in H. apply andb_true_iff in H.
  destruct H as [Hc Hk]. cbn [flat_map].
  rewrite (repr_char_plain _ _ Q Hc). cbn [app]. f_equal. now apply IH.
Qed.

Lemma repr_str_keeps (a k b : str) :
  forallb plain_char (lower_str k) = true ->
  exists x y, repr_str (a ++ k ++ b) = x ++ k ++ y.
Proof.
  intros H. unfold repr_str.
  set (q := if has_char QUOTE (a ++ k ++ b) &&
               negb (has_char DQUOTE (a ++ k ++ b))
            then DQUOTE else QUOTE).
  assert (Q : q = QUOTE \/ q = DQUOTE).
  { unfold q. destruct (_ && _); auto. }
  rewrite !flat_map_app, (flat_map_repr_plain _ _ Q H).
  exists (q :: flat_map (repr_char q) a), (flat_map (repr_char q) b ++ [q]).
  cbn [app]. now rewrite <- !app_assoc.
Qed.

Lemma repr_items_keeps (d : args_dict) (k : string) (v : str) :
  In (k, v) d -> exists x y, repr_items d = x ++ repr_str v ++ y.
Proof.
  induction d as [|[k0 v0] d IH]; intros H; [contradiction|].
  destruct H as [H|H].
  - injection H as -> ->.
    exists (repr_str (lit k) ++ py": ").
    destruct d as [|e d]; cbn [repr_items].
    + exists []. now rewrite app_nil_r, <- app_assoc.
    + destruct e as [k1 v1]. eexists. rewrite <- !app_assoc. reflexivity.
  - destruct (IH H) as (x & y & E).
    destruct d as [|e d]; [contradiction|].
    change (repr_items ((k0, v0) :: e :: d))
      with (repr_str (lit k0) ++ py": " ++ repr_str v0 ++ py", "
            ++ repr_items (e :: d)).
    rewrite E.
    exists (repr_str (lit k0) ++ py": " ++ repr_str v0 ++ py", " ++ x), y.
    now rewrite <- !app_assoc.
Qed.

Lemma keyword_plain (keyword : str) :
  In keyword DANGEROUS_KEYWORDS -> forallb plain_char keyword = true.
Proof.
  intros H. unfold DANGEROUS_KEYWORDS in H. cbn [In] in H.
  repeat (destruct H as [<-|H]; [reflexivity|]). contradiction.
Qed.

Lemma keyword_in_action_text action args k v keyword :
  In (k, v) args ->
  In keyword DANGEROUS_KEYWORDS ->
  contains keyword (lower_str v) = true ->
  contains keyword
    (lower_str (lit action ++ py" " ++ str_of_args args)) = true.
Proof.
  intros I K C.
  apply contains_split in C. destruct C as (a & b & E).
  unfold lower_str in E. apply map_eq_app in E.
  destruct E as (a' & r & -> & Ea & E).
  apply map_eq_app in E. destruct E as (k' & b' & -> & Ek & Eb).
  assert (P : forallb plain_char (lower_str k') = true).
  { unfold lower_str. rewrite Ek. now apply keyword_plain. }
  destruct (repr_str_keeps a' k' b' P) as (x & y & R).
  destruct (repr_items_keeps _ _ _ I) as (x' & y' & R').
  unfold str_of_args. rewrite R', R.
  replace (lit action ++ py" " ++ py"{" ++ (x' ++ (x ++ k' ++ y) ++ y') ++ py"}")
    with ((lit action ++ py" " ++ py"{" ++ x' ++ x) ++ k' ++
          (y ++ y' ++ py"}"))
    by (now rewrite <- !app_assoc).
  unfold lower_str. rewrite !map_app, Ek. apply contains_middle.
Qed.

Lemma keyword_found action args k v keyword :
  In (k, v) args ->
  In keyword DANGEROUS_KEYWORDS ->
  contains keyword (lower_str v) = true ->
  exists found,
    In found DANGEROUS_KEYWORDS /\
    check_dangerous_action action args =
    [("dangerous", VBool true);
     ("reason", keyword_reason found);
     ("severity", text (py"high"))].
Proof.
  intros I K C. pose proof (keyword_in_action_text action _ _ _ _ I K C) as T.
  unfold check_dangerous_action.
  destruct (List.find _ DANGEROUS_KEYWORDS) as [found|] eqn:F.
  - exists found. split; [now apply find_keyword_in in F|reflexivity].
  - apply (find_none _ _ F) in K. cbv beta in K. congruence.
Qed.

Lemma not_logging action :
  logging_action action = false ->
  String.eqb action "gmail_send_email" = false /\
  existsb (String.eqb action)
          ["calendar_create_event"; "calendar_delete_event"] = false.
Proof.
  unfold logging_action. cbn [existsb]. intros H.
  apply orb_false_iff in H. destruct H as [-> H]. split; [reflexivity|].
  exact H.
Qed.

(** X9.  A dangerous keyword that stands in any argument value, in any
    mixture of capital and small letters, is found by
    [check_dangerous_action] for every action, with severity high and a
    reason that names a keyword of the list; [apply_guardrails] then
    refuses every action other than the e-mail and calendar ones, whose
    checks do not consult the keyword scan. *)
Theorem dangerous_keyword_detected action args k (v keyword : str) :
  In (k, v) args ->
  In keyword DANGEROUS_KEYWORDS ->
  contains keyword (lower_str v) = true ->
  (exists found,
     In found DANGEROUS_KEYWORDS /\
     check_dangerous_action action args =
     [("dangerous", VBool true);
      ("reason", keyword_reason found);
      ("severity", text (py"high"))])
  /\
  (logging_action action = false ->
   forall gs now_rate now_log,
     get "approved" (fst (apply_guardrails gs now_rate now_log action args))
     = Some (VBool false)).
Proof.
  intros I K C.
  destruct (keyword_found action _ _ _ _ I K C) as (found & Hf & E).
  split; [eauto|].
  intros L gs now_rate now_log. apply not_logging in L. destruct L as [G Cal].
  unfold apply_guardrails.
  destruct (String.eqb action "user_request") eqn:U.
  - rewrite E. reflexivity.
  - rewrite G, Cal, E. reflexivity.
Qed.

Lemma dangerous_keyword_detected_witness :
  get "dangerous" (check_dangerous_action "file_read" shouted_request)
  = Some (VBool true) /\
  get "approved" (fst (apply_guardrails init 0 0 "file_read" shouted_request))
  = Some (VBool false).
Proof.
  destruct (dangerous_keyword_detected "file_read" shouted_request "input"
              (py"Now DELETE ALL my mail") (py"delete all"))
    as [(found & _ & E) A].
  - right. left. reflexivity.
  - left. reflexivity.
  - vm_compute. reflexivity.
  - split; [rewrite E; reflexivity|].
    apply A. vm_compute. reflexivity.
Defined.

(** X24.  The scan of [check_sensitive_content] reports a pattern
    exactly when it has at least one match in the text, with the number
    of its matches as the count; the reported names follow the order of
    the pattern table, each at most once; and the text counts as
    detected exactly when some pattern is reported. *)
Theorem sensitive_hits_shape (txt : str) :
  hits_of txt
  = map (fun name => (name, matches_of txt name))
        (filter (fun name => Nat.ltb 0 (matches_of txt name)) pattern_names)
  /\
  detected txt = nonempty (hits_of txt)
  /\
  Forall (fun h : pattern_hit => (1 <= snd h)%nat) (hits_of txt).
Proof.
  assert (E : hits_of txt
              = map (fun name => (name, matches_of txt name))
                    (filter (fun name => Nat.ltb 0 (matches_of txt name))
                            pattern_names)).
  { unfold hits_of, check_sensitive_content, pattern_names, matches_of,
           SENSITIVE_PATTERNS.
    cbn [flat_map map fst item get String.eqb Ascii.eqb Bool.eqb as_hits
         filter assoc].
    destruct (findall IGNORECASE credit_card_re txt) as [|m1 l1] eqn:E1;
      destruct (findall IGNORECASE ssn_re txt) as [|m2 l2] eqn:E2;
      destruct (findall IGNORECASE password_re txt) as [|m3 l3] eqn:E3;
      destruct (findall IGNORECASE api_key_re txt) as [|m4 l4] eqn:E4;
      destruct (findall IGNORECASE email_re txt) as [|m5 l5] eqn:E5;
      cbn [map filter length Nat.ltb Nat.leb String.eqb Ascii.eqb Bool.eqb
           nonempty app];
      rewrite ?E1, ?E2, ?E3, ?E4, ?E5; reflexivity. }
  split; [exact E|]. split.
  - unfold detected, hits_of, check_sensitive_content.
    cbn [item get String.eqb Ascii.eqb Bool.eqb as_hits truthy].
    now destruct (flat_map _ SENSITIVE_PATTERNS).
  - rewrite E. apply Forall_forall. intros h H. apply in_map_iff in H.
    destruct H as (name & <- & H). apply filter_In in H.
    destruct H as [_ H]. apply Nat.ltb_lt in H. cbn [snd]. lia.
Qed.

End ScreeningFacts.

(* ================================================================== *)
(** * The second parse of [extract_json_from_response] *)
(* ================================================================== *)

Section FallbackFacts.
Import PyStr Re Json Utils UtilsVocabulary JsonVocabulary.
Variable V : Type.
Variable json_loads : str -> outcome V.

(** A match of the object pattern runs from a left brace to a right
    brace. *)
Lemma search_object_braced (t m : str) :
  search DOTALL object_re t = Some m -> braced m.
Proof.
  unfold search.
  destruct (find_from DOTALL object_re None t) as [[[sk m'] rest]|] eqn:F;
    [|discriminate].
  intros E. injection E as ->.
  apply find_from_sound in F. destruct F as (_ & M & _).
  apply match_here_sound in M. destruct M as (p' & M).
  unfold object_re, Seq in M.
  apply matches_cat in M. destruct M as (p1 & t1 & M1 & M).
  apply matches_lit in M1; [|reflexivity].
  apply matches_cat in M. destruct M as (p2 & t2 & M2 & M3).
  apply matches_lit in M3; [|reflexivity].
  apply matches_consumes in M2. destruct M2 as (c & E & _).
  exists c. apply (app_inv_tail rest).
  rewrite M1, E, M3. cbn [app]. now rewrite <- app_assoc.
Qed.

Lemma last_occurrence (c : ascii) (t : str) :
  has_char c t = true ->
  exists a b, t = a ++ c :: b /\ has_char c b = false.
Proof.
  induction t as [|x t IH]; intros H; [discriminate H|].
  destruct (has_char c t) eqn:T.
  - destruct (IH eq_refl) as (a & b & -> & Hb).
    exists (x :: a), b. split; [reflexivity|exact Hb].
  - unfold has_char in H, T. cbn [existsb] in H. rewrite T, orb_false_r in H.
    apply Ascii.eqb_eq in H. subst x.
    exists [], t. split; [reflexivity|exact T].
Qed.

(** A text with a left brace before a right brace holds a match of the
    object pattern. *)
Lemma pair_found : forall t : str,
  pair_free t = false -> search DOTALL object_re t <> None.
Proof.
  assert (G : forall (t : str) p,
             pair_free t = false -> find_from DOTALL object_re p t <> None).
  { intros t p H.
    assert (S : exists pre mid post,
               t = pre ++ (LBRACE :: mid ++ [RBRACE]) ++ post /\
               has_char LBRACE pre = false /\ has_char RBRACE post = false).
    { clear p. induction t as [|c t IH]; [discriminate H|].
      cbn [pair_free] in H. destruct (ascii_eqb LBRACE c) eqn:E.
      - apply Ascii.eqb_eq in E. subst c. apply negb_false_iff in H.
        apply last_occurrence in H. destruct H as (a & b & -> & Hb).
        exists [], a, b. split; [|split; [reflexivity|exact Hb]].
        cbn [app]. now rewrite <- app_assoc.
      - destruct (IH H) as (pre & mid & post & -> & Hpre & Hpost).
        exists (c :: pre), mid, post. split; [reflexivity|].
        split; [|exact Hpost].
        unfold has_char in *. cbn [existsb]. now rewrite E, Hpre. }
    destruct S as (pre & mid & post & -> & Hpre & Hpost).
    rewrite (find_object pre p mid post Hpre Hpost). discriminate. }
  intros t H. unfold search. specialize (G t None H).
  destruct (find_from DOTALL object_re None t) as [[[sk m] rest]|];
    [discriminate|congruence].
Qed.

(** X10.  The second parse of [extract_json_from_response], made on the
    span from the first left brace to the last right brace after the
    first parse has failed, never recovers anything: that span is the
    text that has just been rejected, or it is empty.  For a decoder
    that rejects the empty text, the result is always that of the first
    parse. *)
Theorem second_parse_never_recovers :
  json_loads [] = JSONDecodeError ->
  forall response_text : str,
    extract_json_from_response json_loads response_text
    = json_loads (candidate response_text).
Proof.
  intros Hempty t. unfold extract_json_from_response.
  destruct (json_loads (candidate t)) as [v|] eqn:E; [reflexivity|].
  unfold candidate in *. fold (cleaned t) in *.
  destruct (search DOTALL object_re (cleaned t)) as [m|] eqn:S.
  - destruct (search_object_braced _ _ S) as (mid & ->).
    assert (F : str_find LBRACE (LBRACE :: mid ++ [RBRACE]) = Some 0)
      by reflexivity.
    assert (R : str_rfind RBRACE (LBRACE :: mid ++ [RBRACE])
                = Some (length (LBRACE :: mid))).
    { change (LBRACE :: mid ++ [RBRACE]) with ((LBRACE :: mid) ++ [RBRACE]).
      apply rfind_last. }
    rewrite F, R. unfold slice. cbn [skipn].
    replace (length (LBRACE :: mid) + 1 - 0)
      with (length (LBRACE :: mid ++ [RBRACE])).
    + now rewrite firstn_all.
    + cbn [length]. rewrite length_app. cbn [length]. lia.
  - assert (P : pair_free (cleaned t) = true).
    { destruct (pair_free (cleaned t)) eqn:P; [reflexivity|].
      now apply pair_found in P. }
    destruct (str_find LBRACE (cleaned t)) as [s0|] eqn:F; [|reflexivity].
    destruct (str_rfind RBRACE (cleaned t)) as [e|] eqn:R; [|reflexivity].
    pose proof (pair_free_order _ _ _ P F R) as L.
    unfold slice. replace (e + 1 - s0) with 0 by lia.
    cbn [firstn]. exact Hempty.
Qed.

End FallbackFacts.

Section FallbackExamples.
Import PyStr Re Json Utils UtilsVocabulary JsonVocabulary.

Lemma second_parse_never_recovers_witness :
  loads [] = JSONDecodeError /\
  extract_json_from_response loads (py"} see {x: 1} or {y}")
  = loads (candidate (py"} see {x: 1} or {y}")).
Proof.
  split; [reflexivity|].
  apply (second_parse_never_recovers json loads); reflexivity.
Defined.

End FallbackExamples.

(* ================================================================== *)
(** * The float test of the free-slot scan *)
(* ================================================================== *)

Section FloatFacts.
Import PyStr PyFloat Calendar.
Local Open Scope Z_scope.









End FloatFacts.

(* ================================================================== *)
(** * The free-slot scan on any list of events *)
(* ================================================================== *)

Section CalendarScanFacts.
Import PyStr PyFloat Calendar CalendarVocabulary CalendarGaps.
Local Open Scope Z_scope.

Lemma not_aware (t : datetime) :
  aware t = false -> t = naive (wall t).
Proof.
  destruct t as [w [o|]]; unfold aware; cbn; [discriminate|reflexivity].
Qed.

Lemma gap_fits_naive (a b d : Z) :
  gap_fits (naive a) (naive b) d
  = Ok (float_ge_int (float_div_int (total_seconds (a - b)) 60) d).
Proof. reflexivity. Qed.

Lemma dt_max_naive (a b : Z) :
  dt_max (naive a) (naive b) = Ok (naive (Z.max a b)).
Proof.
  unfold dt_max, dt_sub, naive. cbn [utcoffset wall bind].
  destruct (0 <? b - a) eqn:E.
  - apply Z.ltb_lt in E. now rewrite Z.max_r by lia.
  - apply Z.ltb_ge in E. now rewrite Z.max_l by lia.
Qed.

Lemma gap_fits_aware (t : datetime) (w d : Z) :
  aware t = true -> gap_fits t (naive w) d = TypeError.
Proof.
  destruct t as [x [o|]]; unfold aware; cbn; [reflexivity|discriminate].
Qed.

Lemma dt_max_aware (t : datetime) (w : Z) :
  aware t = true -> dt_max (naive w) t = TypeError.
Proof.
  destruct t as [x [o|]]; unfold aware; cbn; [reflexivity|discriminate].
Qed.

(** The loop raises exactly when some event is timed; otherwise the
    current time stays without offset. *)
Lemma scan_events_raises : forall events d w slots,
  match scan_events events d (naive w) slots with
  | TypeError => existsb timed events = true
  | Ok (_, current_time) =>
      existsb timed events = false /\ aware current_time = false
  end.
Proof.
  induction events as [|ev events IH]; intros d w slots.
  - cbn [scan_events existsb]. split; reflexivity.
  - cbn [scan_events existsb].
    change (timed ev) with (aware (ev_start ev) || aware (ev_end ev)).
    destruct (aware (ev_start ev)) eqn:S.
    { rewrite (gap_fits_aware _ w d S). reflexivity. }
    rewrite (not_aware _ S), gap_fits_naive. cbn [bind].
    destruct (aware (ev_end ev)) eqn:E.
    { rewrite (dt_max_aware _ w E). reflexivity. }
    rewrite (not_aware _ E), dt_max_naive. cbn [bind orb].
    apply IH.
Qed.

(** X11.  The free-slot tool raises [TypeError] exactly when one of the
    events has a start or an end that carries a UTC offset, whatever the
    day, the duration and the other events are: the bounds of the day
    carry none, and the exception is none of those the tool catches. *)
Theorem free_slots_raise_iff_offset
  (date : str) (start_date : Z) (events : list event) (duration_minutes : Z) :
  (find_free_slots start_date events duration_minutes = TypeError
   <-> existsb timed events = true)
  /\
  (calendar_find_free_slots date start_date events duration_minutes
   = TypeError
   <-> existsb timed events = true).
Proof.
  assert (F : find_free_slots start_date events duration_minutes = TypeError
              <-> existsb timed events = true).
  { unfold find_free_slots. cbv zeta.
    pose proof (scan_events_raises events duration_minutes
                  (start_date + 9 * HOUR) []) as H.
    destruct (scan_events events duration_minutes
                (naive (start_date + 9 * HOUR)) []) as [[fs ct]|].
    - destruct H as [H A]. rewrite H. cbn [bind].
      rewrite (not_aware _ A), gap_fits_naive.
      cbn [bind]. split; discriminate.
    - cbn [bind]. split; auto. }
  split; [exact F|].
  rewrite <- F. unfold calendar_find_free_slots.
  destruct (find_free_slots start_date events duration_minutes);
    cbn [bind]; split; auto; discriminate.
Qed.


(** The test [total_seconds() / 60 >= duration_minutes] is made on
    floats: over a gap of some 6,976 years it accepts a gap that is one
    microsecond shorter than the minutes asked for. *)
Lemma gap_test_rounds_up :
  gap_fits (naive long_gap) (naive 0) long_duration = Ok true /\
  long_gap = long_duration * MINUTE - 1.
Proof. split; vm_compute; reflexivity. Qed.



End CalendarScanFacts.

(* ================================================================== *)
(** * Further properties of the task agent *)
(* ================================================================== *)

Section BlockerConsistency.
Import TaskAgent BlockerVocabulary TaskVocabulary.
Local Open Scope string_scope.
Local Open Scope list_scope.

Variable set_order : list string -> list string.
Hypothesis set_order_ok : set_iteration set_order.

Lemma in_set_order (l : list string) (d : string) :
  In d (set_order l) <-> In d l.
Proof.
  split; intros H.
  - apply (Permutation_in _ (Permutation_sym (set_order_ok l))) in H.
    now apply nodup_In in H.
  - apply (Permutation_in _ (set_order_ok l)). now apply nodup_In.
Qed.

Lemma set_order_nodup (l : list string) : NoDup (set_order l).
Proof.
  apply (Permutation_NoDup (set_order_ok l)). apply NoDup_nodup.
Qed.

Lemma in_incomplete_deps (tasks : list task) (t : task) (d : string) :
  In d (incomplete_deps tasks t) <->
  In d (dependencies t) /\
  exists t', In t' tasks /\ id t' = d /\ not_completed t' = true.
Proof.
  unfold incomplete_deps. rewrite filter_In, existsb_exists.
  split; intros [H (t' & I & E)]; (split; [exact H|]); exists t'.
  - apply andb_true_iff in E. destruct E as [E N].
    apply String.eqb_eq in E. auto.
  - destruct E as [E N]. split; [exact I|].
    apply andb_true_iff. split; [now apply String.eqb_eq|exact N].
Qed.

(** The entry that the first loop adds for one task. *)
Lemma blocked_entry_of (tasks : list task) (t : task) :
  match dependencies t with
  | [] => []
  | _ :: _ =>
      match incomplete_deps tasks t with
      | [] => []
      | deps => [Blocked (id t) (title t) deps]
      end
  end
  = match incomplete_deps tasks t with
    | [] => []
    | _ :: _ => [Blocked (id t) (title t) (incomplete_deps tasks t)]
    end.
Proof.
  unfold incomplete_deps.
  destruct (dependencies t) as [|d ds]; [reflexivity|].
  destruct (filter _ (d :: ds)); reflexivity.
Qed.

Lemma in_blocked_tasks (tasks : list task) (e : blocked_entry) :
  In e (blocked_tasks (identify_blockers set_order tasks)) <->
  exists t, In t tasks /\ incomplete_deps tasks t <> [] /\
            e = Blocked (id t) (title t) (incomplete_deps tasks t).
Proof.
  unfold identify_blockers. cbn [blocked_tasks]. rewrite in_flat_map.
  split.
  - intros (t & I & H). exists t. split; [exact I|].
    rewrite blocked_entry_of in H.
    destruct (incomplete_deps tasks t) as [|d ds]; [contradiction|].
    destruct H as [<-|[]]. split; [discriminate|reflexivity].
  - intros (t & I & N & ->). exists t. split; [exact I|].
    rewrite blocked_entry_of.
    destruct (incomplete_deps tasks t) as [|d ds]; [now elim N|].
    now left.
Qed.

Lemma in_blocking_tasks (tasks : list task) (b : blocking_entry) :
  In b (blocking_tasks (identify_blockers set_order tasks)) <->
  exists dep_id bt,
    In dep_id (flat_map dependencies tasks) /\
    find (fun t => String.eqb (id t) dep_id) tasks = Some bt /\
    not_completed bt = true /\
    b = Blocking (id bt) (title bt)
          (length (filter (fun t => existsb (String.eqb dep_id)
                                            (dependencies t)) tasks)).
Proof.
  unfold identify_blockers. cbn [blocking_tasks]. rewrite in_flat_map.
  split.
  - intros (d & I & H). apply (proj1 (in_set_order _ _)) in I.
    destruct (find (fun t => String.eqb (id t) d) tasks) as [bt|] eqn:F;
      [|contradiction].
    destruct (not_completed bt) eqn:N; [|contradiction].
    destruct H as [<-|[]]. exists d, bt. repeat split; auto.
  - intros (d & bt & I & F & N & ->). exists d.
    split; [now apply in_set_order|]. rewrite F, N. now left.
Qed.

Lemma find_by_id (tasks : list task) (d : string) (bt : task) :
  find (fun t => String.eqb (id t) d) tasks = Some bt ->
  In bt tasks /\ id bt = d.
Proof.
  intros F. apply find_some in F. destruct F as [I E].
  apply String.eqb_eq in E. auto.
Qed.

Lemma find_unique (tasks : list task) (t : task) :
  NoDup (map id tasks) -> In t tasks ->
  find (fun t' => String.eqb (id t') (id t)) tasks = Some t.
Proof.
  induction tasks as [|x tasks IH]; intros N I; [contradiction|].
  cbn [map] in N. apply NoDup_cons_iff in N. destruct N as [Nx N].
  cbn [find]. destruct (String.eqb (id x) (id t)) eqn:E.
  - destruct I as [->|I]; [reflexivity|].
    apply String.eqb_eq in E. elim Nx. rewrite E. now apply in_map.
  - destruct I as [->|I]; [now rewrite String.eqb_refl in E|].
    now apply IH.
Qed.

Lemma existsb_filter (g : string -> bool) (d : string) (l : list string) :
  existsb (String.eqb d) (filter g l) = existsb (String.eqb d) l && g d.
Proof.
  induction l as [|x l IH]; [reflexivity|].
  cbn [filter existsb].
  destruct (String.eqb d x) eqn:E.
  - apply String.eqb_eq in E. subst x.
    destruct (g d) eqn:G; cbn [existsb orb andb].
    + now rewrite String.eqb_refl.
    + rewrite IH. try rewrite G. rewrite !andb_false_r. reflexivity.
  - destruct (g x); cbn [existsb orb]; [rewrite E|]; exact IH.
Qed.

Lemma depends_count (tasks : list task) (d : string) :
  (exists t', In t' tasks /\ id t' = d /\ not_completed t' = true) ->
  forall l,
    length (filter (fun e => existsb (String.eqb d) (blocked_by e))
              (flat_map
                 (fun t =>
                    match dependencies t with
                    | [] => []
                    | _ :: _ =>
                        match incomplete_deps tasks t with
                        | [] => []
                        | deps => [Blocked (id t) (title t) deps]
                        end
                    end) l))
    = length (filter (fun t => existsb (String.eqb d) (dependencies t)) l).
Proof.
  intros (t' & I & E & N).
  assert (G : existsb
                (fun t0 => String.eqb (id t0) d && not_completed t0) tasks
              = true).
  { apply existsb_exists. exists t'. split; [exact I|].
    rewrite N, andb_true_r. now apply String.eqb_eq. }
  induction l as [|t l IH]; [reflexivity|].
  cbn [flat_map]. rewrite filter_app, length_app, IH.
  cbn [filter]. rewrite blocked_entry_of.
  assert (X : existsb (String.eqb d) (incomplete_deps tasks t)
              = existsb (String.eqb d) (dependencies t)).
  { unfold incomplete_deps. rewrite existsb_filter, G. apply andb_true_r. }
  destruct (incomplete_deps tasks t) as [|x xs] eqn:D.
  - rewrite <- X. reflexivity.
  - cbn [filter blocked_by]. rewrite <- X.
    destruct (existsb (String.eqb d) (x :: xs)); reflexivity.
Qed.

Lemma blocking_ids_nodup (tasks : list task) : forall l,
  NoDup l ->
  NoDup
    (map blocking_task_id
       (flat_map
          (fun dep_id =>
             match find (fun t => String.eqb (id t) dep_id) tasks with
             | Some blocking_task =>
                 if not_completed blocking_task then
                   [Blocking (id blocking_task) (title blocking_task)
                      (length
                         (filter
                            (fun t => existsb (String.eqb dep_id)
                                              (dependencies t))
                            tasks))]
                 else []
             | None => []
             end) l))
  /\
  forall x,
    In x (map blocking_task_id
            (flat_map
               (fun dep_id =>
                  match find (fun t => String.eqb (id t) dep_id) tasks with
                  | Some blocking_task =>
                      if not_completed blocking_task then
                        [Blocking (id blocking_task) (title blocking_task)
                           (length
                              (filter
                                 (fun t => existsb (String.eqb dep_id)
                                                   (dependencies t))
                                 tasks))]
                      else []
                  | None => []
                  end) l)) -> In x l.
Proof.
  induction l as [|d l IH]; intros N.
  - split; [constructor|intros x []].
  - apply NoDup_cons_iff in N. destruct N as [Nd N].
    destruct (IH N) as [IH1 IH2]. cbn [flat_map].
    destruct (find (fun t => String.eqb (id t) d) tasks) as [bt|] eqn:F.
    + destruct (not_completed bt).
      * apply find_by_id in F. destruct F as [_ E].
        cbn [app map blocking_task_id]. rewrite E. split.
        -- constructor; [|exact IH1]. intros H. apply Nd. now apply IH2.
        -- intros x [<-|H]; [now left|right; now apply IH2].
      * cbn [app]. split; [exact IH1|]. intros x H. right. now apply IH2.
    + cbn [app]. split; [exact IH1|]. intros x H. right. now apply IH2.
Qed.

(** X13.  When the task ids are distinct, the two lists of
    [identify_blockers] agree: an id occurs in some [blocked_by] list
    exactly when it has an entry among the blocking tasks; every
    blocking task is listed once, and its [blocking_count] is at least 1
    and equals the number of blocked entries that name it. *)
Theorem identify_blockers_consistent (tasks : list task) :
  NoDup (map id tasks) ->
  (forall d,
      (exists e, In e (blocked_tasks (identify_blockers set_order tasks)) /\
                 In d (blocked_by e))
      <->
      (exists b, In b (blocking_tasks (identify_blockers set_order tasks)) /\
                 blocking_task_id b = d))
  /\
  NoDup (map blocking_task_id
             (blocking_tasks (identify_blockers set_order tasks)))
  /\
  Forall (fun b =>
            1 <= blocking_count b /\
            blocking_count b
            = count_blocked (blocking_task_id b)
                            (identify_blockers set_order tasks))
         (blocking_tasks (identify_blockers set_order tasks)).
Proof.
  intros N. split; [|split].
  - intros d. split.
    + intros (e & He & Hd). apply in_blocked_tasks in He.
      destruct He as (t & It & _ & ->). cbn [blocked_by] in Hd.
      apply in_incomplete_deps in Hd.
      destruct Hd as (Hdep & t' & I' & E & NC).
      exists (Blocking (id t') (title t')
                (length (filter (fun t0 => existsb (String.eqb d)
                                             (dependencies t0)) tasks))).
      split; [|exact E].
      apply in_blocking_tasks. exists d, t'.
      split; [apply in_flat_map; eauto|].
      split; [rewrite <- E; now apply find_unique|]. auto.
    + intros (b & Hb & E). apply in_blocking_tasks in Hb.
      destruct Hb as (d' & bt & I & F & NC & ->).
      cbn [blocking_task_id] in E. apply find_by_id in F.
      destruct F as [Ibt Eid]. subst d' d.
      apply in_flat_map in I. destruct I as (t & It & Hd).
      assert (Hin : In (id bt) (incomplete_deps tasks t)).
      { apply in_incomplete_deps. split; [exact Hd|]. exists bt. auto. }
      exists (Blocked (id t) (title t) (incomplete_deps tasks t)).
      split; [|exact Hin].
      apply in_blocked_tasks. exists t. split; [exact It|].
      split; [|reflexivity]. intros Z. now rewrite Z in Hin.
  - unfold identify_blockers. cbn [blocking_tasks].
    apply blocking_ids_nodup, set_order_nodup.
  - apply Forall_forall. intros b Hb. apply in_blocking_tasks in Hb.
    destruct Hb as (d & bt & I & F & NC & ->).
    cbn [blocking_count blocking_task_id].
    apply find_by_id in F. destruct F as [Ibt Eid].
    apply in_flat_map in I. destruct I as (t & It & Hd).
    split.
    + assert (H : In t (filter (fun t0 => existsb (String.eqb d)
                                            (dependencies t0)) tasks)).
      { apply filter_In. split; [exact It|]. apply existsb_exists.
        exists d. split; [exact Hd|apply String.eqb_refl]. }
      destruct (filter _ tasks); [contradiction|cbn [length]; lia].
    + unfold count_blocked, identify_blockers. cbn [blocked_tasks].
      rewrite Eid. symmetry. apply depends_count. exists bt. auto.
Qed.

End BlockerConsistency.

Section BlockerExamples.
Import TaskAgent BlockerVocabulary TaskVocabulary.
Local Open Scope string_scope.
Local Open Scope list_scope.

Lemma first_seen_iteration : set_iteration first_seen.
Proof. intros l. apply Permutation_refl. Qed.

Lemma identify_blockers_consistent_witness :
  NoDup (map blocking_task_id
             (blocking_tasks (identify_blockers first_seen four_tasks)))
  /\
  Forall (fun b =>
            1 <= blocking_count b /\
            blocking_count b
            = count_blocked (blocking_task_id b)
                            (identify_blockers first_seen four_tasks))
         (blocking_tasks (identify_blockers first_seen four_tasks)).
Proof.
  apply (identify_blockers_consistent first_seen first_seen_iteration
                                      four_tasks).
  cbn. repeat constructor; cbn; intuition discriminate.
Defined.

End BlockerExamples.

Section SortStability.
Import PyStr TaskAgent SortVocabulary TaskVocabulary TaskAgentCalls.
Local Open Scope string_scope.
Local Open Scope list_scope.

Lemma key_lt_differs (x y : prioritized) :
  key_lt (sort_key y) (sort_key x) = true ->
  same_key (sort_key x) y = false.
Proof.
  unfold key_lt, same_key. intros H.
  apply orb_true_iff in H. destruct H as [H|H].
  - apply Z.ltb_lt in H. apply andb_false_iff. left.
    apply Z.eqb_neq. lia.
  - apply andb_true_iff in H. destruct H as [_ H]. apply Z.ltb_lt in H.
    apply andb_false_iff. right. apply Z.eqb_neq. lia.
Qed.

Lemma same_key_own (x : prioritized) : same_key (sort_key x) x = true.
Proof. unfold same_key. now rewrite !Z.eqb_refl. Qed.

Lemma same_key_trans (k : Z * Z) (x y : prioritized) :
  same_key k x = true -> same_key k y = same_key (sort_key x) y.
Proof.
  unfold same_key. intros H. apply andb_true_iff in H.
  destruct H as [H1 H2]. apply Z.eqb_eq in H1, H2. now rewrite H1, H2.
Qed.

Lemma filter_insert (k : Z * Z) (x : prioritized) : forall l,
  filter (same_key k) (insert x l)
  = if same_key k x then x :: filter (same_key k) l
    else filter (same_key k) l.
Proof.
  induction l as [|y l IH]; cbn [insert filter]; [reflexivity|].
  destruct (key_lt (sort_key y) (sort_key x)) eqn:L.
  - cbn [filter]. rewrite IH.
    destruct (same_key k x) eqn:X; [|reflexivity].
    rewrite (same_key_trans k x y X), (key_lt_differs x y L). reflexivity.
  - cbn [filter]. reflexivity.
Qed.

(** X14.  The sort of [prioritize_tasks] is stable: the results that
    share a priority bucket and an urgency score come out in the order
    in which their tasks were given. *)
Theorem prioritize_tasks_stable
  (analyse : task -> prioritized) (tasks : list task) (k : Z * Z) :
  filter (same_key k) (prioritize_tasks analyse tasks)
  = filter (same_key k) (map analyse tasks).
Proof.
  unfold prioritize_tasks, sort.
  induction (map analyse tasks) as [|x l IH]; [reflexivity|].
  cbn [fold_right filter]. rewrite filter_insert, IH. reflexivity.
Qed.

Lemma sort_same_keys (k : Z * Z) : forall l,
  Forall (fun x => sort_key x = k) l -> sort l = l.
Proof.
  induction l as [|x l IH]; intros F; [reflexivity|].
  apply Forall_cons_iff in F. destruct F as [Hx F].
  unfold sort in *. cbn [fold_right]. rewrite (IH F).
  destruct l as [|y l]; [reflexivity|].
  apply Forall_cons_iff in F. destruct F as [Hy _].
  cbn [insert]. rewrite Hx, Hy.
  unfold key_lt. rewrite !Z.ltb_irrefl, andb_false_r. reflexivity.
Qed.

Section AsWritten.
Variable A : Type.
Variable ainvoke : A -> attempt str.
Variable prioritization_of : task -> str -> attempt prioritized.
Variable prompt : task -> A.

Lemma analyse_default (t : task) :
  analyse ainvoke prioritization_of prompt t = default_entry t.
Proof.
  unfold analyse. destruct (ainvoke (prompt t)); reflexivity.
Qed.

(** X15.  As the module is written, [extract_json_from_response] is not
    among the names it binds, so the analysis of every task ends in the
    [except] branch, whatever the model answers: [prioritize_tasks]
    returns the tasks in the order given, each with the default
    prioritisation (medium, urgency 5). *)
Theorem prioritize_tasks_returns_defaults (tasks : list task) :
  prioritize_tasks (analyse ainvoke prioritization_of prompt) tasks
  = map default_entry tasks.
Proof.
  unfold prioritize_tasks.
  rewrite (map_ext _ _ analyse_default).
  apply (sort_same_keys (2, -5)%Z).
  apply Forall_forall. intros x H. apply in_map_iff in H.
  destruct H as (t & <- & _). reflexivity.
Qed.

Variable V : Type.
Variable extract : str -> attempt V.
Variable prompt_all : list task -> A.

Lemma head_of_filter (B : Type) (f : task -> bool) (none : B)
  (some : task -> B) : forall l,
  match filter f l with [] => none | t0 :: _ => some t0 end
  = match find f l with None => none | Some t0 => some t0 end.
Proof.
  induction l as [|x l IH]; [reflexivity|].
  cbn [filter find]. destruct (f x); [reflexivity|exact IH].
Qed.

(** X16.  As the module is written, [suggest_next_task] never returns
    what the model suggests: it answers that no task is pending when
    every task is completed or cancelled, and otherwise names the first
    task of the list that is neither, whatever the priorities are; and
    [break_down_task] returns the empty list for every task. *)
Theorem suggest_next_task_is_first_incomplete
  (as_list : V -> list V) (tasks : list task) (t : task) :
  suggest_next_task ainvoke extract prompt_all tasks
  = match find incomplete tasks with
    | None => NoPendingTasks V
    | Some t0 => HighestPriority V (id t0)
    end
  /\
  break_down_task ainvoke extract as_list prompt t = [].
Proof.
  split.
  - unfold suggest_next_task.
    rewrite <- (head_of_filter _ incomplete (NoPendingTasks V)
                  (fun t0 => HighestPriority V (id t0))).
    destruct (filter incomplete tasks) as [|t0 l] eqn:F; [reflexivity|].
    destruct (ainvoke (prompt_all (firstn 10 (t0 :: l)))); reflexivity.
  - unfold break_down_task. destruct (ainvoke (prompt t)); reflexivity.
Qed.

End AsWritten.

End SortStability.

(* ================================================================== *)
(** * Routing and the orchestrator node *)
(* ================================================================== *)

Section RouterFacts.
Import PyStr Py AgentRouter Context Orchestrator GraphVocabulary.
Local Open Scope string_scope.
Local Open Scope list_scope.
Local Open Scope nat_scope.

Lemma route_request_valid response ui h :
  is_agent (route_request response ui h) = true \/
  route_request response ui h = "end".
Proof.
  unfold route_request.
  destruct (MAX_DELEGATION_DEPTH <=? length h); [now right|].
  set (agent := string_of_list_ascii (lower_str (strip response))).
  destruct (is_agent agent) eqn:A; cbn [negb andb]; [now left|].
  destruct (String.eqb agent "end") eqn:E; cbn [negb].
  - right. now apply String.eqb_eq.
  - left. reflexivity.
Qed.

Lemma route_request_below response ui h :
  route_request response ui h <> "end" ->
  length h < 3 /\ is_agent (route_request response ui h) = true.
Proof.
  intros N. split.
  - unfold route_request, MAX_DELEGATION_DEPTH in N.
    destruct (3 <=? length h) eqn:L; [now elim N|].
    now apply Nat.leb_gt in L.
  - destruct (route_request_valid response ui h) as [H|H];
      [exact H|contradiction].
Qed.

Lemma no_loop_fresh (a : string) (h : list string) :
  length h <= 2 -> check_loop a h = false -> ~ In a h.
Proof.
  destruct h as [|x [|y [|z h]]]; intros L C; cbn [length] in L; [| | |lia].
  - intros [].
  - unfold check_loop, last1, last2 in C. cbn in C.
    destruct (String.eqb x a) eqn:E; [discriminate C|].
    apply String.eqb_neq in E. intros [H|[]]. contradiction.
  - unfold check_loop, last1, last2 in C.
    cbn [rev app hd_error nth_error equals length Nat.leb andb] in C.
    destruct (String.eqb y a) eqn:E; [discriminate C|].
    destruct (String.eqb x a) eqn:E'; [discriminate C|].
    apply String.eqb_neq in E, E'. intros [H|[H|[]]]; contradiction.
Qed.

Lemma count_absent (a : string) (h : list string) :
  ~ In a h -> count a h = 0.
Proof.
  unfold count. induction h as [|x h IH]; intros N; [reflexivity|].
  cbn [filter]. destruct (String.eqb a x) eqn:E.
  - apply String.eqb_eq in E. subst x. elim N. now left.
  - apply IH. intros H. apply N. now right.
Qed.

Lemma count_nodup (a : string) (h : list string) :
  NoDup h -> count a h <= 1.
Proof.
  induction h as [|x h IH]; intros N; [cbn; lia|].
  apply NoDup_cons_iff in N. destruct N as [Nx N].
  unfold count in *. cbn [filter]. destruct (String.eqb a x) eqn:E.
  - apply String.eqb_eq in E. subst x.
    pose proof (count_absent a h Nx) as Z. unfold count in Z.
    cbn [length]. rewrite Z. lia.
  - now apply IH.
Qed.

Lemma last2_short (h : list string) : length h < 2 -> last2 h = None.
Proof.
  destruct h as [|x [|y h]]; intros L; cbn [length] in L;
    [reflexivity|reflexivity|lia].
Qed.

(** On a history without repetition the third test of [check_loop],
    the count, decides nothing. *)
Lemma check_loop_nodup (a : string) (h : list string) :
  NoDup h ->
  check_loop a h = equals (last1 h) a || equals (last2 h) a.
Proof.
  intros N. unfold check_loop. destruct h as [|x h']; [reflexivity|].
  destruct (equals (last1 (x :: h')) a); [reflexivity|]. cbn [orb].
  pose proof (count_nodup a (x :: h') N) as C.
  destruct (2 <=? count a (x :: h')) eqn:C2;
    [apply Nat.leb_le in C2; lia|].
  destruct (2 <=? length (x :: h')) eqn:L.
  - cbn [andb]. now destruct (equals (last2 (x :: h')) a).
  - apply Nat.leb_gt in L. rewrite (last2_short _ L). reflexivity.
Qed.

Lemma visit_history (s : WorkspaceState * ContextManager) (a : answers) :
  delegation_history (fst (visit s a)) = delegation_history (fst s)
  \/
  exists next,
    delegation_history (fst (visit s a))
    = delegation_history (fst s) ++ [next] /\
    length (delegation_history (fst s)) < 3 /\
    is_agent next = true /\
    check_loop next (delegation_history (fst s)) = false.
Proof.
  unfold visit, orchestrator_node.
  destruct (needs_summarization (messages (fst s))); [now left|].
  set (next := route_request (routing_answer a) (user_input (fst s))
                             (delegation_history (fst s))).
  destruct (check_loop next (delegation_history (fst s))) eqn:C;
    [now left|].
  cbn [fst merge fold_left assign delegation_history].
  destruct (String.eqb next "end") eqn:E; cbn [negb]; [now left|].
  right. exists next. split; [reflexivity|].
  apply String.eqb_neq in E. apply route_request_below in E.
  destruct E as [L A]. auto.
Qed.

Lemma visits_invariant : forall l s,
  NoDup (delegation_history (fst s)) ->
  length (delegation_history (fst s)) <= 3 ->
  Forall (fun a => is_agent a = true) (delegation_history (fst s)) ->
  NoDup (delegation_history (fst (visits s l))) /\
  length (delegation_history (fst (visits s l))) <= 3 /\
  Forall (fun a => is_agent a = true)
         (delegation_history (fst (visits s l))).
Proof.
  induction l as [|a l IH]; intros s N L F; [auto|].
  unfold visits in *. cbn [fold_left].
  destruct (visit_history s a) as [E|(next & E & Lt & A & C)];
    apply IH; rewrite E; auto.
  - apply NoDup_app_remove_l with (l := []). cbn [app].
    apply Permutation_NoDup with (l := next :: delegation_history (fst s)).
    + apply Permutation_cons_append.
    + constructor; [|exact N]. apply no_loop_fresh; [lia|exact C].
  - rewrite length_app. cbn [length]. lia.
  - apply Forall_app. split; [exact F|]. constructor; [exact A|constructor].
Qed.

(** X17.  Whatever the model answers at each visit of the orchestrator
    node, the delegation history that grows from the empty history of
    [process_request] never holds an agent twice, never exceeds three
    entries and holds only keys of [AGENTS]; on such a history the
    count test of [check_loop] decides nothing, the loop check being
    the comparison with the last two entries. *)
Theorem delegation_history_invariant
  (user_input : str) (cm : ContextManager) (l : list answers) :
  NoDup (history_after user_input cm l) /\
  length (history_after user_input cm l) <= 3 /\
  Forall (fun a => is_agent a = true) (history_after user_input cm l) /\
  forall a,
    check_loop a (history_after user_input cm l)
    = equals (last1 (history_after user_input cm l)) a ||
      equals (last2 (history_after user_input cm l)) a.
Proof.
  unfold history_after.
  destruct (visits_invariant l (initial_state user_input, cm))
    as (N & L & F); cbn [fst initial_state delegation_history length];
    [constructor|lia|constructor|].
  repeat split; auto. intros a. now apply check_loop_nodup.
Qed.

Lemma agent_not_empty (r : string) :
  is_agent r = true \/ r = "end" -> String.eqb r "" = false.
Proof.
  intros [H| ->]; [|reflexivity].
  destruct r; [discriminate H|reflexivity].
Qed.

Lemma next_node_of (r : string) :
  is_agent r = true \/ r = "end" ->
  (if (String.eqb r "" || String.eqb r "end") then "end"
   else if String.eqb r "email" then "email"
   else if String.eqb r "calendar" then "calendar"
   else "end") = next_node r.
Proof.
  intros H. rewrite (agent_not_empty r H). cbn [orb]. unfold next_node.
  destruct (String.eqb r "end") eqn:E; [|reflexivity].
  apply String.eqb_eq in E. subst r. reflexivity.
Qed.

(** X18.  The first visit of the orchestrator node, on the state that
    [process_request] builds: no summary is made and no loop is
    detected; the history becomes the one agent that the router names,
    or stays empty for [end]; and the graph goes on to the e-mail or the
    calendar node exactly when the router names that agent, and ends
    for every other answer, the four agents without a node included. *)
Theorem first_visit_routes
  (a : answers) (user_input : str) (cm : ContextManager) :
  snd (visit (initial_state user_input, cm) a) = cm
  /\
  loop_detected (fst (visit (initial_state user_input, cm) a)) = false
  /\
  delegation_history (fst (visit (initial_state user_input, cm) a))
  = (if String.eqb (route_request (routing_answer a) user_input []) "end"
     then []
     else [route_request (routing_answer a) user_input []])
  /\
  should_continue (fst (visit (initial_state user_input, cm) a))
  = next_node (route_request (routing_answer a) user_input []).
Proof.
  pose proof (route_request_valid (routing_answer a) user_input []) as V.
  unfold visit, orchestrator_node.
  cbn [fst snd initial_state messages delegation_history
       Orchestrator.user_input].
  change (needs_summarization []) with false. cbv iota.
  cbn [check_loop].
  set (r := route_request (routing_answer a) user_input []) in *.
  cbn [fst snd merge fold_left assign delegation_history loop_detected].
  split; [reflexivity|]. split; [reflexivity|].
  split; [now destruct (String.eqb r "end")|].
  unfold should_continue.
  cbn [loop_detected rate_limit_exceeded current_agent results length
       Nat.ltb Nat.leb equals].
  rewrite <- (next_node_of r V).
  destruct (String.eqb r "" || String.eqb r "end"); reflexivity.
Qed.

End RouterFacts.

Section ParallelFacts.
Import PyStr Py AgentRouter Context Orchestrator GraphVocabulary.
Local Open Scope string_scope.
Local Open Scope list_scope.
Local Open Scope nat_scope.

Lemma can_execute_parallel_cases (user_input : str) :
  can_execute_parallel user_input =
  (if 2 <=? length
              ((if mentions [py"email"; py"inbox"; py"message"] user_input
                then ["email"] else []) ++
               (if mentions [py"calendar"; py"schedule"; py"meeting";
                             py"event"] user_input
                then ["calendar"] else []) ++
               (if mentions [py"task"; py"todo"; py"priority"] user_input
                then ["task"] else []))
   then (if mentions [py"email"; py"inbox"; py"message"] user_input
         then ["email"] else []) ++
        (if mentions [py"calendar"; py"schedule"; py"meeting";
                      py"event"] user_input
         then ["calendar"] else []) ++
        (if mentions [py"task"; py"todo"; py"priority"] user_input
         then ["task"] else [])
   else []).
Proof.
  unfold can_execute_parallel, parallel_keywords, mentions.
  cbn [flat_map]. now rewrite !app_nil_r.
Qed.

Lemma mentions_grows (keywords : list str) (pre user_input post : str) :
  mentions keywords user_input = true ->
  mentions keywords (pre ++ user_input ++ post) = true.
Proof.
  unfold mentions. rewrite !existsb_exists.
  intros (kw & I & C). exists kw. split; [exact I|].
  apply contains_split in C. destruct C as (a & b & E).
  unfold lower_str in *. rewrite !map_app, E.
  replace (map lower pre ++ (a ++ kw ++ b) ++ map lower post)
    with ((map lower pre ++ a) ++ kw ++ (b ++ map lower post))
    by (now rewrite <- !app_assoc).
  apply contains_middle.
Qed.

(** X19.  [can_execute_parallel] answers with the empty list or with two
    or three of the agents e-mail, calendar and task, in that order and
    without repetition, so that [parallel_router] never sends to one
    agent alone; and an agent that is chosen for a request is chosen
    again for every request that contains it. *)
Theorem can_execute_parallel_answers (user_input : str) :
  (can_execute_parallel user_input = [] \/
   In (can_execute_parallel user_input) parallel_sets)
  /\
  (forall st, length (parallel_router st) <> 1)
  /\
  (forall pre post agent,
      In agent (can_execute_parallel user_input) ->
      In agent (can_execute_parallel (pre ++ user_input ++ post))).
Proof.
  split; [|split].
  - rewrite can_execute_parallel_cases. unfold parallel_sets.
    destruct (mentions [py"email"; py"inbox"; py"message"] user_input);
      destruct (mentions [py"calendar"; py"schedule"; py"meeting";
                          py"event"] user_input);
      destruct (mentions [py"task"; py"todo"; py"priority"] user_input);
      cbn [app length Nat.leb In]; auto 6.
  - intros st. unfold parallel_router. rewrite length_map.
    rewrite can_execute_parallel_cases.
    destruct (mentions [py"email"; py"inbox"; py"message"] (Orchestrator.user_input st));
      destruct (mentions [py"calendar"; py"schedule"; py"meeting";
                          py"event"] (Orchestrator.user_input st));
      destruct (mentions [py"task"; py"todo"; py"priority"] (Orchestrator.user_input st));
      cbn [app length Nat.leb]; discriminate.
  - intros pre post agent. rewrite !can_execute_parallel_cases.
    pose proof (mentions_grows [py"email"; py"inbox"; py"message"]
                  pre user_input post) as G1.
    pose proof (mentions_grows [py"calendar"; py"schedule"; py"meeting";
                                py"event"] pre user_input post) as G2.
    pose proof (mentions_grows [py"task"; py"todo"; py"priority"]
                  pre user_input post) as G3.
    destruct (mentions [py"email"; py"inbox"; py"message"] user_input);
      [rewrite (G1 eq_refl)
      |destruct (mentions [py"email"; py"inbox"; py"message"]
                          (pre ++ user_input ++ post))];
      (destruct (mentions [py"calendar"; py"schedule"; py"meeting";
                           py"event"] user_input);
       [rewrite (G2 eq_refl)
       |destruct (mentions [py"calendar"; py"schedule"; py"meeting";
                            py"event"] (pre ++ user_input ++ post))]);
      (destruct (mentions [py"task"; py"todo"; py"priority"] user_input);
       [rewrite (G3 eq_refl)
       |destruct (mentions [py"task"; py"todo"; py"priority"]
                           (pre ++ user_input ++ post))]);
      cbn [app length Nat.leb In]; tauto.
Qed.

End ParallelFacts.

(* ================================================================== *)
(** * The context manager *)
(* ================================================================== *)

Section ContextFacts.
Import PyStr Py AgentRouter Context Orchestrator GraphVocabulary.
Local Open Scope string_scope.
Local Open Scope list_scope.
Local Open Scope Z_scope.

Lemma fold_add (l : list Z) (acc : Z) :
  fold_left Z.add l acc = acc + fold_left Z.add l 0.
Proof.
  revert acc. induction l as [|x l IH]; intros acc; cbn [fold_left]; [lia|].
  rewrite (IH (acc + x)), (IH (0 + x)). lia.
Qed.

Lemma context_length_app (a b : list BaseMessage) :
  calculate_context_length (a ++ b)
  = calculate_context_length a + calculate_context_length b.
Proof.
  unfold calculate_context_length.
  rewrite map_app, fold_left_app, fold_add. reflexivity.
Qed.

Lemma context_length_nonneg (a : list BaseMessage) :
  0 <= calculate_context_length a.
Proof.
  unfold calculate_context_length.
  induction a as [|m a IH]; cbn [map fold_left]; [lia|].
  rewrite fold_add.
  pose proof (Nat2Z.is_nonneg (length (content m))) as P.
  change (Z.of_nat (length (content m))) with (len (content m)) in P.
  lia.
Qed.

Lemma needs_summarization_iff (a : list BaseMessage) :
  needs_summarization a = true <->
  MAX_MESSAGES < len a \/ MAX_CONTEXT_LENGTH < calculate_context_length a.
Proof.
  unfold needs_summarization.
  destruct (MAX_MESSAGES <? len a) eqn:M.
  - apply Z.ltb_lt in M. tauto.
  - apply Z.ltb_ge in M.
    destruct (MAX_CONTEXT_LENGTH <? calculate_context_length a) eqn:C.
    + apply Z.ltb_lt in C. tauto.
    + apply Z.ltb_ge in C. split; [discriminate|lia].
Qed.

(** X20.  A conversation that needs summarising still needs it after
    messages are added in front of it or behind it: the two thresholds,
    more than 20 messages or more than 10,000 characters, only count
    upwards. *)
Theorem needs_summarization_grows (pre a post : list BaseMessage) :
  needs_summarization a = true ->
  needs_summarization (pre ++ a ++ post) = true.
Proof.
  rewrite !needs_summarization_iff. unfold len.
  rewrite !context_length_app, !length_app.
  pose proof (context_length_nonneg pre).
  pose proof (context_length_nonneg post).
  lia.
Qed.

Lemma needs_summarization_grows_witness :
  needs_summarization
    ([Message AIMessage (py"hello")] ++ many_messages ++
     [Message HumanMessage (py"bye")]) = true.
Proof.
  apply (needs_summarization_grows
           [Message AIMessage (py"hello")] many_messages
           [Message HumanMessage (py"bye")]).
  reflexivity.
Defined.

(** X21.  A visit of the orchestrator node to a conversation that needs
    summarising replaces the messages by one system message holding the
    summary and hands the old messages to the context manager; it
    consults no router, so the agent and the delegation history stay as
    they were.  The new conversation needs summarising again exactly
    when the summary is longer than 9,974 characters. *)
Theorem summarising_visit
  (a : answers) (st : WorkspaceState) (cm : ContextManager) :
  needs_summarization (messages st) = true ->
  messages (fst (visit (st, cm) a))
  = [Message SystemMessage
       (py"Previous context summary: " ++ summary_answer a)]
  /\
  context_length (fst (visit (st, cm) a)) = len (summary_answer a)
  /\
  delegation_history (fst (visit (st, cm) a)) = delegation_history st
  /\
  current_agent (fst (visit (st, cm) a)) = current_agent st
  /\
  snd (visit (st, cm) a)
  = MkContext (full_history cm ++ messages st) (summary_answer a)
  /\
  (needs_summarization (messages (fst (visit (st, cm) a))) = true
   <-> 9974 < len (summary_answer a)).
Proof.
  intros N. unfold visit, orchestrator_node. cbn [fst snd]. rewrite N.
  unfold summarize_context.
  cbn [fst snd merge fold_left assign messages context_length
       delegation_history current_agent].
  repeat (split; [reflexivity|]).
  rewrite needs_summarization_iff.
  unfold calculate_context_length, len, MAX_MESSAGES, MAX_CONTEXT_LENGTH.
  cbn [map fold_left content length].
  rewrite length_app.
  change (length (py"Previous context summary: ")) with 26%nat.
  lia.
Qed.

Lemma summarising_visit_witness :
  messages (fst (visit (State many_messages [] None [] [] false 0 false false,
                        fresh)
                       (Answers (py"short") (py"email"))))
  = [Message SystemMessage (py"Previous context summary: short")].
Proof.
  apply (summarising_visit
           (Answers (py"short") (py"email"))
           (State many_messages [] None [] [] false 0 false false) fresh).
  reflexivity.
Defined.

Lemma last_n_suffix (A : Type) (n : nat) (l : list A) :
  exists dropped, l = dropped ++ last_n n l /\
                  length (last_n n l) = Nat.min n (length l).
Proof.
  unfold last_n. exists (firstn (length l - n) l).
  split; [now rewrite firstn_skipn|].
  rewrite length_skipn. lia.
Qed.

(** X22.  After [summarize_context] the manager holds the summary and
    the summarised messages at the end of its history.  If the summary
    is the empty text, [get_context_for_agent] returns the recent
    messages as they are, without any summary; otherwise it returns one
    system message followed by the last five recent messages, or all of
    them when there are fewer, so at most six messages. *)
Theorem context_after_summary
  (summary : str) (messages recent : list BaseMessage)
  (cm : ContextManager) :
  full_history (snd (summarize_context summary messages cm))
  = full_history cm ++ messages
  /\
  (summary = [] /\
   get_context_for_agent (snd (summarize_context summary messages cm))
                         recent = recent
   \/
   summary <> [] /\
   exists head dropped kept,
     get_context_for_agent (snd (summarize_context summary messages cm))
                           recent = head :: kept /\
     m_class head = SystemMessage /\
     recent = dropped ++ kept /\
     length kept = Nat.min 5 (length recent)).
Proof.
  split; [reflexivity|].
  unfold summarize_context, get_context_for_agent.
  cbn [snd summarized_context].
  destruct summary as [|c summary]; [left; split; reflexivity|].
  right. split; [discriminate|].
  destruct (last_n_suffix BaseMessage 5 recent) as (dropped & E & L).
  eexists. exists dropped, (last_n 5 recent).
  split; [reflexivity|]. split; [reflexivity|]. split; assumption.
Qed.

End ContextFacts.

(* ================================================================== *)
(** * The request entry point and its session statistics *)
(* ================================================================== *)

Section SessionFacts.
Import PyStr Py Guardrails AgentRouter Context Orchestrator.
Import GraphVocabulary ScreeningVocabulary.
Local Open Scope string_scope.
Local Open Scope list_scope.
Local Open Scope Z_scope.

Variable graph_invoke : WorkspaceState -> invocation.

(** An entry has the three keys that [process_request] writes. *)
Lemma serve_step (s : GuardrailsSystem * WorkspaceOrchestrator)
  (r : request) :
  fst (snd (serve graph_invoke s r)) = fst s
  /\
  (session_history (snd (snd (serve graph_invoke s r)))
   = session_history (snd s) /\
   served (fst (serve graph_invoke s r)) = false
   \/
   exists result,
     session_history (snd (snd (serve graph_invoke s r)))
     = session_history (snd s) ++
       [[("input", SInput (r_input r));
         ("result", SResult result);
         ("timestamp", STimestamp (r_now r))]] /\
     served (fst (serve graph_invoke s r)) = true).
Proof.
  unfold serve, process_request. rewrite apply_user_request.
  destruct (negb (truthy (get_default "approved" (VBool true) _))).
  - cbn [fst snd served]. auto.
  - destruct (graph_invoke (initial_state (r_input r))) as [result|e].
    + destruct (rev (messages result)); cbn [fst snd served session_history];
        (split; [reflexivity|]); right; exists result; auto.
    + cbn [fst snd served]. auto.
Qed.

Lemma stats_no_agents (h : list session_entry) :
  Forall (fun e => entry_get "delegation_history" e = None) h ->
  flat_map entry_agents h = [].
Proof.
  induction 1 as [|e h He _ IH]; [reflexivity|].
  cbn [flat_map]. unfold entry_agents at 1. now rewrite He, IH.
Qed.

Lemma serve_all_invariant : forall l s,
  Forall (fun e => entry_get "delegation_history" e = None)
         (session_history (snd s)) ->
  fst (snd (serve_all graph_invoke s l)) = fst s /\
  Forall (fun e => entry_get "delegation_history" e = None)
         (session_history (snd (snd (serve_all graph_invoke s l)))) /\
  len (session_history (snd (snd (serve_all graph_invoke s l))))
  = len (session_history (snd s)) +
    len (filter served (fst (serve_all graph_invoke s l))).
Proof.
  induction l as [|r l IH]; intros s F.
  - cbn [serve_all fst snd filter]. unfold len. cbn [length].
    repeat split; [exact F|lia].
  - cbn [serve_all].
    destruct (serve_step s r) as [G H].
    destruct (serve graph_invoke s r) as [answer s1]. cbn [fst snd] in G, H.
    specialize (IH s1).
    destruct (serve_all graph_invoke s1 l) as [answers s2].
    cbn [fst snd filter] in *.
    destruct H as [[E B]|(result & E & B)]; rewrite B.
    + rewrite E in IH. destruct (IH F) as (I1 & I2 & I3).
      repeat split; [congruence|exact I2|exact I3].
    + assert (F1 : Forall (fun e => entry_get "delegation_history" e = None)
                          (session_history (snd s1))).
      { rewrite E. apply Forall_app. split; [exact F|].
        constructor; [reflexivity|constructor]. }
      destruct (IH F1) as (I1 & I2 & I3).
      repeat split; [congruence|exact I2|].
      rewrite I3, E. unfold len. rewrite length_app. cbn [length]. lia.
Qed.

(** X23.  However many requests [process_request] serves, the entries
    of its session history hold the keys input, result and timestamp
    only, so that [get_session_stats] always reports zero agents used
    and zero delegations; the number of requests it reports is the
    number of requests that were neither refused nor failed; and the
    screening of requests never writes to the guardrails instance. *)
Theorem session_stats_count_no_agents (l : list request) :
  agents_used
    (get_session_stats
       (snd (snd (serve_all graph_invoke (init, MkOrchestrator []) l)))) = 0
  /\
  delegation_count
    (get_session_stats
       (snd (snd (serve_all graph_invoke (init, MkOrchestrator []) l)))) = 0
  /\
  total_requests
    (get_session_stats
       (snd (snd (serve_all graph_invoke (init, MkOrchestrator []) l))))
  = len (filter served
                (fst (serve_all graph_invoke (init, MkOrchestrator []) l)))
  /\
  fst (snd (serve_all graph_invoke (init, MkOrchestrator []) l)) = init.
Proof.
  destruct (serve_all_invariant l (init, MkOrchestrator []))
    as (G & F & L); [constructor|].
  cbn [fst snd session_history] in G, L.
  unfold get_session_stats.
  cbn [agents_used delegation_count total_requests].
  rewrite (stats_no_agents _ F). cbn [nodup].
  repeat split; [exact L|exact G].
Qed.

End SessionFacts.
